(** * The scaffold command of terragrunt

    A shallow embedding of [cli/commands/scaffold/action.go] and the
    properties of its source-locator rewriting, latest-tag resolution,
    variable extraction and input classification.

    The embedding follows the file function by function: [parseUrl],
    [getLatestReleaseTag], [readBlockAttribute], [listTerraformFiles] and
    [listInputs]; the parts of [Run] that the properties are about are
    steps of their own ([Run_resolve_ref], [Run_separate_inputs],
    [Run_prepare_source_url]). What the file takes from the Go library
    and from [go-cty], [hcl] and [net/url] is modelled for the fragment it
    uses, in the modules [GoStrings], [Regexp], [Json], [Cty], [Hcl] and
    [Url]. The file system, the contents and the parse of the files, the
    release lookup and [terraform.SplitSourceUrl] are arguments of the
    functions that use them. Calls of the logger are left out. *)

From Stdlib Require Import ZArith String Ascii List Bool Lia DecimalString DecimalPos.
From stdpp Require Import base gmap strings list.

Set Warnings "-register-all".

Open Scope string_scope.
Open Scope list_scope.

(** ** Outcomes of Go calls

    A Go call either returns its values, returns a non-nil [error]
    alongside them, or panics. *)

Inductive Severity := DiagError | DiagWarning.

(** [hcl.Diagnostic], without its source ranges. *)
Record Diagnostic := mkDiagnostic {
  diag_severity : Severity;
  Summary : string;
  Detail : string
}.

(** Go's [error] values, as far as this package produces them. *)
Inductive error :=
| ErrMsg (msg : string)                 (* fmt.Errorf / a collaborator's error *)
| ErrDiags (diags : list Diagnostic)    (* hcl.Diagnostics used as an error *)
| ErrWithStackTrace (inner : error).    (* errors.WithStackTrace(err) *)

Inductive outcome (A : Type) :=
| Return (a : A)
| Error (e : error)
| Panic (msg : string).
Arguments Return {A} a.
Arguments Error {A} e.
Arguments Panic {A} msg.

Definition bind {A B} (x : outcome A) (f : A -> outcome B) : outcome B :=
  match x with
  | Return a => f a
  | Error e => Error e
  | Panic m => Panic m
  end.

Notation "'let!' x ':=' c1 'in' c2" := (bind c1 (fun x => c2))
  (at level 10, x name, c1 at level 100, c2 at level 200).

(** ** The string functions of Go's [strings] and [path/filepath] used here *)

Module GoStrings.

(** [strings.HasPrefix(s, prefix)]. *)
Definition HasPrefix (s pre : string) : bool := String.prefix pre s.

(** [s[n:]] for [n <= len(s)]. *)
Fixpoint drop (n : nat) (s : string) : string :=
  match n, s with
  | O, _ => s
  | S n', String _ s' => drop n' s'
  | S _, EmptyString => EmptyString
  end.

(** [s[:n]] for [n <= len(s)]. *)
Fixpoint take (n : nat) (s : string) : string :=
  match n, s with
  | O, _ => EmptyString
  | S n', String c s' => String c (take n' s')
  | S _, EmptyString => EmptyString
  end.

(** [strings.HasSuffix(s, suffix)]. *)
Definition HasSuffix (s suf : string) : bool :=
  (String.length suf <=? String.length s)%nat &&
  String.eqb (drop (String.length s - String.length suf) s) suf.

(** [strings.TrimSuffix(s, suffix)]. *)
Definition TrimSuffix (s suf : string) : string :=
  if HasSuffix s suf then take (String.length s - String.length suf) s else s.

(** The loop of [strings.Split(s, sep)] for a non-empty [sep]: [skip]
    counts the bytes of a separator still to be passed over, [cur] is the
    part being collected, in reverse. *)
Fixpoint split_go (sep : string) (skip : nat) (cur : string) (s : string)
  : list string :=
  match s with
  | EmptyString => [String.rev cur]
  | String c s' =>
      match skip with
      | S k => split_go sep k cur s'
      | O =>
          if String.prefix sep s
          then String.rev cur :: split_go sep (String.length sep - 1) EmptyString s'
          else split_go sep O (String c cur) s'
      end
  end.

(** [strings.Split(s, sep)], [sep] non-empty: the parts of [s] between
    the occurrences of [sep], scanning from the left. *)
Definition Split (s sep : string) : list string := split_go sep O EmptyString s.

(** [filepath.Ext(path)]: the suffix beginning at the last dot of the
    last element of [path], empty when there is no dot. [ext_go] scans
    from the front and keeps the latest candidate: a separator drops it,
    a dot starts a new one. *)
Fixpoint ext_go (cand : option string) (s : string) : string :=
  match s with
  | EmptyString => match cand with Some e => e | None => EmptyString end
  | String c s' =>
      if Ascii.eqb c "/" then ext_go None s'
      else if Ascii.eqb c "." then ext_go (Some s) s'
      else ext_go cand s'
  end.

Definition Ext (path : string) : string := ext_go None path.

(** The index at which a [..] element of [filepath.Clean] leaves the
    buffer [out], from the index [w] of its last byte: back to the last
    separator, and not below [dotdot]. *)
Fixpoint back (out : string) (dotdot w : nat) : nat :=
  match w with
  | O => O
  | S w' =>
      if (dotdot <? w)%nat
         && negb (match String.get w out with Some c => Ascii.eqb c "/" | None => false end)
      then back out dotdot w'
      else w
  end.

(** One round of the loop of [filepath.Clean] over a path element, the
    text between two separators: [out] is the buffer, [dotdot] the index
    in it where [..] must stop. *)
Definition clean_step (rooted : bool) (st : string * nat) (elem : string)
  : string * nat :=
  let (out, dotdot) := st in
  if String.eqb elem "" then st
  else if String.eqb elem "." then st
  else if String.eqb elem ".." then
    if (dotdot <? String.length out)%nat
    then (take (back out dotdot (String.length out - 1)) out, dotdot)
    else if rooted then st
    else
      let out' := ((if (0 <? String.length out)%nat then out ++ "/" else out) ++ "..")%string in
      (out', String.length out')
  else
    ((if rooted && negb (String.length out =? 1)%nat
         || negb rooted && negb (String.length out =? 0)%nat
      then out ++ "/" else out) ++ elem, dotdot)%string.

(** The buffer and the index [dotdot] at the end of the loop of
    [filepath.Clean(path)]. *)
Definition clean_loop (path : string) : string * nat :=
  let rooted := HasPrefix path "/" in
  fold_left (clean_step rooted) (Split path "/")
    (if rooted then ("/", 1%nat) else ("", 0%nat)).

(** [filepath.Clean(path)], on Unix: the shortest path of the same
    meaning, without empty elements, [.] elements, inner [..] elements
    and a trailing separator; [.] for the empty path. *)
Definition Clean (path : string) : string :=
  if String.eqb path "" then "."
  else
    let out := fst (clean_loop path) in
    if String.eqb out "" then "." else out.

(** [filepath.Join(dir, name)]: the two elements with a separator
    between, cleaned; an empty [dir] is ignored. *)
Definition Join (dir name : string) : string :=
  if String.eqb dir "" then (if String.eqb name "" then "" else Clean name)
  else Clean (dir ++ "/" ++ name).


End GoStrings.

(** ** Regular expressions

    The fragment of Go's [regexp] syntax that the locator pattern uses,
    matched by backtracking: Go returns the leftmost match, and among the
    matches starting there the one a backtracking search finds first. *)

Module Regexp.

Inductive regex :=
| Lit (c : ascii)               (* a literal byte *)
| NotLit (c : ascii)            (* [^c] *)
| AnyCharNotNL                  (* .  (no s flag: every byte but \n) *)
| Concat (r1 r2 : regex)
| Plus (r : regex)              (* r+, greedy *)
| Star (r : regex)              (* r*, greedy *)
| Capture (i : nat) (r : regex) (* the i-th parenthesised group *).

(** The text of a literal string as a regex; [r] follows it. *)
Fixpoint lits (s : string) (r : regex) : regex :=
  match s with
  | EmptyString => r
  | String c s' => Concat (Lit c) (lits s' r)
  end.

Definition newline : ascii := ascii_of_nat 10.

Section Matcher.
Context {R : Type}.

(** A continuation takes the rest of the input and the groups so far. *)
Definition cont := string -> list string -> option R.

(** Greedy iteration of [step]: one more round first, then the
    continuation. A round that consumes nothing is not repeated. *)
Fixpoint star_loop (step : string -> list string -> cont -> option R)
  (k : cont) (fuel : nat) (s : string) (caps : list string) : option R :=
  match fuel with
  | O => k s caps
  | S fuel' =>
      match step s caps (fun s' caps' =>
              if (String.length s' <? String.length s)%nat
              then star_loop step k fuel' s' caps' else None) with
      | Some x => Some x
      | None => k s caps
      end
  end.

Fixpoint m (r : regex) (s : string) (caps : list string) (k : cont)
  {struct r} : option R :=
  match r with
  | Lit c =>
      match s with
      | String c' s' => if Ascii.eqb c c' then k s' caps else None
      | EmptyString => None
      end
  | NotLit c =>
      match s with
      | String c' s' => if Ascii.eqb c c' then None else k s' caps
      | EmptyString => None
      end
  | AnyCharNotNL =>
      match s with
      | String c' s' => if Ascii.eqb newline c' then None else k s' caps
      | EmptyString => None
      end
  | Concat r1 r2 => m r1 s caps (fun s' caps' => m r2 s' caps' k)
  | Plus r1 =>
      m r1 s caps (fun s' caps' =>
        star_loop (m r1) k (String.length s') s' caps')
  | Star r1 => star_loop (m r1) k (String.length s) s caps
  | Capture i r1 =>
      m r1 s caps (fun s' caps' =>
        k s' (<[i := GoStrings.take (String.length s - String.length s') s]> caps'))
  end.
End Matcher.

(** A match of [r] starting at the head of [s], with [n] groups: the
    whole match at index 0, then the groups. *)
Definition match_here (n : nat) (r : regex) (s : string) : option (list string) :=
  m (Capture 0 r) s (replicate (S n) EmptyString) (fun _ caps => Some caps).

(** The leftmost match. *)
Fixpoint search (n : nat) (r : regex) (s : string) : option (list string) :=
  match match_here n r s with
  | Some caps => Some caps
  | None =>
      match s with
      | EmptyString => None
      | String _ s' => search n r s'
      end
  end.

(** [re.FindStringSubmatch(s)]: the match and its groups, [nil] when
    there is no match. *)
Definition FindStringSubmatch (n : nat) (r : regex) (s : string) : list string :=
  match search n r s with
  | Some caps => caps
  | None => []
  end.

End Regexp.

(** ** JSON as Go's [encoding/json] writes it *)

Module Json.

Local Open Scope Z_scope.

(** A JSON document. A number is kept by its value; only integers occur
    in the modelled fragment. *)
Inductive json :=
| JNull
| JBool (b : bool)
| JNumber (n : Z)
| JString (s : string)
| JArray (items : list json)
| JObject (members : list (string * json)).

(** The decimal text of an integer. *)
Definition decimal (n : Z) : string :=
  DecimalString.NilEmpty.string_of_int (Z.to_int n).

(** The integer nearest to [n >= 0] that a float64 holds (53 bits of
    mantissa, ties to the even mantissa), with no bound on the exponent. *)
Definition round_float64 (n : Z) : Z :=
  let bits := Z.log2 n + 1 in
  if bits <=? 53 then n
  else
    let sh := bits - 53 in
    let q := Z.shiftr n sh in
    let r := Z.land n (Z.ones sh) in
    let half := Z.shiftl 1 (sh - 1) in
    let q' := if (half <? r) || ((r =? half) && Z.odd q) then q + 1 else q in
    Z.shiftl q' sh.

(** 2^1024, the first value past the float64 range. *)
Definition float64_limit : Z := Z.shiftl 1 1024.

(** [strconv.ParseFloat(text, 64)] on the decimal text of the integer
    [n]: the float64 nearest to it, or a range error. *)
Definition ParseFloat (n : Z) : outcome Z :=
  let a := round_float64 (Z.abs n) in
  if float64_limit <=? a
  then Error (ErrMsg "value out of range")
  else Return (Z.sgn n * a).

(** The shortest decimal that reads back as the float64 [v > 0], by its
    number [k] of leading digits: of [v] cut after [k] digits and that
    plus one unit, whichever reads back as [v], the nearer one when both
    do (ties to the even digit). [d] is the number of digits of [v]. *)
Definition shortest_at (v : Z) (d k : nat) : option Z :=
  let scale := 10 ^ Z.of_nat (d - k)%nat in
  let lo := v / scale * scale in
  let hi := lo + scale in
  let okdown := round_float64 lo =? v in
  let okup := round_float64 hi =? v in
  let rem2 := 2 * (v - lo) in
  let up := (scale <? rem2) || ((rem2 =? scale) && Z.odd (lo / scale)) in
  match okdown, okup with
  | true, true => Some (if up then hi else lo)
  | true, false => Some lo
  | false, true => Some hi
  | false, false => None
  end.

Fixpoint shortest_from (v : Z) (d : nat) (fuel k : nat) : Z :=
  match fuel with
  | O => v
  | S fuel' =>
      match shortest_at v d k with
      | Some c => c
      | None => shortest_from v d fuel' (S k)
      end
  end.

Definition shortest (v : Z) : Z :=
  let d := String.length (decimal v) in
  shortest_from v d d 1.

(** [s] without its trailing zeros. *)
Definition strip_zeros (s : string) : string :=
  String.rev ((fix go (r : string) : string :=
     match r with
     | String c r' => if Ascii.eqb c "0" then go r' else r
     | EmptyString => EmptyString
     end) (String.rev s)).

(** The 'e' format of [strconv] for the digits [c]: one digit, the
    others after a point, and the exponent with at least two digits. *)
Definition exp_format (c : Z) : string :=
  let ds := decimal c in
  let e := (String.length ds - 1)%nat in
  let es := decimal (Z.of_nat e) in
  let mant := strip_zeros ds in
  match mant with
  | String d1 rest =>
      String d1 (match rest with EmptyString => "" | _ => "." ++ rest end)
      ++ "e+" ++ (if (e <? 10)%nat then "0" ++ es else es)
  | EmptyString => ds
  end.

(** The text of a float64 of integer value [v], as the float encoder of
    [encoding/json] writes it: format 'f' below 1e21 and 'e' from there
    on, both with the shortest digits that read back as [v]. *)
Definition float_text (v : Z) : string :=
  if v =? 0 then "0"
  else
    let a := Z.abs v in
    let c := shortest a in
    (if v <? 0 then "-" else "") ++
    (if a <? 10 ^ 21 then decimal c else exp_format c).

(** The double quote, byte 34. *)
Definition dquote : ascii := ascii_of_nat 34.

Definition hex_digit (n : N) : ascii :=
  match String.get (N.to_nat n) "0123456789abcdef" with
  | Some c => c
  | None => "0"%char
  end.

(** One byte of a string in a JSON string literal ([escapeHTML] is on
    in [json.Marshal]; the short escapes are those of Go 1.21). Bytes
    from 0x80 on are copied: the text is taken to be well-formed UTF-8
    without U+2028 and U+2029. *)
Definition escape_byte (c : ascii) : string :=
  let n := N_of_ascii c in
  if Ascii.eqb c dquote then String "\" (String dquote "")
  else if Ascii.eqb c "\" then "\\"
  else if N.eqb n 10 then "\n"
  else if N.eqb n 13 then "\r"
  else if N.eqb n 9 then "\t"
  else if N.ltb n 32 || Ascii.eqb c "<" || Ascii.eqb c ">" || Ascii.eqb c "&"
  then "\u00" ++ String (hex_digit (N.div n 16)) (String (hex_digit (N.modulo n 16)) "")
  else String c "".

Fixpoint escape (s : string) : string :=
  match s with
  | EmptyString => ""
  | String c s' => escape_byte c ++ escape s'
  end.

Definition quote (s : string) : string :=
  String dquote (escape s ++ String dquote "").

(** [sep] between the texts. *)
Fixpoint join (sep : string) (l : list string) : string :=
  match l with
  | [] => ""
  | [x] => x
  | x :: l' => x ++ sep ++ join sep l'
  end.

(** [json.Unmarshal] into an [interface{}]: every number becomes a
    float64, and a number out of its range is an error. The members of
    an object go into a Go map. *)
Fixpoint Unmarshal (j : json) : outcome json :=
  match j with
  | JNull => Return JNull
  | JBool b => Return (JBool b)
  | JNumber n => let! f := ParseFloat n in Return (JNumber f)
  | JString s => Return (JString s)
  | JArray items =>
      let! items' :=
        (fix go (l : list json) : outcome (list json) :=
           match l with
           | [] => Return []
           | x :: l' =>
               let! x' := Unmarshal x in
               let! r := go l' in Return (x' :: r)
           end) items in
      Return (JArray items')
  | JObject members =>
      let! members' :=
        (fix go (l : list (string * json)) : outcome (list (string * json)) :=
           match l with
           | [] => Return []
           | (k, x) :: l' =>
               let! x' := Unmarshal x in
               let! r := go l' in Return ((k, x') :: r)
           end) members in
      Return (JObject members')
  end.

(** [json.Marshal] of an [interface{}] holding float64 numbers; the
    members of an object are kept sorted by key. *)
Fixpoint Marshal (j : json) : string :=
  match j with
  | JNull => "null"
  | JBool b => if b then "true" else "false"
  | JNumber v => float_text v
  | JString s => quote s
  | JArray items => "[" ++ join "," (map Marshal items) ++ "]"
  | JObject members =>
      "{" ++ join "," (map (fun kv => (quote (fst kv) ++ ":" ++ Marshal (snd kv))%string) members) ++ "}"
  end.

End Json.

(** ** Values of the configuration language ([go-cty]) *)

Module Cty.
Import Json.

(** [cty.Value], for the values that literals of the language denote.
    A number is an integer; an object keeps its attributes sorted by
    name, one per name. *)
Inductive Value :=
| StringVal (s : string)
| NumberIntVal (n : Z)
| BoolVal (b : bool)
| NullVal                       (* cty.NullVal(cty.DynamicPseudoType) *)
| DynamicVal                    (* cty.DynamicVal: unknown, of unknown type *)
| UnknownStringVal              (* cty.UnknownVal(cty.String) *)
| TupleVal (vals : list Value)
| ObjectVal (attrs : list (string * Value)).

Definition True_ : Value := BoolVal true.
Definition False_ : Value := BoolVal false.

(** [val.AsString()]: panics unless the value is a known, non-null
    string. *)
Definition AsString (val : Value) : outcome string :=
  match val with
  | StringVal s => Return s
  | UnknownStringVal => Panic "value is not known"
  | _ => Panic "not a string"
  end.

Definition IsNull (val : Value) : bool :=
  match val with NullVal => true | _ => false end.

Definition IsKnown (val : Value) : bool :=
  match val with DynamicVal | UnknownStringVal => false | _ => true end.

(** The integer nearest to [n >= 0] that a [big.Float] of [prec] bits
    of mantissa holds (ties to the even mantissa). *)
Definition big_round (prec n : Z) : Z :=
  let bits := (Z.log2 n + 1)%Z in
  if (bits <=? prec)%Z then n
  else
    let sh := (bits - prec)%Z in
    let q := Z.shiftr n sh in
    let r := Z.land n (Z.ones sh) in
    let half := Z.shiftl 1 (sh - 1) in
    let q' := if (half <? r)%Z || ((r =? half)%Z && Z.odd q) then (q + 1)%Z else q in
    Z.shiftl q' sh.

(** The shortest decimal that reads back as the [big.Float] [v > 0] of
    [prec] bits, by its number [k] of leading digits, as in
    [Json.shortest_at]: of [v] cut after [k] digits and that plus one
    unit, whichever lies in the interval of the numbers that round to
    [v], the nearer one when both do. *)
Definition big_shortest_at (prec v : Z) (d k : nat) : option Z :=
  let scale := (10 ^ Z.of_nat (d - k)%nat)%Z in
  let lo := (v / scale * scale)%Z in
  let hi := (lo + scale)%Z in
  let okdown := (big_round prec lo =? v)%Z in
  let okup := (big_round prec hi =? v)%Z in
  let rem2 := (2 * (v - lo))%Z in
  let up := (scale <? rem2)%Z || ((rem2 =? scale)%Z && Z.odd (lo / scale)) in
  match okdown, okup with
  | true, true => Some (if up then hi else lo)
  | true, false => Some lo
  | false, true => Some hi
  | false, false => None
  end.

Fixpoint big_shortest_from (prec v : Z) (d : nat) (fuel k : nat) : Z :=
  match fuel with
  | O => v
  | S fuel' =>
      match big_shortest_at prec v d k with
      | Some c => c
      | None => big_shortest_from prec v d fuel' (S k)
      end
  end.

Definition big_shortest (prec v : Z) : Z :=
  let d := String.length (decimal v) in
  big_shortest_from prec v d d 1.

(** The bits of mantissa of a number that [cty.ParseNumberVal] read. *)
Definition number_prec : Z := 512.

(** The number that the text [val.AsBigFloat().Text('f', -1)] of the
    number [n] spells: the shortest decimal that reads back as [n] at its
    precision, which is [n] itself below 2^512. *)
Definition number_text (n : Z) : Z :=
  (Z.sgn n * big_shortest number_prec (big_round number_prec (Z.abs n)))%Z.

(** [convert.Convert(val, cty.String)] for a non-null value: a string
    is itself, a number its decimal text, a bool its keyword, an unknown
    value an unknown string; a tuple or an object does not convert. *)
Definition ConvertToString (val : Value) : option Value :=
  match val with
  | StringVal s => Some (StringVal s)
  | NumberIntVal n => Some (StringVal (decimal (number_text n)))
  | BoolVal b => Some (StringVal (if b then "true" else "false"))
  | DynamicVal | UnknownStringVal => Some UnknownStringVal
  | NullVal => Some NullVal
  | TupleVal _ | ObjectVal _ => None
  end.

(** [vals[name] = val] on the attributes of an object under
    construction, kept sorted by name. *)
Fixpoint set_attr (name : string) (val : Value) (attrs : list (string * Value))
  : list (string * Value) :=
  match attrs with
  | [] => [(name, val)]
  | (k, v) :: rest =>
      match String.compare name k with
      | Lt => (name, val) :: attrs
      | Eq => (name, val) :: rest
      | Gt => (k, v) :: set_attr name val rest
      end
  end.

(** The [value] member of what [ctyjson.Marshal(val, cty.DynamicPseudoType)]
    writes, a number by the text of its [big.Float]; an unknown value
    anywhere is an error. A null value is written as a bare [null], which
    decodes to the same. *)
Fixpoint ctyjson_Marshal (val : Value) : outcome json :=
  match val with
  | StringVal s => Return (JString s)
  | NumberIntVal n => Return (JNumber (number_text n))
  | BoolVal b => Return (JBool b)
  | NullVal => Return JNull
  | DynamicVal | UnknownStringVal => Error (ErrMsg "value is not known")
  | TupleVal vals =>
      let! items :=
        (fix go (l : list Value) : outcome (list json) :=
           match l with
           | [] => Return []
           | x :: l' =>
               let! x' := ctyjson_Marshal x in
               let! r := go l' in Return (x' :: r)
           end) vals in
      Return (JArray items)
  | ObjectVal attrs =>
      let! members :=
        (fix go (l : list (string * Value)) : outcome (list (string * json)) :=
           match l with
           | [] => Return []
           | (k, x) :: l' =>
               let! x' := ctyjson_Marshal x in
               let! r := go l' in Return ((k, x') :: r)
           end) attrs in
      Return (JObject members)
  end.

End Cty.

(** ** Expressions of the configuration language ([hcl/v2/hclsyntax])

    The expression forms that attribute values of variable blocks are
    written with, their [Variables()] and their [Value(ctx)] in the empty
    evaluation context [&hcl.EvalContext{}] that [listInputs] passes. *)

Module Hcl.
Import Cty.

Inductive Traverser :=
| TraverseRoot (Name : string)
| TraverseAttr (Name : string)
| TraverseIndex (Key : Value)
| TraverseSplat.

Definition Traversal := list Traverser.

(** A scope traversal is absolute: it starts at a root name. An item of
    an object constructor has its key in an [ObjectConsKeyExpr], given
    here by the wrapper's [ForceNonLiteral] and the wrapped expression. *)
Inductive Expression :=
| LiteralValueExpr (Val : Value)
| TemplateExpr (Parts : list Expression)
| TemplateWrapExpr (Wrapped : Expression)
| ScopeTraversalExpr (RootName : string) (steps : list Traverser)
| TupleConsExpr (Exprs : list Expression)
| ObjectConsExpr (Items : list (bool * Expression * Expression))
| FunctionCallExpr (Name : string) (Args : list Expression).

(** [e.Traversal] of a [ScopeTraversalExpr]. *)
Definition traversal_of (root : string) (steps : list Traverser) : Traversal :=
  TraverseRoot root :: steps.

(** An absolute traversal: it starts at a root name. *)
Definition rooted (t : Traversal) : Prop :=
  exists root steps, t = TraverseRoot root :: steps.

(** [ObjectConsKeyExpr.literalName()]: a key that is a bare name stands
    for that name, unless the wrapper forces an expression. *)
Definition literalName (ForceNonLiteral : bool) (Wrapped : Expression) : string :=
  if ForceNonLiteral then ""
  else match Wrapped with
       | ScopeTraversalExpr root [] => root
       | _ => ""
       end.

(** [e.Variables()]: the traversals of the scope traversals in [e], in
    the order of the walk over its children. *)
Fixpoint Variables (e : Expression) : list Traversal :=
  match e with
  | LiteralValueExpr _ => []
  | TemplateExpr parts => flat_map Variables parts
  | TemplateWrapExpr w => Variables w
  | ScopeTraversalExpr root steps => [traversal_of root steps]
  | TupleConsExpr exprs => flat_map Variables exprs
  | ObjectConsExpr items =>
      flat_map (fun item =>
                  match item with
                  | (force, key, val) =>
                      (if String.eqb (literalName force key) "" then Variables key else [])
                      ++ Variables val
                  end) items
  | FunctionCallExpr _ args => flat_map Variables args
  end.

Definition diag (summary detail : string) : Diagnostic :=
  mkDiagnostic DiagError summary detail.

(** [diags.HasErrors()]. *)
Definition HasErrors (diags : list Diagnostic) : bool :=
  existsb (fun d => match diag_severity d with DiagError => true | DiagWarning => false end) diags.

(** One round of the loop of [TemplateExpr.Value] over the value and
    the diagnostics of a part; the state is the buffer, [isKnown] and the
    diagnostics so far. *)
Definition template_part (st : string * bool * list Diagnostic)
  (part : Value * list Diagnostic) : string * bool * list Diagnostic :=
  match st, part with
  | (buf, isKnown, diags), (partVal, partDiags) =>
      let diags := diags ++ partDiags in
      if IsNull partVal then
        (buf, isKnown,
         diags ++ [diag "Invalid template interpolation value"
                     "The expression result is null. Cannot include a null value in a string template."])
      else if negb (IsKnown partVal) then (buf, false, diags)
      else match ConvertToString partVal with
           | Some (StringVal s) => ((buf ++ s)%string, isKnown, diags)
           | _ =>
               (buf, isKnown,
                diags ++ [diag "Invalid template interpolation value"
                            "Cannot include the given value in a string template: string required."])
           end
  end.

(** One round of the loop of [ObjectConsExpr.Value] over the values and
    diagnostics of a key and of its value; the state is the attributes,
    [known] and the diagnostics so far. *)
Definition object_item (st : list (string * Value) * bool * list Diagnostic)
  (item : (Value * list Diagnostic) * (Value * list Diagnostic))
  : list (string * Value) * bool * list Diagnostic :=
  match st, item with
  | (vals, known, diags), ((key, keyDiags), (val, valDiags)) =>
      let diags := (diags ++ keyDiags) ++ valDiags in
      if HasErrors keyDiags then (vals, known, diags)
      else if IsNull key then
        (vals, false, diags ++ [diag "Null value as key" "Can't use a null value as a key."])
      else match ConvertToString key with
           | None =>
               (vals, false,
                diags ++ [diag "Incorrect key type" "Can't use this value as a key: string required."])
           | Some (StringVal name) => (set_attr name val vals, known, diags)
           | Some _ => (vals, false, diags)
           end
  end.

(** [ObjectConsKeyExpr.Value] before it turns to the wrapped
    expression: a bare traversal of several steps is refused, a bare
    name is the string of that name. *)
Definition key_shortcut (ForceNonLiteral : bool) (Wrapped : Expression)
  : option (Value * list Diagnostic) :=
  if ForceNonLiteral then None
  else match Wrapped with
       | ScopeTraversalExpr _ (_ :: _) =>
           Some (DynamicVal,
                 [diag "Ambiguous attribute key"
                    "If this expression is intended to be a reference, wrap it in parentheses. If it's instead intended as a literal name containing periods, wrap it in quotes to create a string literal."])
       | _ =>
           if String.eqb (literalName ForceNonLiteral Wrapped) "" then None
           else Some (StringVal (literalName ForceNonLiteral Wrapped), [])
       end.

(** [e.Value(&hcl.EvalContext{})]: the value and the diagnostics. The
    context has no variables and no functions, so a scope traversal and
    a function call are errors, with [cty.DynamicVal] as the value. *)
Fixpoint Value (e : Expression) : Cty.Value * list Diagnostic :=
  match e with
  | LiteralValueExpr v => (v, [])
  | TemplateExpr parts =>
      match fold_left template_part (map Value parts) ("", true, []) with
      | (buf, isKnown, diags) =>
          (if isKnown then StringVal buf else UnknownStringVal, diags)
      end
  | TemplateWrapExpr w => Value w
  | ScopeTraversalExpr _ _ =>
      (DynamicVal, [diag "Variables not allowed" "Variables may not be used here."])
  | TupleConsExpr exprs =>
      let rs := map Value exprs in
      (TupleVal (map fst rs), flat_map snd rs)
  | ObjectConsExpr items =>
      let rs := map (fun item =>
                       match item with
                       | (force, key, val) =>
                           (match key_shortcut force key with
                            | Some r => r
                            | None => Value key
                            end,
                            Value val)
                       end) items in
      match fold_left object_item rs ([], true, []) with
      | (vals, known, diags) =>
          (if known then ObjectVal vals else DynamicVal, diags)
      end
  | FunctionCallExpr _ _ =>
      (DynamicVal, [diag "Function calls not allowed" "Functions may not be called here."])
  end.

(** A literal of the language: a number, a bool, [null], a quoted
    string without interpolation (a template of literal strings), a
    list of literals, or an object whose keys are bare names or quoted
    strings and whose values are literals. *)
Definition is_primitive (v : Cty.Value) : bool :=
  match v with
  | StringVal _ | NumberIntVal _ | BoolVal _ | NullVal => true
  | _ => false
  end.

Definition is_string_part (e : Expression) : bool :=
  match e with
  | LiteralValueExpr (StringVal _) => true
  | _ => false
  end.

Definition is_literal_key (ForceNonLiteral : bool) (key : Expression) : bool :=
  negb ForceNonLiteral &&
  match key with
  | ScopeTraversalExpr root [] => negb (String.eqb root "")
  | TemplateExpr parts => forallb is_string_part parts
  | _ => false
  end.

Fixpoint is_literal (e : Expression) : bool :=
  match e with
  | LiteralValueExpr v => is_primitive v
  | TemplateExpr parts => forallb is_string_part parts
  | TupleConsExpr exprs => forallb is_literal exprs
  | ObjectConsExpr items =>
      forallb (fun item =>
                 match item with
                 | (force, key, val) => is_literal_key force key && is_literal val
                 end) items
  | _ => false
  end.

(** An expression with a function call in it. *)
Fixpoint contains_call (e : Expression) : bool :=
  match e with
  | LiteralValueExpr _ | ScopeTraversalExpr _ _ => false
  | TemplateExpr parts => existsb contains_call parts
  | TemplateWrapExpr w => contains_call w
  | TupleConsExpr exprs => existsb contains_call exprs
  | ObjectConsExpr items =>
      existsb (fun item =>
                 match item with
                 | (_, key, val) => contains_call key || contains_call val
                 end) items
  | FunctionCallExpr _ _ => true
  end.

(** [hclsyntax.Attribute]; [Expr] may be nil. *)
Record Attribute := mkAttribute {
  attr_Name : string;
  Expr : option Expression
}.

(** [hclsyntax.Body] and [hclsyntax.Block]. *)
Inductive Body :=
| mkBody (Attributes : gmap string Attribute) (Blocks : list Block)
with Block :=
| mkBlock (Type_ : string) (Labels : list string) (Body_ : Body).

Definition Attributes (b : Body) : gmap string Attribute :=
  match b with mkBody attrs _ => attrs end.
Definition Blocks (b : Body) : list Block :=
  match b with mkBody _ blocks => blocks end.
Definition Type_ (b : Block) : string :=
  match b with mkBlock t _ _ => t end.
Definition Labels (b : Block) : list string :=
  match b with mkBlock _ l _ => l end.
Definition Body_ (b : Block) : Body :=
  match b with mkBlock _ _ body => body end.

End Hcl.

(** ** Query strings of [net/url] *)

Module Url.

(** The fields of [url.URL] that the command reads or writes. *)
Record URL := mkURL {
  Scheme : string;
  Host : string;
  Path : string;
  RawQuery : string
}.

(** [url.Values], a map from a key to its values in the order they were
    added; the keys are kept sorted, the order in which [Encode] writes
    them. *)
Definition Values := list (string * list string).

(** [v.Get(key)]: the first value of [key], empty when there is none. *)
Fixpoint Get (v : Values) (key : string) : string :=
  match v with
  | [] => ""
  | (k, vs) :: rest =>
      if String.eqb k key
      then match vs with x :: _ => x | [] => "" end
      else Get rest key
  end.

(** [v.Has(key)]: whether [key] is set. *)
Fixpoint Has (v : Values) (key : string) : bool :=
  match v with
  | [] => false
  | (k, _) :: rest => String.eqb k key || Has rest key
  end.

(** [v.Add(key, value)]: appends [value] to the values of [key]. *)
Fixpoint Add (v : Values) (key value : string) : Values :=
  match v with
  | [] => [(key, [value])]
  | (k, vs) :: rest =>
      match String.compare key k with
      | Lt => (key, [value]) :: v
      | Eq => (k, vs ++ [value]) :: rest
      | Gt => (k, vs) :: Add rest key value
      end
  end.

Definition is_alnum (c : ascii) : bool :=
  let n := N_of_ascii c in
  ((97 <=? n) && (n <=? 122) || (65 <=? n) && (n <=? 90) || (48 <=? n) && (n <=? 57))%N.

(** [shouldEscape(c, encodeQueryComponent)]. *)
Definition shouldEscape (c : ascii) : bool :=
  negb (is_alnum c || Ascii.eqb c "-" || Ascii.eqb c "_" || Ascii.eqb c "."
        || Ascii.eqb c "~").

Definition upperhex (n : N) : ascii :=
  match String.get (N.to_nat n) "0123456789ABCDEF" with
  | Some c => c
  | None => "0"%char
  end.

(** [url.QueryEscape(s)]. *)
Fixpoint QueryEscape (s : string) : string :=
  match s with
  | EmptyString => ""
  | String c s' =>
      (if Ascii.eqb c " " then "+"
       else if shouldEscape c
            then String "%" (String (upperhex (N.div (N_of_ascii c) 16))
                               (String (upperhex (N.modulo (N_of_ascii c) 16)) ""))
            else String c "") ++ QueryEscape s'
  end.

(** [unhex(c)], for a hexadecimal digit. *)
Definition unhex (c : ascii) : option N :=
  let n := N_of_ascii c in
  if ((48 <=? n) && (n <=? 57))%N then Some (n - 48)%N
  else if ((97 <=? n) && (n <=? 102))%N then Some (n - 97 + 10)%N
  else if ((65 <=? n) && (n <=? 70))%N then Some (n - 65 + 10)%N
  else None.

(** [url.QueryUnescape(s)]: [None] for a percent sign that two
    hexadecimal digits do not follow. *)
Fixpoint QueryUnescape (s : string) : option string :=
  match s with
  | EmptyString => Some ""
  | String c s' =>
      if Ascii.eqb c "%" then
        match s' with
        | String h (String l s'') =>
            match unhex h, unhex l, QueryUnescape s'' with
            | Some a, Some b, Some r => Some (String (ascii_of_N (a * 16 + b)) r)
            | _, _, _ => None
            end
        | _ => None
        end
      else
        match QueryUnescape s' with
        | Some r => Some (String (if Ascii.eqb c "+" then " "%char else c) r)
        | None => None
        end
  end.

(** [strings.Cut(s, sep)] for a separator of one byte: the text before
    the first [sep] and the text after it, all of [s] and nothing when
    there is none. *)
Fixpoint Cut (s : string) (sep : ascii) : string * string :=
  match s with
  | EmptyString => ("", "")
  | String c s' =>
      if Ascii.eqb c sep then ("", s')
      else let (a, b) := Cut s' sep in (String c a, b)
  end.

Fixpoint contains_byte (s : string) (c : ascii) : bool :=
  match s with
  | EmptyString => false
  | String c' s' => Ascii.eqb c c' || contains_byte s' c
  end.

(** One round of the loop of [parseQuery] over a piece between two
    ampersands; a piece that is malformed is passed over. *)
Definition parse_pair (m : Values) (piece : string) : Values :=
  if contains_byte piece ";" then m
  else if String.eqb piece "" then m
  else let (key, value) := Cut piece "="%char in
       match QueryUnescape key with
       | None => m
       | Some key' =>
           match QueryUnescape value with
           | None => m
           | Some value' => Add m key' value'
           end
       end.

(** [u.Query()]: [ParseQuery(u.RawQuery)] with its error dropped. *)
Definition ParseQuery (query : string) : Values :=
  fold_left parse_pair (GoStrings.Split query "&") [].

Definition Query (u : URL) : Values := ParseQuery (RawQuery u).

(** [v.Encode()]: [key=value] for every value of every key, by sorted
    key, with ampersands between. *)
Definition Encode (v : Values) : string :=
  Json.join "&"
    (flat_map (fun kv => map (fun x => (QueryEscape (fst kv) ++ "=" ++ QueryEscape x)%string)
                            (snd kv)) v).

End Url.

(** ** The scaffold command ([cli/commands/scaffold/action.go]) *)

Module Scaffold.
Import GoStrings Regexp Json Cty Url.

Definition SourceUrlTypeHttps : string := "git-https".
Definition SourceUrlTypeGit : string := "git-ssh".
Definition SourceGitSshUser : string := "git".

(** ParsedInput structure with input name, default value and
    description. *)
Record ParsedInput := mkParsedInput {
  Name : string;
  Description : string;
  Type_ : string;
  DefaultValue : string
}.

#[export] Instance ParsedInput_eq_dec : EqDecision ParsedInput.
Proof. solve_decision. Defined.

(** *** The source locator *)

(** A value of the variable map [vars] that the caller supplied; the
    map is [map[string]interface{}]. *)
Inductive VarValue :=
| VarString (s : string)
| VarInt (n : Z)
| VarBool (b : bool).

(** [fmt.Sprintf("%s", value)]. *)
Definition Sprintf_s (value : VarValue) : string :=
  match value with
  | VarString s => s
  | VarInt n => "%!s(int=" ++ decimal n ++ ")"
  | VarBool b => "%!s(bool=" ++ (if b then "true" else "false") ++ ")"
  end.

(** The pattern of [parseUrl], compiled: the text [git::], the group
    [[^:]+], the text [://], the group [[^/]+], and a third group, a
    slash followed by [.] any number of times. *)
Definition pattern : regex :=
  lits "git::"
    (Concat (Capture 1 (Plus (NotLit ":")))
       (lits "://"
          (Concat (Capture 2 (Plus (NotLit "/")))
             (Capture 3 (Concat (Lit "/") (Star AnyCharNotNL)))))).

(** [parseUrl(opts, moduleUrl)]: scheme, host and path, all empty when
    the pattern does not match. *)
Definition parseUrl (moduleUrl : string) : string * string * string :=
  let matches := FindStringSubmatch 3 pattern moduleUrl in
  if negb (Nat.eqb (List.length matches) 4) then ("", "", "")
  else (nth 1 matches "", nth 2 matches "", nth 3 matches "").

(** The step of [Run] under its comment "prepare source url": the
    locator that goes into [vars["sourceUrl"]]. *)
Definition Run_prepare_source_url (vars : gmap string VarValue)
  (moduleUrl : string) : string :=
  let sourceUrlType :=
    match vars !! "SourceUrlType" with
    | Some value => Sprintf_s value
    | None => SourceUrlTypeHttps
    end in
  match parseUrl moduleUrl with
  | (scheme, host, path) =>
      if negb (String.eqb scheme "") then
        if String.eqb scheme SourceUrlTypeHttps && String.eqb sourceUrlType SourceUrlTypeGit
        then
          let gitUser :=
            match vars !! "SourceGitSshUser" with
            | Some value => Sprintf_s value
            | None => SourceGitSshUser
            end in
          let path := if HasPrefix path "/" then drop 1 path else path in
          gitUser ++ "@" ++ host ++ ":" ++ path
        else moduleUrl
      else moduleUrl
  end.

(** *** The version reference *)

Section Ref.

(** [terraform.SplitSourceUrl(parsedModuleUrl, logger)], of the
    package [terraform] of this repository: the root locator of a
    module locator, or an error. *)
Variable SplitSourceUrl : URL -> outcome URL.

(** [os.Getenv("GITHUB_OAUTH_TOKEN")]. *)
Variable GITHUB_OAUTH_TOKEN : string.

(** [client.Repositories.GetLatestRelease(ctx, owner, repo)] of a
    client that holds the token, followed by [release.GetTagName()]. *)
Variable GetLatestRelease : string -> string -> string -> outcome string.

(** A call of the release lookup: owner and repository. *)
Definition Lookup : Type := string * string.

(** [getLatestReleaseTag(parsedURL)], with the lookups it makes. *)
Definition getLatestReleaseTag (parsedURL : URL) : list Lookup * outcome string :=
  let pathParts := Split (Path parsedURL) "/" in
  if (List.length pathParts <? 2)%nat
  then ([], Error (ErrMsg "invalid repository URL"))
  else
    match pathParts !! 1%nat with
    | None => ([], Panic "index out of range [1]")
    | Some owner =>
        match pathParts !! 2%nat with
        | None => ([], Panic "index out of range [2] with length 2")
        | Some repo =>
            let repo := TrimSuffix repo ".git" in
            ([(owner, repo)], GetLatestRelease GITHUB_OAUTH_TOKEN owner repo)
        end
    end.

(** The step of [Run] from [params := parsedModuleUrl.Query()] to the
    end of [if ref == ""]: the locator with its version reference,
    and the lookups made. *)
Definition Run_resolve_ref (parsedModuleUrl : URL) : list Lookup * outcome URL :=
  let params := Query parsedModuleUrl in
  let ref := Get params "ref" in
  if String.eqb ref "" then
    match SplitSourceUrl parsedModuleUrl with
    | Error err => ([], Error (ErrWithStackTrace err))
    | Panic msg => ([], Panic msg)
    | Return rootSourceUrl =>
        match getLatestReleaseTag rootSourceUrl with
        | (lookups, Return tag) =>
            let params := Add params "ref" tag in
            (lookups,
             Return (mkURL (Scheme parsedModuleUrl) (Host parsedModuleUrl)
                       (Path parsedModuleUrl) (Encode params)))
        | (lookups, Error _) => (lookups, Return parsedModuleUrl)
        | (lookups, Panic msg) => (lookups, Panic msg)
        end
    end
  else ([], Return parsedModuleUrl).

End Ref.

(** *** Required and optional inputs *)

(** The loop of [Run] under its comment "separate inputs that require
    value and with default value", from the two slices so far. *)
Fixpoint separate_inputs (inputs : list ParsedInput)
  (parsedRequiredInputs parsedOptionalInputs : list ParsedInput)
  : list ParsedInput * list ParsedInput :=
  match inputs with
  | [] => (parsedRequiredInputs, parsedOptionalInputs)
  | value :: rest =>
      if String.eqb (DefaultValue value) ""
      then separate_inputs rest (parsedRequiredInputs ++ [value]) parsedOptionalInputs
      else separate_inputs rest parsedRequiredInputs (parsedOptionalInputs ++ [value])
  end.

Definition Run_separate_inputs (inputs : list ParsedInput)
  : list ParsedInput * list ParsedInput :=
  separate_inputs inputs [] [].

(** [IsRequired] of the data model. *)
Definition IsRequired (input : ParsedInput) : bool :=
  String.eqb (DefaultValue input) "".

(** *** Attributes of a block *)

(** [readBlockAttribute(ctx, block, name)] with the empty context:
    [Return None] is the nil value with a nil error. *)
Definition readBlockAttribute (block : Hcl.Block) (name : string)
  : outcome (option Value) :=
  match Hcl.Attributes (Hcl.Body_ block) !! name with
  | Some attr =>
      match Hcl.Expr attr with
      | Some expr =>
          let evaluate :=
            match Hcl.Value expr with
            | (value, []) => Return (Some value)
            | (_, err) => Error (ErrDiags err)
            end in
          (* check if first var is traversal *)
          match Hcl.Variables expr with
          | v :: _ =>
              (* check if variable is traversal *)
              match v with
              | [] => Panic "index out of range [0] with length 0"
              | Hcl.TraverseRoot varTrName :: _ => Return (Some (StringVal varTrName))
              | _ => evaluate
              end
          | [] => evaluate
          end
      | None => Return None
      end
  | None => Return None
  end.

(** An attribute read the way [listInputs] reads it: an error is logged
    and the attribute counts as absent. *)
Definition read_or_nil (block : Hcl.Block) (name : string) : outcome (option Value) :=
  match readBlockAttribute block name with
  | Error _ => Return None
  | r => r
  end.

(** The text of [description] or of [type]: the string of the value,
    the placeholder when there is none. *)
Definition attr_text (attr : option Value) (placeholder : string) : outcome string :=
  match attr with
  | Some val => AsString val
  | None => Return placeholder
  end.

(** The text of [default]: the JSON of the [Value] member of what
    [ctyjson.Marshal] wrote, read back by [json.Unmarshal]; empty when
    there is no default. An error of one of the three calls is returned
    with its stack trace. *)
Definition default_text (defaultValue : option Value) : outcome string :=
  match defaultValue with
  | Some val =>
      match ctyjson_Marshal val with
      | Error err => Error (ErrWithStackTrace err)
      | Panic msg => Panic msg
      | Return jsonBytes =>
          match Unmarshal jsonBytes with
          | Error err => Error (ErrWithStackTrace err)
          | Panic msg => Panic msg
          | Return ctyJsonOutput => Return (Marshal ctyJsonOutput)
          end
      end
  | None => Return ""
  end.

(** The body of the loop of [listInputs] over the blocks of a file:
    the input of a variable block, [None] for a block that is passed
    over. *)
Definition listInputs_block (block : Hcl.Block) : outcome (option ParsedInput) :=
  if String.eqb (Hcl.Type_ block) "variable" then
    match Hcl.Labels block with
    | [] => Panic "index out of range [0] with length 0"
    | name :: _ =>
        if (0 <? String.length name)%nat then
          let! descriptionAttr := read_or_nil block "description" in
          let! descriptionAttrText :=
            attr_text descriptionAttr ("No description for " ++ name) in
          let! typeAttr := read_or_nil block "type" in
          let! typeAttrText := attr_text typeAttr ("No type for " ++ name) in
          let! defaultValue := read_or_nil block "default" in
          let! defaultValueText := default_text defaultValue in
          Return (Some (mkParsedInput name descriptionAttrText typeAttrText
                          defaultValueText))
        else Return None
    end
  else Return None.

(** The loop over the blocks of a body, from the inputs so far. *)
Fixpoint listInputs_blocks (blocks : list Hcl.Block) (parsedInputs : list ParsedInput)
  : outcome (list ParsedInput) :=
  match blocks with
  | [] => Return parsedInputs
  | block :: rest =>
      let! input := listInputs_block block in
      listInputs_blocks rest
        (match input with
         | Some i => parsedInputs ++ [i]
         | None => parsedInputs
         end)
  end.

(** *** The files of a directory *)

(** What [filepath.Walk] finds at a path: a file (anything that is not
    a directory), a directory with its entries in the order of their
    names, a directory whose entries cannot be read, or a name whose
    [Lstat] fails. *)
Inductive Node :=
| NFile (name : string)
| NDir (name : string) (entries : list Node)
| NDirUnreadable (name : string) (err : error)
| NLstatError (name : string) (err : error).

Definition node_name (n : Node) : string :=
  match n with
  | NFile name | NDir name _ | NDirUnreadable name _ | NLstatError name _ => name
  end.

(** [filepath.Walk] with the function of [listTerraformFiles], from the
    node at [path] and the files so far: the function returns every
    error it is given, which ends the walk. *)
Fixpoint walk (path : string) (n : Node) (tfFiles : list string)
  : list string * option error :=
  match n with
  | NFile _ =>
      (if String.eqb (Ext path) ".tf" then tfFiles ++ [path] else tfFiles, None)
  | NDir _ entries =>
      (fix go (l : list Node) (tfFiles : list string) : list string * option error :=
         match l with
         | [] => (tfFiles, None)
         | c :: l' =>
             match walk (Join path (node_name c)) c tfFiles with
             | (tfFiles', None) => go l' tfFiles'
             | (tfFiles', Some err) => (tfFiles', Some err)
             end
         end) entries tfFiles
  | NDirUnreadable _ err => (tfFiles, Some err)
  | NLstatError _ err => (tfFiles, Some err)
  end.

(** listTerraformFiles returns a list of all TF files in the specified
    directory; [fs] is what the file system holds there. *)
Definition listTerraformFiles (fs : Node) (directoryPath : string)
  : list string * option error :=
  walk directoryPath fs [].

Section Extraction.

(** [os.ReadFile(tfFile)]: the content, [None] for an error. *)
Variable ReadFile : string -> option string.

(** [parser.ParseHCL(content, tfFile)]: the body of the file and the
    diagnostics. *)
Variable ParseHCL : string -> string -> Hcl.Body * list Diagnostic.

(** The loop of [listInputs] over the files, from the inputs so far. *)
Fixpoint listInputs_files (tfFiles : list string) (parsedInputs : list ParsedInput)
  : outcome (list ParsedInput) :=
  match tfFiles with
  | [] => Return parsedInputs
  | tfFile :: rest =>
      match ReadFile tfFile with
      | None => listInputs_files rest parsedInputs
      | Some content =>
          match ParseHCL content tfFile with
          | (body, diags) =>
              if Hcl.HasErrors diags then listInputs_files rest parsedInputs
              else
                let! parsedInputs' :=
                  listInputs_blocks (Hcl.Blocks body) parsedInputs in
                listInputs_files rest parsedInputs'
          end
      end
  end.

(** [listInputs(opts, directoryPath)]. *)
Definition listInputs (fs : Node) (directoryPath : string)
  : outcome (list ParsedInput) :=
  match listTerraformFiles fs directoryPath with
  | (_, Some err) => Error (ErrWithStackTrace err)
  | (tfFiles, None) => listInputs_files tfFiles []
  end.

(** The blocks that a file contributes: those of its body when it
    is read and parsed without errors, none otherwise. *)
Definition blocks_of_file (tfFile : string) : list Hcl.Block :=
  match ReadFile tfFile with
  | None => []
  | Some content =>
      match ParseHCL content tfFile with
      | (body, diags) => if Hcl.HasErrors diags then [] else Hcl.Blocks body
      end
  end.


End Extraction.

(** The block has the attribute [name] with the expression [expr]. *)
Definition has_attribute (block : Hcl.Block) (name : string) (expr : Hcl.Expression)
  : Prop :=
  exists attr, Hcl.Attributes (Hcl.Body_ block) !! name = Some attr
               /\ Hcl.Expr attr = Some expr.

(** A block is reached by [listInputs] when it stands in a file of the
    walk that is read and parsed without errors. *)
Definition reached (ReadFile : string -> option string)
  (ParseHCL : string -> string -> Hcl.Body * list Diagnostic)
  (fs : Node) (directoryPath : string) (block : Hcl.Block) : Prop :=
  exists tfFiles f content body diags,
    listTerraformFiles fs directoryPath = (tfFiles, None)
    /\ In f tfFiles /\ ReadFile f = Some content
    /\ ParseHCL content f = (body, diags) /\ Hcl.HasErrors diags = false
    /\ In block (Hcl.Blocks body).

End Scaffold.

(** ** Sample inputs *)

Module Samples.
Import Cty Hcl Url Scaffold.

(** A variable block with one label and the given attributes. *)
Definition variable_block (name : string) (attrs : list (string * Expression)) : Block :=
  mkBlock "variable" [name]
    (mkBody (list_to_map (map (fun kv => (fst kv, mkAttribute (fst kv) (Some (snd kv)))) attrs))
       []).

(** [variable X {}] *)
Definition variable_X : Block := variable_block "X" [].
(** [variable X { default = 5 }] *)
Definition variable_default_5 : Block :=
  variable_block "X" [("default", LiteralValueExpr (NumberIntVal 5))].
(** [variable X { default = "a" }] *)
Definition variable_default_a : Block :=
  variable_block "X" [("default", TemplateExpr [LiteralValueExpr (StringVal "a")])].
(** [variable X { default = true }] *)
Definition variable_default_true : Block :=
  variable_block "X" [("default", LiteralValueExpr (BoolVal true))].
(** [variable big { default = 1e400 }] *)
Definition variable_default_huge : Block :=
  variable_block "big" [("default", LiteralValueExpr (NumberIntVal (10 ^ 400)))].
(** [variable X { description = 5 }] *)
Definition variable_description_5 : Block :=
  variable_block "X" [("description", LiteralValueExpr (NumberIntVal 5))].
(** [variable X { type = true }] *)
Definition variable_type_true : Block :=
  variable_block "X" [("type", LiteralValueExpr (BoolVal true))].
(** [variable X { type = list(string) }] *)
Definition list_of_string : Expression :=
  FunctionCallExpr "list" [ScopeTraversalExpr "string" []].
Definition variable_type_list : Block := variable_block "X" [("type", list_of_string)].
(** [variable X { default = [a, b] }] *)
Definition tuple_a_b : Expression :=
  TupleConsExpr [ScopeTraversalExpr "a" []; ScopeTraversalExpr "b" []].
Definition variable_default_a_b : Block := variable_block "X" [("default", tuple_a_b)].
(** [variable X { default = var.region }] *)
Definition var_region : Expression := ScopeTraversalExpr "var" [TraverseAttr "region"].
Definition variable_default_var : Block := variable_block "X" [("default", var_region)].
(** [variable {}] *)
Definition variable_unlabelled : Block := mkBlock "variable" [] (mkBody ∅ []).
(** [variable instance_count {}] and [variable region { default = "us-east-1" }] *)
Definition variable_instance_count : Block := variable_block "instance_count" [].
Definition variable_region : Block :=
  variable_block "region"
    [("default", TemplateExpr [LiteralValueExpr (StringVal "us-east-1")])].

(** A module directory: two declaration files, one file that cannot be
    read, one that does not parse, and a file that is no declaration
    file. *)
Definition module_dir : Node :=
  NDir "scaffold"
    [NFile "README.md"; NFile "broken.tf"; NFile "main.tf";
     NDir "modules" [NFile "extra.tf"]; NFile "secret.tf"].

Definition ReadFile (tfFile : string) : option string :=
  if String.eqb tfFile "/tmp/scaffold/main.tf" then Some "main"
  else if String.eqb tfFile "/tmp/scaffold/modules/extra.tf" then Some "extra"
  else if String.eqb tfFile "/tmp/scaffold/broken.tf" then Some "variable {"
  else None.

Definition ParseHCL (content tfFile : string) : Body * list Diagnostic :=
  if String.eqb content "main"
  then (mkBody ∅ [variable_instance_count; mkBlock "locals" [] (mkBody ∅ []); variable_X], [])
  else if String.eqb content "extra" then (mkBody ∅ [variable_region], [])
  else (mkBody ∅ [],
        [diag "Unclosed configuration block"
           "There is no closing brace for this block before the end of the file."]).

(** A directory with one file, which holds the given blocks. *)
Definition single_dir : Node := NDir "scaffold" [NFile "main.tf"].
Definition read_any (tfFile : string) : option string := Some "main".
Definition parse_as (blocks : list Block) (content tfFile : string)
  : Body * list Diagnostic :=
  (mkBody ∅ blocks, []).

(** A directory with a subdirectory that cannot be listed. *)
Definition locked_dir : Node :=
  NDir "scaffold" [NFile "main.tf"; NDirUnreadable "private" (ErrMsg "permission denied")].

Definition locator_no_ref : URL := mkURL "https" "github.com" "/org/repo" "depth=1".
Definition locator_with_ref : URL := mkURL "https" "github.com" "/org/repo" "ref=v0.9".
Definition split_root (u : URL) : outcome URL := Return u.
Definition latest_v1_2_3 (token owner repo : string) : outcome string := Return "v1.2.3".

End Samples.

(** ** Notions used in the further properties *)

Module Notions.
Import GoStrings Cty Url Scaffold.

(** The byte [c] does not occur in [s]. *)
Definition without (c : ascii) (s : string) : Prop := contains_byte s c = false.

(** The locator that [parseUrl] takes apart: the marker, a scheme, a
    host and a path. *)
Definition git_locator (scheme host path : string) : string :=
  "git::" ++ scheme ++ "://" ++ host ++ path.

(** [strings.Contains(s, substr)]. *)
Fixpoint Contains (s sub : string) : bool :=
  String.prefix sub s ||
  match s with
  | EmptyString => false
  | String _ s' => Contains s' sub
  end.

(** Every byte of [s] is in the class [ok]. *)
Fixpoint all_bytes (ok : ascii -> bool) (s : string) : bool :=
  match s with
  | EmptyString => true
  | String c s' => ok c && all_bytes ok s'
  end.

(** The text [s] is empty or starts with a byte outside the class. *)
Definition stops (ok : ascii -> bool) (s : string) : Prop :=
  match s with
  | EmptyString => True
  | String c _ => ok c = false
  end.

(** A tree in which every directory can be listed and every name can
    be examined. *)
Fixpoint healthy (n : Node) : bool :=
  match n with
  | NFile _ => true
  | NDir _ entries => forallb healthy entries
  | NDirUnreadable _ _ | NLstatError _ _ => false
  end.

(** A name that a directory can hold: not empty, not [.] or [..], and
    without a separator. *)
Definition proper_name (name : string) : bool :=
  negb (String.eqb name "") && negb (String.eqb name ".") && negb (String.eqb name "..")
  && negb (contains_byte name "/").

(** Every entry below the node has such a name. *)
Fixpoint well_named (n : Node) : bool :=
  match n with
  | NDir _ entries =>
      forallb (fun c => proper_name (node_name c) && well_named c) entries
  | NFile _ | NDirUnreadable _ _ | NLstatError _ _ => true
  end.

(** [file_at n path f]: below the node [n] found at [path], the walk
    comes to a file at the path [f]. *)
Inductive file_at : Node -> string -> string -> Prop :=
| file_here name path : file_at (NFile name) path path
| file_below name entries c path f :
    In c entries -> file_at c (Join path (node_name c)) f ->
    file_at (NDir name entries) path f.

(** The loop of [filepath.Walk] over the entries of the directory at
    [path], from the files so far. *)
Fixpoint walk_entries (path : string) (entries : list Node) (tfFiles : list string)
  : list string * option error :=
  match entries with
  | [] => (tfFiles, None)
  | c :: rest =>
      match walk (Join path (node_name c)) c tfFiles with
      | (tfFiles', None) => walk_entries path rest tfFiles'
      | (tfFiles', Some err) => (tfFiles', Some err)
      end
  end.

(** The values of a query in the form [ParseQuery] builds them: the
    keys in strictly ascending order, each with at least one value. *)
Fixpoint normal (v : Values) : Prop :=
  match v with
  | [] => True
  | (k, vs) :: rest =>
      vs <> [] /\ Forall (fun kv => String.compare (fst kv) k = Gt) rest /\ normal rest
  end.

(** The key [k] comes after every key of [m]. *)
Definition above (k : string) (m : Values) : Prop :=
  Forall (fun kv => String.compare k (fst kv) = Gt) m.

(** The pairs of a key and a value that [Encode] writes, in its order. *)
Definition pairs_of (v : Values) : list (string * string) :=
  flat_map (fun kv => map (fun x => (fst kv, x)) (snd kv)) v.

(** The text of a pair in a query. *)
Definition piece_of (kx : string * string) : string :=
  QueryEscape (fst kx) ++ "=" ++ QueryEscape (snd kx).

(** What [QueryEscape] writes for one byte. *)
Definition escape1 (c : ascii) : string := QueryEscape (String c "").

(** A step of the matcher that takes one byte of the class [ok]. *)
Definition class_step {R : Type} (ok : ascii -> bool)
  (step : string -> list string -> (string -> list string -> option R) -> option R) : Prop :=
  forall s caps k,
    step s caps k = match s with
                    | String c s' => if ok c then k s' caps else None
                    | EmptyString => None
                    end.

End Notions.

(** ** Further sample inputs *)

Module FurtherSamples.
Import Cty Hcl Url Scaffold Samples.

(** The variables of a run that asks for locators over SSH, and of one
    that asks for what is the default. *)
Definition ssh_vars : gmap string VarValue := <["SourceUrlType" := VarString "git-ssh"]> ∅.
Definition https_vars : gmap string VarValue :=
  <["SourceUrlType" := VarString "git-https"]> ∅.

(** A locator of the form that [parseUrl] takes apart. *)
Definition https_locator : string := "git::https://github.com/org/repo//modules/x".
Definition git_https_locator : string := "git::git-https://github.com/org/repo//modules/x".

(** A root locator whose repository carries the suffix [.git]. *)
Definition root_dot_git : URL := mkURL "https" "github.com" "/org/repo.git" "".

(** A release lookup that finds no release. *)
Definition latest_missing (token owner repo : string) : outcome string :=
  Error (ErrMsg "404 Not Found").

(** [variable max { default = <2^1024 - 2^970> }]: the default is half
    way between the largest float64 and 2^1024. *)
Definition variable_default_max : Block :=
  variable_block "max"
    [("default", LiteralValueExpr (NumberIntVal (2 ^ 1024 - 2 ^ 970)))].

(** The input of [variable X {}]. *)
Definition input_X : ParsedInput :=
  mkParsedInput "X" "No description for X" "No type for X" "".

End FurtherSamples.

(** * Properties *)

Import GoStrings Regexp Json Cty Url Scaffold.

(** ** Outcomes *)

Lemma bind_Return {A B} (x : outcome A) (f : A -> outcome B) (b : B) :
  bind x f = Return b -> exists a, x = Return a /\ f a = Return b.
Proof. destruct x; simpl; intros H; try discriminate. eauto. Qed.


(** ** Required and optional inputs *)

Lemma separate_inputs_filter (inputs req opt : list ParsedInput) :
  separate_inputs inputs req opt =
  (req ++ List.filter IsRequired inputs,
   opt ++ List.filter (fun i => negb (IsRequired i)) inputs).
Proof.
  revert req opt. induction inputs as [|value rest IH]; intros req opt; simpl.
  - by rewrite !app_nil_r.
  - change (String.eqb (DefaultValue value) "") with (IsRequired value).
    destruct (IsRequired value); simpl; rewrite IH, <- app_assoc; reflexivity.
Qed.

Lemma filter_sublist {A} (f : A -> bool) (l : list A) : sublist (List.filter f l) l.
Proof.
  induction l as [|x l IH]; simpl; [constructor|].
  destruct (f x); by constructor.
Qed.

Lemma filter_split_length {A} (f : A -> bool) (l : list A) :
  (List.length (List.filter f l) + List.length (List.filter (fun x => negb (f x)) l)
   = List.length l)%nat.
Proof.
  induction l as [|x l IH]; simpl; [reflexivity|].
  destruct (f x); simpl; lia.
Qed.

Lemma filter_split_count (f : ParsedInput -> bool) (l : list ParsedInput) d :
  (count_occ ParsedInput_eq_dec l d
   = count_occ ParsedInput_eq_dec (List.filter f l) d
     + count_occ ParsedInput_eq_dec (List.filter (fun x => negb (f x)) l) d)%nat.
Proof.
  induction l as [|x l IH]; simpl; [reflexivity|].
  destruct (f x); simpl; destruct (ParsedInput_eq_dec x d); lia.
Qed.

(** C4. The loop that separates the inputs is a stable partition by
    [DefaultValue == ""]: the required inputs are the inputs without a
    default, the optional ones those with a default, both in the order of
    discovery; the two lengths add up to the number of inputs; every
    occurrence of an input goes to exactly one side; no input is on both
    sides; no inputs give two empty slices. *)
Theorem C4_separate_inputs_stable_partition (inputs : list ParsedInput) :
  let required := fst (Run_separate_inputs inputs) in
  let optional := snd (Run_separate_inputs inputs) in
  required = List.filter (fun i => String.eqb (DefaultValue i) "") inputs
  /\ optional = List.filter (fun i => negb (String.eqb (DefaultValue i) "")) inputs
  /\ (List.length required + List.length optional = List.length inputs)%nat
  /\ (forall d, count_occ ParsedInput_eq_dec inputs d
                = count_occ ParsedInput_eq_dec required d
                  + count_occ ParsedInput_eq_dec optional d)%nat
  /\ (forall d, In d inputs <-> In d required \/ In d optional)
  /\ (forall d, ~ (In d required /\ In d optional))
  /\ sublist required inputs
  /\ sublist optional inputs
  /\ Run_separate_inputs [] = ([], []).
Proof.
  unfold Run_separate_inputs. rewrite separate_inputs_filter. simpl.
  change (fun i => String.eqb (DefaultValue i) "") with IsRequired.
  change (fun i => negb (String.eqb (DefaultValue i) ""))
    with (fun i => negb (IsRequired i)).
  split; [reflexivity|]. split; [reflexivity|].
  split; [apply filter_split_length|].
  split; [intros d; apply filter_split_count|].
  split; [|split; [|split; [|split]]].
  - intros d. split.
    + intros Hd.
      destruct (IsRequired d) eqn:E; [left | right]; apply filter_In; by rewrite ?E.
    + intros [H|H]; apply filter_In in H; tauto.
  - intros d [H1 H2]. apply filter_In in H1, H2.
    destruct H1 as [_ H1], H2 as [_ H2]. rewrite H1 in H2. discriminate.
  - apply filter_sublist.
  - apply filter_sublist.
  - reflexivity.
Qed.

(** ** The source locator *)

Lemma parseUrl_https_locator :
  parseUrl "git::https://github.com/org/repo//modules/x"
  = ("https", "github.com", "/org/repo//modules/x").
Proof. vm_compute. reflexivity. Qed.

(** The rewrite to the SSH form happens only for a locator whose scheme,
    as the pattern captures it, is the text of [SourceUrlTypeHttps]. *)
Lemma rewrite_needs_git_https_scheme (vars : gmap string VarValue) (moduleUrl : string) :
  Run_prepare_source_url vars moduleUrl <> moduleUrl ->
  fst (fst (parseUrl moduleUrl)) = "git-https".
Proof.
  unfold Run_prepare_source_url.
  destruct (parseUrl moduleUrl) as [[scheme host] path]. simpl.
  destruct (negb (String.eqb scheme "")); [|congruence].
  destruct (String.eqb scheme SourceUrlTypeHttps) eqn:E; simpl; [|congruence].
  intros _. by apply String.eqb_eq in E.
Qed.

(** A locator whose scheme is spelled [git-https] is rewritten, with the
    default user and the leading slash of the path dropped. *)
Example rewrite_of_git_https_scheme :
  Run_prepare_source_url (<["SourceUrlType" := VarString "git-ssh"]> ∅)
    "git::git-https://github.com/org/repo//modules/x"
  = "git@github.com:org/repo//modules/x".
Proof. vm_compute. reflexivity. Qed.

(** C1. Whatever the variables, the step that prepares the source URL
    leaves the locator [git::https://github.com/org/repo//modules/x] as it
    is, also when [SourceUrlType] is [git-ssh]: the scheme the pattern
    captures is [https], and the step compares it with [git-https]. The
    locator [git@github.com:org/repo//modules/x] is not produced. *)
Theorem C1_https_locator_is_not_rewritten (vars : gmap string VarValue) :
  Run_prepare_source_url vars "git::https://github.com/org/repo//modules/x"
  = "git::https://github.com/org/repo//modules/x"
  /\ Run_prepare_source_url (<["SourceUrlType" := VarString "git-ssh"]> ∅)
       "git::https://github.com/org/repo//modules/x"
     <> "git@github.com:org/repo//modules/x".
Proof.
  assert (H : forall vs, Run_prepare_source_url vs "git::https://github.com/org/repo//modules/x"
                         = "git::https://github.com/org/repo//modules/x").
  { intros vs. unfold Run_prepare_source_url. rewrite parseUrl_https_locator.
    reflexivity. }
  split; [apply H|]. rewrite H. discriminate.
Qed.

(** ** The version reference *)

Section RefProperties.
Variable SplitSourceUrl : URL -> outcome URL.
Variable token : string.
Variable GetLatestRelease : string -> string -> string -> outcome string.

(** C9. [getLatestReleaseTag] by the number of parts that the path of
    the root locator splits into at its slashes: fewer than two, the
    error "invalid repository URL" and no lookup; exactly two, as for
    the path [/owner], a panic on the index 2 and no lookup; three or
    more, one lookup of the second part and of the third without its
    suffix [.git], whose result is returned. *)
Theorem C9_getLatestReleaseTag_by_parts (parsedURL : URL) :
  let pathParts := Split (Path parsedURL) "/" in
  let r := getLatestReleaseTag token GetLatestRelease parsedURL in
  ((List.length pathParts < 2)%nat ->
     r = ([], Error (ErrMsg "invalid repository URL")))
  /\ (List.length pathParts = 2%nat ->
        r = ([], Panic "index out of range [2] with length 2"))
  /\ ((3 <= List.length pathParts)%nat ->
        exists owner repo,
          pathParts !! 1%nat = Some owner /\ pathParts !! 2%nat = Some repo
          /\ r = ([(owner, TrimSuffix repo ".git")],
                  GetLatestRelease token owner (TrimSuffix repo ".git")))
  /\ (Path parsedURL = "/owner" ->
        List.length pathParts = 2%nat
        /\ r = ([], Panic "index out of range [2] with length 2")).
Proof.
  cbv zeta. unfold getLatestReleaseTag.
  assert (Hex : Path parsedURL = "/owner" ->
                Split (Path parsedURL) "/" = [""; "owner"]).
  { intros ->. reflexivity. }
  destruct (Split (Path parsedURL) "/") as [|p0 [|p1 [|p2 rest]]] eqn:E; simpl;
    (split; [intros; first [reflexivity | lia]
            |split; [intros; first [reflexivity | lia | discriminate]
                    |split; [intros; first [lia | eauto] |]]]);
    intros HP; specialize (Hex HP); try discriminate.
  split; reflexivity.
Qed.

End RefProperties.

(** [getLatestReleaseTag] on paths of one, two and three parts. *)
Example getLatestReleaseTag_one_part :
  getLatestReleaseTag "" (fun _ _ _ => Return "v1.2.3") (mkURL "https" "github.com" "" "")
  = ([], Error (ErrMsg "invalid repository URL")).
Proof. reflexivity. Qed.

Example getLatestReleaseTag_two_parts :
  getLatestReleaseTag "" (fun _ _ _ => Return "v1.2.3")
    (mkURL "https" "github.com" "/owner" "")
  = ([], Panic "index out of range [2] with length 2").
Proof. reflexivity. Qed.

Example getLatestReleaseTag_three_parts :
  getLatestReleaseTag "" (fun _ owner repo => Return (owner ++ "/" ++ repo)%string)
    (mkURL "https" "github.com" "/org/repo.git" "")
  = ([("org", "repo")], Return "org/repo").
Proof. reflexivity. Qed.

(** *** Query strings *)

Lemma append_cons (x : ascii) (a b : string) :
  (String x a ++ b = String x (a ++ b))%string.
Proof. reflexivity. Qed.

Lemma append_nil_r (a : string) : (a ++ "" = a)%string.
Proof. induction a as [|x a IH]; [reflexivity|]. by rewrite append_cons, IH. Qed.

Lemma append_assoc (a b c : string) : ((a ++ b) ++ c = a ++ (b ++ c))%string.
Proof.
  induction a as [|x a IH]; [reflexivity|]. by rewrite !append_cons, IH.
Qed.





Section RefResolution.
Variable SplitSourceUrl : URL -> outcome URL.
Variable token : string.
Variable GetLatestRelease : string -> string -> string -> outcome string.



End RefResolution.

(** ** Expressions *)

Section ExpressionInduction.
Import Hcl.
Variable P : Expression -> Prop.
Hypothesis HLit : forall v, P (LiteralValueExpr v).
Hypothesis HTemplate : forall parts, Forall P parts -> P (TemplateExpr parts).
Hypothesis HWrap : forall w, P w -> P (TemplateWrapExpr w).
Hypothesis HScope : forall root steps, P (ScopeTraversalExpr root steps).
Hypothesis HTuple : forall exprs, Forall P exprs -> P (TupleConsExpr exprs).
Hypothesis HObject :
  forall items, Forall (fun item => P (snd (fst item)) /\ P (snd item)) items ->
                P (ObjectConsExpr items).
Hypothesis HCall : forall name args, Forall P args -> P (FunctionCallExpr name args).

Lemma Expression_nested_ind : forall e, P e.
Proof.
  fix IH 1. intros [v|parts|w|root steps|exprs|items|name args].
  - apply HLit.
  - apply HTemplate. induction parts; constructor; [apply IH | assumption].
  - apply HWrap, IH.
  - apply HScope.
  - apply HTuple. induction exprs; constructor; [apply IH | assumption].
  - apply HObject. induction items as [|[[f k] v] items IHitems]; constructor;
      [split; apply IH | assumption].
  - apply HCall. induction args; constructor; [apply IH | assumption].
Qed.
End ExpressionInduction.

Section ExpressionProperties.
Import Hcl.

(** Every traversal that [Variables] returns starts at a root name. *)
Lemma Variables_rooted (e : Expression) :
  forall t, In t (Variables e) -> rooted t.
Proof.
  induction e as [v|parts IH|w IH|root steps|exprs IH|items IH|name args IH]
    using Expression_nested_ind; simpl; intros t Hin.
  - destruct Hin.
  - apply in_flat_map in Hin as (x & Hx & Ht).
    rewrite List.Forall_forall in IH. eauto.
  - eauto.
  - destruct Hin as [<-|[]]. by exists root, steps.
  - apply in_flat_map in Hin as (x & Hx & Ht).
    rewrite List.Forall_forall in IH. eauto.
  - apply in_flat_map in Hin as ([[f k] v] & Hx & Ht).
    rewrite List.Forall_forall in IH. destruct (IH _ Hx) as [IHk IHv]. simpl in *.
    apply in_app_or in Ht as [Ht|Ht]; [|eauto].
    destruct (String.eqb (literalName f k) ""); [eauto | destruct Ht].
  - apply in_flat_map in Hin as (x & Hx & Ht).
    rewrite List.Forall_forall in IH. eauto.
Qed.

Lemma flat_map_nil {A B} (f : A -> list B) (l : list A) :
  (forall x, In x l -> f x = []) -> flat_map f l = [].
Proof.
  induction l as [|x l IH]; simpl; intros H; [reflexivity|].
  rewrite (H x), IH; auto.
Qed.

Lemma string_part_inv (p : Expression) :
  is_string_part p = true -> exists s, p = LiteralValueExpr (StringVal s).
Proof. destruct p as [[]| | | | | |]; simpl; intros H; try discriminate; eauto. Qed.

(** A template of literal strings is the string of their texts. *)
Lemma string_template_fold (parts : list Expression) (buf : string) :
  forallb is_string_part parts = true ->
  exists buf', fold_left template_part (map Value parts) (buf, true, [])
               = (buf', true, []).
Proof.
  revert buf. induction parts as [|p parts IH]; simpl; intros buf H; [eauto|].
  apply andb_true_iff in H as [Hp Hparts].
  apply string_part_inv in Hp as [s ->]. simpl. apply IH, Hparts.
Qed.

Lemma string_template_Variables (parts : list Expression) :
  forallb is_string_part parts = true -> flat_map Variables parts = [].
Proof.
  intros H. apply flat_map_nil. intros p Hp.
  rewrite forallb_forall in H. apply H, string_part_inv in Hp as [s ->]. reflexivity.
Qed.

(** A literal key is the string of a name, without diagnostics, and
    refers to no variable. *)
Lemma literal_key_value (force : bool) (key : Expression) :
  is_literal_key force key = true ->
  (exists name,
     match key_shortcut force key with Some r => r | None => Value key end
     = (StringVal name, []))
  /\ (if String.eqb (literalName force key) "" then Variables key else []) = [].
Proof.
  unfold is_literal_key. intros H. apply andb_true_iff in H as [Hf Hk].
  destruct force; [discriminate|]. clear Hf.
  destruct key as [v|parts|w|root steps|exprs|items|name args]; try discriminate.
  - split.
    + destruct (string_template_fold parts "" Hk) as [buf' E].
      exists buf'. simpl. by rewrite E.
    + simpl. by apply string_template_Variables.
  - destruct steps; [|discriminate]. simpl.
    destruct (String.eqb root "") eqn:E; [discriminate|]. eauto.
Qed.

Lemma literal_object_fold (items : list (bool * Expression * Expression))
  (vals : list (string * Cty.Value)) :
  Forall (fun item => exists v, Value (snd item) = (v, [])) items ->
  forallb (fun item => is_literal_key (fst (fst item)) (snd (fst item))) items = true ->
  exists vals',
    fold_left object_item
      (map (fun item =>
              match item with
              | (force, key, val) =>
                  (match key_shortcut force key with
                   | Some r => r
                   | None => Value key
                   end, Value val)
              end) items) (vals, true, [])
    = (vals', true, []).
Proof.
  revert vals. induction items as [|[[f k] v] items IH]; simpl; intros vals HV HK;
    [eauto|].
  apply andb_true_iff in HK as [Hk HK]. inversion HV as [|? ? [val Hval] HV']; subst.
  simpl in *. destruct (literal_key_value f k Hk) as [[name ->] _]. rewrite Hval.
  simpl. by apply IH.
Qed.

(** A literal refers to no variable. *)
Lemma literal_Variables (e : Expression) :
  is_literal e = true -> Variables e = [].
Proof.
  induction e as [v|parts IH|w IH|root steps|exprs IH|items IH|name args IH]
    using Expression_nested_ind; simpl; intros H; try discriminate.
  - reflexivity.
  - by apply string_template_Variables.
  - apply flat_map_nil. intros x Hx.
    rewrite List.Forall_forall in IH. rewrite forallb_forall in H. auto.
  - apply flat_map_nil. intros [[f k] v] Hx.
    rewrite List.Forall_forall in IH. rewrite forallb_forall in H.
    specialize (H _ Hx). specialize (IH _ Hx). simpl in *.
    apply andb_true_iff in H as [Hk Hv].
    destruct (literal_key_value f k Hk) as [_ ->]. simpl. tauto.
Qed.

(** A literal has a value in the empty context, without diagnostics. *)
Lemma literal_Value (e : Expression) :
  is_literal e = true -> exists v, Value e = (v, []).
Proof.
  induction e as [v|parts IH|w IH|root steps|exprs IH|items IH|name args IH]
    using Expression_nested_ind; simpl; intros H; try discriminate.
  - eauto.
  - destruct (string_template_fold parts "" H) as [buf' ->]. eauto.
  - eexists. f_equal. apply flat_map_nil. intros r Hr.
    apply in_map_iff in Hr as (x & <- & Hx).
    rewrite List.Forall_forall in IH. rewrite forallb_forall in H.
    destruct (IH x Hx (H x Hx)) as [v ->]. reflexivity.
  - destruct (literal_object_fold items []) as [vals' E].
    + rewrite List.Forall_forall in *. intros [[f k] v] Hx.
      rewrite forallb_forall in H. specialize (H _ Hx). simpl in *.
      apply andb_true_iff in H as [_ Hv]. apply (IH _ Hx), Hv.
    + rewrite forallb_forall in *. intros [[f k] v] Hx.
      specialize (H _ Hx). simpl in *. by apply andb_true_iff in H as [Hk _].
    + rewrite E. eauto.
Qed.

Lemma fold_left_diags {St R} (step : St -> R -> St)
  (d : St -> list Diagnostic) (pd : R -> list Diagnostic) :
  (forall st r, d st <> [] \/ pd r <> [] -> d (step st r) <> []) ->
  forall rs st, d st <> [] \/ Exists (fun r => pd r <> []) rs ->
                d (fold_left step rs st) <> [].
Proof.
  intros Hstep. induction rs as [|r rs IH]; simpl; intros st H.
  - destruct H as [H|H]; [assumption | inversion H].
  - apply IH. destruct H as [H|H]; [left; apply Hstep; by left|].
    inversion H; subst; [left; apply Hstep; by right | by right].
Qed.

Lemma app_not_nil_l {A} (l1 l2 : list A) : l1 <> [] -> l1 ++ l2 <> [].
Proof. destruct l1; [congruence | discriminate]. Qed.

Lemma app_not_nil {A} (l1 l2 : list A) : l1 <> [] \/ l2 <> [] -> l1 ++ l2 <> [].
Proof. destruct l1, l2; simpl; intros [H|H]; congruence. Qed.

Lemma template_part_diags st r :
  snd st <> [] \/ snd r <> [] -> snd (template_part st r) <> [].
Proof.
  destruct st as [[buf k] ds], r as [v pd]. simpl. intros H.
  pose proof (app_not_nil ds pd H) as H'.
  destruct (IsNull v); simpl; [by apply app_not_nil_l|].
  destruct (negb (IsKnown v)); simpl; [assumption|].
  destruct (ConvertToString v) as [[]|]; simpl;
    first [assumption | by apply app_not_nil_l].
Qed.

Lemma object_item_diags st (item : (Cty.Value * list Diagnostic) * (Cty.Value * list Diagnostic)) :
  snd st <> [] \/ snd (fst item) ++ snd (snd item) <> [] ->
  snd (object_item st item) <> [].
Proof.
  destruct st as [[vals k] ds], item as [[key kd] [val vd]]. simpl. intros H.
  assert (H' : (ds ++ kd) ++ vd <> []).
  { rewrite <- app_assoc. by apply app_not_nil. }
  destruct (HasErrors kd); simpl; [assumption|].
  destruct (IsNull key); simpl; [by apply app_not_nil_l|].
  destruct (ConvertToString key) as [[]|]; simpl;
    first [assumption | by apply app_not_nil_l].
Qed.

Lemma call_key_shortcut (force : bool) (key : Expression) :
  contains_call key = true -> key_shortcut force key = None.
Proof.
  destruct force; [reflexivity|].
  destruct key; simpl; intros H; try discriminate; reflexivity.
Qed.

(** A function call anywhere in an expression leaves diagnostics: the
    empty context has no functions. *)
Lemma call_fails (e : Expression) :
  contains_call e = true -> snd (Value e) <> [].
Proof.
  induction e as [v|parts IH|w IH|root steps|exprs IH|items IH|name args IH]
    using Expression_nested_ind; simpl; intros H; try discriminate.
  - apply existsb_exists in H as (p & Hp & Hc).
    rewrite List.Forall_forall in IH.
    pose proof (fold_left_diags template_part snd snd template_part_diags
                  (map Value parts) ("", true, [])) as HF.
    destruct (fold_left template_part (map Value parts) ("", true, []))
      as [[buf k] ds]. simpl in *. apply HF. right.
    apply List.Exists_exists. exists (Value p). split; [by apply in_map | auto].
  - auto.
  - apply existsb_exists in H as (p & Hp & Hc).
    rewrite List.Forall_forall in IH. specialize (IH p Hp Hc).
    intros E. apply IH.
    assert (HN : forall r, In r (map Value exprs) -> snd r = []).
    { clear -E. induction (map Value exprs) as [|r rs IHrs]; [intros ? []|].
      simpl in E. apply app_eq_nil in E as [E1 E2].
      intros r' [<-|Hr]; auto. }
    apply HN. by apply in_map.
  - apply existsb_exists in H as ([[f k] v] & Hp & Hc).
    rewrite List.Forall_forall in IH. specialize (IH _ Hp). simpl in IH.
    pose proof (fold_left_diags object_item snd
                  (fun item => snd (fst item) ++ snd (snd item)) object_item_diags) as HF.
    match goal with
    | |- context [fold_left object_item ?rs ?st] =>
        specialize (HF rs st); destruct (fold_left object_item rs st) as [[vals kn] ds]
    end.
    simpl in *. apply HF. right. apply List.Exists_exists.
    eexists. split; [apply in_map_iff; exists (f, k, v); split; [reflexivity|exact Hp]|].
    simpl. apply app_not_nil. apply orb_true_iff in Hc as [Hc|Hc].
    + left. rewrite (call_key_shortcut f k Hc). by apply IH.
    + right. by apply IH.
Qed.

End ExpressionProperties.

(** ** Attributes of a block *)

Section AttributeProperties.
Import Hcl.

Lemma readBlockAttribute_absent (block : Block) (name : string) :
  Attributes (Body_ block) !! name = None ->
  readBlockAttribute block name = Return None.
Proof. unfold readBlockAttribute. by intros ->. Qed.

(** C5, as the code has it. For an attribute with an expression: when
    the expression refers to at least one variable, the resolver
    returns the root name of the first traversal, in the order of the
    walk, as a string, and does not evaluate; when it refers to none,
    the resolver returns what the evaluation in the empty context
    gives, its value when there is no diagnostic and the diagnostics as
    the error otherwise. So a literal gives its value, and an
    expression without variables and with a function call gives an
    error. *)
Theorem C5_readBlockAttribute_first_variable_or_value
  (block : Block) (name : string) (attr : Attribute) (expr : Expression) :
  Attributes (Body_ block) !! name = Some attr ->
  Expr attr = Some expr ->
  (forall v rest,
      Variables expr = v :: rest ->
      exists root steps,
        v = TraverseRoot root :: steps
        /\ readBlockAttribute block name = Return (Some (StringVal root)))
  /\ (Variables expr = [] ->
      readBlockAttribute block name
      = match Value expr with
        | (value, []) => Return (Some value)
        | (_, err) => Error (ErrDiags err)
        end)
  /\ (is_literal expr = true ->
      exists value, Value expr = (value, [])
                    /\ readBlockAttribute block name = Return (Some value))
  /\ (Variables expr = [] -> contains_call expr = true ->
      exists err, err <> []
                  /\ readBlockAttribute block name = Error (ErrDiags err)).
Proof.
  intros Hattr Hexpr. unfold readBlockAttribute. rewrite Hattr, Hexpr.
  split; [|split; [|split]].
  - intros v rest E. rewrite E.
    destruct (Variables_rooted expr v) as (root & steps & ->);
      [rewrite E; by left|]. eauto.
  - intros ->. reflexivity.
  - intros HL. rewrite (literal_Variables expr HL).
    destruct (literal_Value expr HL) as [value E]. rewrite E. eauto.
  - intros -> HC. pose proof (call_fails expr HC) as HD.
    destruct (Value expr) as [value [|d ds]]; [by destruct HD|].
    eexists. split; [|reflexivity]. discriminate.
Qed.

End AttributeProperties.

(** ** Extraction *)

Section ExtractionProperties.
Import Hcl.
Variable ReadFile : string -> option string.
Variable ParseHCL : string -> string -> Body * list Diagnostic.

Lemma listInputs_blocks_app (a b : list Block) (acc : list ParsedInput) :
  listInputs_blocks (a ++ b) acc
  = (let! acc' := listInputs_blocks a acc in listInputs_blocks b acc').
Proof.
  revert acc. induction a as [|x a IH]; simpl; intros acc; [reflexivity|].
  destruct (listInputs_block x); simpl; [apply IH | reflexivity | reflexivity].
Qed.

(** The loop over the files is the loop over the blocks that the files
    contribute. *)
Lemma listInputs_files_blocks (tfFiles : list string) (acc : list ParsedInput) :
  listInputs_files ReadFile ParseHCL tfFiles acc
  = listInputs_blocks (flat_map (blocks_of_file ReadFile ParseHCL) tfFiles) acc.
Proof.
  revert acc. induction tfFiles as [|f rest IH]; simpl; intros acc; [reflexivity|].
  rewrite listInputs_blocks_app. unfold blocks_of_file at 1.
  destruct (ReadFile f) as [content|]; simpl; [|apply IH].
  destruct (ParseHCL content f) as [body diags].
  destruct (HasErrors diags); simpl; [apply IH|].
  destruct (listInputs_blocks (Blocks body) acc); simpl; [apply IH | reflexivity | reflexivity].
Qed.



Lemma In_blocks_of_file (tfFiles : list string) f content body diags block :
  In f tfFiles -> ReadFile f = Some content -> ParseHCL content f = (body, diags) ->
  HasErrors diags = false -> In block (Blocks body) ->
  In block (flat_map (blocks_of_file ReadFile ParseHCL) tfFiles).
Proof.
  intros Hf HR HP HE Hb. apply in_flat_map. exists f. split; [assumption|].
  unfold blocks_of_file. by rewrite HR, HP, HE.
Qed.

Lemma In_blocks_of_file_inv (tfFiles : list string) block :
  In block (flat_map (blocks_of_file ReadFile ParseHCL) tfFiles) ->
  exists f content body diags,
    In f tfFiles /\ ReadFile f = Some content /\ ParseHCL content f = (body, diags)
    /\ HasErrors diags = false /\ In block (Blocks body).
Proof.
  intros H. apply in_flat_map in H as (f & Hf & Hb). unfold blocks_of_file in Hb.
  destruct (ReadFile f) as [content|] eqn:HR; [|destruct Hb].
  destruct (ParseHCL content f) as [body diags] eqn:HP.
  destruct (HasErrors diags) eqn:HE; [destruct Hb|].
  exists f, content, body, diags. auto.
Qed.

(** When the loop over the blocks returns, every block returned, and
    the inputs are those so far followed by the inputs of the blocks. *)
Lemma listInputs_blocks_Return (blocks : list Block) (acc inputs : list ParsedInput) :
  listInputs_blocks blocks acc = Return inputs ->
  (forall d, In d acc -> In d inputs)
  /\ forall block, In block blocks ->
       exists o, listInputs_block block = Return o
                 /\ forall d, o = Some d -> In d inputs.
Proof.
  revert acc. induction blocks as [|x rest IH]; simpl; intros acc H.
  - injection H as <-. split; [auto | intros ? []].
  - apply bind_Return in H as (o & Ho & H). apply IH in H as [Hacc Hrest].
    split.
    + intros d Hd. apply Hacc. destruct o; [apply in_or_app; by left | assumption].
    + intros block [<-|Hin]; [|by apply Hrest].
      exists o. split; [assumption|]. intros d ->. apply Hacc, in_or_app. right. by left.
Qed.


Lemma read_or_nil_not_Error (block : Block) (name : string) e :
  read_or_nil block name <> Error e.
Proof. unfold read_or_nil. destruct (readBlockAttribute block name); discriminate. Qed.

Lemma attr_text_not_Error (attr : option Cty.Value) (placeholder : string) e :
  attr_text attr placeholder <> Error e.
Proof. destruct attr as [[]|]; discriminate. Qed.



(** What [listInputs] returns holds the input of every block of every
    file that was read and parsed. *)
Lemma listInputs_Return_complete (fs : Node) (directoryPath : string)
  tfFiles f content body diags block inputs :
  listTerraformFiles fs directoryPath = (tfFiles, None) ->
  In f tfFiles -> ReadFile f = Some content -> ParseHCL content f = (body, diags) ->
  HasErrors diags = false -> In block (Blocks body) ->
  listInputs ReadFile ParseHCL fs directoryPath = Return inputs ->
  exists o, listInputs_block block = Return o /\ forall d, o = Some d -> In d inputs.
Proof.
  intros HL Hf HR HP HE Hb. unfold listInputs. rewrite HL, listInputs_files_blocks.
  intros H. apply listInputs_blocks_Return in H as [_ H]. apply H.
  eapply In_blocks_of_file; eassumption.
Qed.

End ExtractionProperties.

(** ** Variable blocks *)

Lemma nonempty_length (name : string) :
  name <> "" -> (0 <? String.length name)%nat = true.
Proof. destruct name; [congruence | reflexivity]. Qed.

Lemma AsString_not_string (val : Cty.Value) :
  (forall s, val <> StringVal s) -> exists msg, AsString val = Panic msg.
Proof. destruct val; simpl; intros H; eauto. by destruct (H s). Qed.

Section BlockProperties.
Import Hcl.

Lemma reached_Return ReadFile ParseHCL fs directoryPath block inputs :
  reached ReadFile ParseHCL fs directoryPath block ->
  listInputs ReadFile ParseHCL fs directoryPath = Return inputs ->
  exists o, listInputs_block block = Return o /\ forall d, o = Some d -> In d inputs.
Proof.
  intros (tfFiles & f & content & body & diags & ? & ? & ? & ? & ? & ?).
  eapply listInputs_Return_complete; eassumption.
Qed.

(** C2. For a variable block without attributes whose first label [X]
    is not empty, as [variable "X" {}], the loop body gives the input
    with the name [X], the description "No description for X", the type
    "No type for X" and an empty default, which is a required input; and
    whenever [listInputs] returns over a directory in which the block is
    reached, that input is among the inputs returned and, in [Run], among
    the required inputs and not among the optional ones. *)
Theorem C2_variable_without_attributes
  (block : Block) (X : string) (labels : list string) :
  Type_ block = "variable" ->
  Labels block = X :: labels ->
  X <> "" ->
  Attributes (Body_ block) = ∅ ->
  let input := mkParsedInput X ("No description for " ++ X) ("No type for " ++ X) "" in
  listInputs_block block = Return (Some input)
  /\ IsRequired input = true
  /\ forall ReadFile ParseHCL fs directoryPath inputs,
       reached ReadFile ParseHCL fs directoryPath block ->
       listInputs ReadFile ParseHCL fs directoryPath = Return inputs ->
       In input inputs
       /\ In input (fst (Run_separate_inputs inputs))
       /\ ~ In input (snd (Run_separate_inputs inputs)).
Proof.
  intros HT HL HX HA. cbv zeta.
  assert (E : listInputs_block block
              = Return (Some (mkParsedInput X ("No description for " ++ X)
                                ("No type for " ++ X) ""))).
  { unfold listInputs_block. rewrite HT, HL.
    change (String.eqb "variable" "variable") with true. cbv beta iota.
    rewrite (nonempty_length X HX).
    unfold read_or_nil, readBlockAttribute. rewrite HA. reflexivity. }
  split; [exact E|]. split; [reflexivity|].
  intros ReadFile ParseHCL fs directoryPath inputs Hreached Hret.
  destruct (reached_Return _ _ _ _ _ _ Hreached Hret) as (o & Ho & Hin).
  rewrite E in Ho. injection Ho as <-. specialize (Hin _ eq_refl).
  unfold Run_separate_inputs. rewrite separate_inputs_filter. simpl.
  split; [assumption|]. split.
  - apply filter_In. split; [assumption | reflexivity].
  - intros H. apply filter_In in H as [_ H]. discriminate.
Qed.

(** A variable block whose first label is empty is passed over, and a
    block of another type as well. *)
Lemma empty_label_is_passed_over (labels : list string) (body : Body) :
  listInputs_block (mkBlock "variable" ("" :: labels) body) = Return None.
Proof. reflexivity. Qed.

Lemma other_block_is_passed_over (block : Block) :
  Type_ block <> "variable" -> listInputs_block block = Return None.
Proof.
  intros H. unfold listInputs_block. apply String.eqb_neq in H. by rewrite H.
Qed.

(** C8. The loop body panics on a variable block without labels, on
    the index 0 of its empty label list: the block is neither passed
    over nor an error. So [listInputs] returns no inputs over a
    directory in which such a block is reached. *)
Theorem C8_variable_without_label_panics (body : Body) :
  let block := mkBlock "variable" [] body in
  listInputs_block block = Panic "index out of range [0] with length 0"
  /\ forall ReadFile ParseHCL fs directoryPath,
       reached ReadFile ParseHCL fs directoryPath block ->
       forall inputs, listInputs ReadFile ParseHCL fs directoryPath <> Return inputs.
Proof.
  cbv zeta. split; [reflexivity|].
  intros ReadFile ParseHCL fs directoryPath Hreached inputs Hret.
  destruct (reached_Return _ _ _ _ _ _ Hreached Hret) as (o & Ho & _).
  discriminate.
Qed.

(** C10. For a variable block with a first label that is not empty:
    when the attribute [description] resolves to a value that is not a
    string, the loop body panics in [AsString]; the same when [type]
    does. So [listInputs] returns no inputs over a directory in which
    such a block is reached. *)
Theorem C10_non_string_description_or_type_panics
  (block : Block) (name : string) (rest : list string) (val : Cty.Value) :
  Type_ block = "variable" ->
  Labels block = name :: rest ->
  name <> "" ->
  (forall s, val <> StringVal s) ->
  readBlockAttribute block "description" = Return (Some val)
  \/ readBlockAttribute block "type" = Return (Some val) ->
  (exists msg, listInputs_block block = Panic msg)
  /\ forall ReadFile ParseHCL fs directoryPath,
       reached ReadFile ParseHCL fs directoryPath block ->
       forall inputs, listInputs ReadFile ParseHCL fs directoryPath <> Return inputs.
Proof.
  intros HT HL Hname Hval Hattr.
  assert (HP : exists msg, listInputs_block block = Panic msg).
  { unfold listInputs_block. rewrite HT, HL. simpl. rewrite (nonempty_length name Hname).
    destruct (AsString_not_string val Hval) as [msg Hmsg].
    destruct Hattr as [Hd|Ht].
    - unfold read_or_nil at 1. rewrite Hd. simpl. rewrite Hmsg. simpl. eauto.
    - destruct (read_or_nil block "description") as [da|e|] eqn:Eda; simpl; eauto;
        [|by apply read_or_nil_not_Error in Eda].
      destruct (attr_text da _) as [dt|e|] eqn:Edt; simpl; eauto;
        [|by apply attr_text_not_Error in Edt].
      unfold read_or_nil at 1. rewrite Ht. simpl. rewrite Hmsg. simpl. eauto. }
  split; [exact HP|].
  intros ReadFile ParseHCL fs directoryPath Hreached inputs Hret.
  destruct (reached_Return _ _ _ _ _ _ Hreached Hret) as (o & Ho & _).
  destruct HP as [msg HP]. congruence.
Qed.

End BlockProperties.

Section DefaultProperties.
Import Hcl.

(** The default of an input that the loop body returns is the text of
    the [default] attribute as it was read. *)
Lemma listInputs_block_default (block : Block) (input : ParsedInput) :
  listInputs_block block = Return (Some input) ->
  exists defaultValue,
    read_or_nil block "default" = Return defaultValue
    /\ default_text defaultValue = Return (DefaultValue input).
Proof.
  unfold listInputs_block.
  destruct (String.eqb (Type_ block) "variable"); [|discriminate].
  destruct (Labels block) as [|name rest]; [discriminate|].
  destruct (0 <? String.length name)%nat; [|discriminate].
  intros H.
  apply bind_Return in H as (da & _ & H). apply bind_Return in H as (dt & _ & H).
  apply bind_Return in H as (ta & _ & H). apply bind_Return in H as (tt & _ & H).
  apply bind_Return in H as (dv & Hdv & H). apply bind_Return in H as (text & Htext & H).
  injection H as <-. eauto.
Qed.

(** C3. For a variable block with a first label that is not empty and
    the attribute [default] written as the number 5, as the quoted
    string a, or as the keyword true, the text of the default is [5],
    the string a between two double quotes (byte 34), or [true]: the
    JSON of the value, not of its type. Every input that the loop body
    returns for the block has that text as its default and is not
    required; and the loop body does return one when the block has no
    [description] and no [type]. *)
Theorem C3_literal_defaults
  (block : Block) (name : string) (rest : list string)
  (expr : Expression) (text : string) :
  Type_ block = "variable" ->
  Labels block = name :: rest ->
  name <> "" ->
  has_attribute block "default" expr ->
  In (expr, text)
     [ (LiteralValueExpr (NumberIntVal 5), "5");
       (TemplateExpr [LiteralValueExpr (StringVal "a")],
        String (ascii_of_nat 34) (String "a" (String (ascii_of_nat 34) "")));
       (LiteralValueExpr (BoolVal true), "true") ] ->
  (let! defaultValue := read_or_nil block "default" in default_text defaultValue)
  = Return text
  /\ (forall input,
        listInputs_block block = Return (Some input) ->
        DefaultValue input = text /\ IsRequired input = false)
  /\ (Attributes (Body_ block) !! "description" = None ->
      Attributes (Body_ block) !! "type" = None ->
      listInputs_block block
      = Return (Some (mkParsedInput name ("No description for " ++ name)
                        ("No type for " ++ name) text))).
Proof.
  intros HT HL Hname (attr & Hattr & Hexpr) Hcase.
  assert (Hd : exists val, read_or_nil block "default" = Return (Some val)
                           /\ default_text (Some val) = Return text
                           /\ text <> "").
  { unfold read_or_nil, readBlockAttribute. rewrite Hattr, Hexpr.
    destruct Hcase as [[= <- <-]|[[= <- <-]|[[= <- <-]|[]]]]; simpl;
      eexists; (split; [reflexivity|]); (split; [reflexivity | discriminate]). }
  destruct Hd as (val & Hread & Htext & Hne).
  split; [|split].
  - rewrite Hread. exact Htext.
  - intros input H. apply listInputs_block_default in H as (dv & Hdv & H).
    rewrite Hread in Hdv. injection Hdv as <-. rewrite Htext in H. injection H as H.
    split; [congruence|]. unfold IsRequired. rewrite <- H. by apply String.eqb_neq.
  - intros Hdesc Htype. unfold listInputs_block. rewrite HT, HL.
    change (String.eqb "variable" "variable") with true. cbv beta iota.
    rewrite (nonempty_length name Hname).
    unfold read_or_nil at 1 2. unfold readBlockAttribute at 1 2.
    rewrite Hdesc, Htype, Hread. cbn [bind attr_text]. rewrite Htext. reflexivity.
Qed.

End DefaultProperties.

(** ** The properties on the sample inputs *)

Section OnSamples.
Import Hcl Samples.

(** The three literal defaults of C3, and a default past the range of
    a float64, which is the fatal error of extraction. *)
Example default_5 :
  listInputs_block variable_default_5
  = Return (Some (mkParsedInput "X" "No description for X" "No type for X" "5")).
Proof. reflexivity. Qed.

Example default_a :
  listInputs_block variable_default_a
  = Return (Some (mkParsedInput "X" "No description for X" "No type for X"
                    (String (ascii_of_nat 34) (String "a" (String (ascii_of_nat 34) ""))))).
Proof. reflexivity. Qed.

Example default_true :
  listInputs_block variable_default_true
  = Return (Some (mkParsedInput "X" "No description for X" "No type for X" "true")).
Proof. reflexivity. Qed.

Example default_huge :
  listInputs_block variable_default_huge
  = Error (ErrWithStackTrace (ErrMsg "value out of range")).
Proof. vm_compute. reflexivity. Qed.

(** A non-string description and a non-string type. *)
Example description_5 : listInputs_block variable_description_5 = Panic "not a string".
Proof. reflexivity. Qed.

Example type_true : listInputs_block variable_type_true = Panic "not a string".
Proof. reflexivity. Qed.

(** The type [list(string)] is read as the name [string], and the
    default [var.region] as the name [var]. *)
Example type_list_of_string :
  listInputs_block variable_type_list
  = Return (Some (mkParsedInput "X" "No description for X" "string" "")).
Proof. reflexivity. Qed.

Example default_var_region :
  readBlockAttribute variable_default_var "default" = Return (Some (StringVal "var")).
Proof. reflexivity. Qed.

(** Extraction over the module directory: the file that cannot be read
    and the file that does not parse are passed over, the inputs come in
    the order of the walk. *)
Example listInputs_module_dir :
  listTerraformFiles module_dir "/tmp/scaffold"
  = (["/tmp/scaffold/broken.tf"; "/tmp/scaffold/main.tf";
      "/tmp/scaffold/modules/extra.tf"; "/tmp/scaffold/secret.tf"], None)
  /\ listInputs ReadFile ParseHCL module_dir "/tmp/scaffold"
     = Return
         [mkParsedInput "instance_count" "No description for instance_count"
            "No type for instance_count" "";
          mkParsedInput "X" "No description for X" "No type for X" "";
          mkParsedInput "region" "No description for region" "No type for region"
            (String (ascii_of_nat 34) ("us-east-1" ++ String (ascii_of_nat 34) ""))].
Proof. split; vm_compute; reflexivity. Qed.

(** A subdirectory that cannot be listed fails the walk and with it
    the extraction. *)
Example listInputs_locked_dir :
  listInputs read_any (parse_as [variable_X]) locked_dir "/tmp/scaffold"
  = Error (ErrWithStackTrace (ErrMsg "permission denied")).
Proof. vm_compute. reflexivity. Qed.

(** A default past the float64 range fails the extraction, and a
    variable block without labels makes it panic. *)
Example listInputs_huge_default :
  listInputs read_any (parse_as [variable_X; variable_default_huge]) single_dir "/tmp/scaffold"
  = Error (ErrWithStackTrace (ErrMsg "value out of range")).
Proof. vm_compute. reflexivity. Qed.

Example listInputs_unlabelled :
  listInputs read_any (parse_as [variable_X; variable_unlabelled]) single_dir "/tmp/scaffold"
  = Panic "index out of range [0] with length 0".
Proof. vm_compute. reflexivity. Qed.

Lemma reached_single (blocks : list Block) (block : Block) :
  In block blocks ->
  reached read_any (parse_as blocks) single_dir "/tmp/scaffold" block.
Proof.
  intros H. exists ["/tmp/scaffold/main.tf"], "/tmp/scaffold/main.tf", "main",
    (mkBody ∅ blocks), [].
  repeat split; [by left | assumption].
Defined.

(** C2 at [variable X {}], in a directory with one file. *)
Lemma C2_witness :
  listInputs_block variable_X
  = Return (Some (mkParsedInput "X" "No description for X" "No type for X" ""))
  /\ In (mkParsedInput "X" "No description for X" "No type for X" "")
       (fst (Run_separate_inputs
               [mkParsedInput "X" "No description for X" "No type for X" ""])).
Proof.
  destruct (C2_variable_without_attributes variable_X "X" [] eq_refl eq_refl
              ltac:(discriminate) eq_refl) as (H1 & _ & H3).
  split; [exact H1|].
  apply (H3 read_any (parse_as [variable_X]) single_dir "/tmp/scaffold").
  - apply reached_single. left. reflexivity.
  - reflexivity.
Defined.

(** C3 at [variable X { default = 5 }]. *)
Lemma C3_witness :
  listInputs_block variable_default_5
  = Return (Some (mkParsedInput "X" "No description for X" "No type for X" "5")).
Proof.
  refine (proj2 (proj2 (C3_literal_defaults variable_default_5 "X" []
                          (LiteralValueExpr (NumberIntVal 5)) "5" _ _ _ _ _)) _ _);
    try reflexivity.
  - discriminate.
  - eexists. split; reflexivity.
  - left. reflexivity.
Defined.

(** C5 at [type = list(string)]. *)
Lemma C5_witness :
  exists root steps,
    [TraverseRoot "string"] = TraverseRoot root :: steps
    /\ readBlockAttribute variable_type_list "type" = Return (Some (StringVal root)).
Proof.
  refine (proj1 (C5_readBlockAttribute_first_variable_or_value variable_type_list "type"
                   (mkAttribute "type" (Some list_of_string)) list_of_string _ _)
            [TraverseRoot "string"] [] _); reflexivity.
Defined.

(** C5 as the specification states it fails at [default = [a, b]]: the
    expression refers to
    two variables, its evaluation in the empty context has errors, and
    the resolver returns the string of the first name without an
    error. *)
Lemma C5_counterexample_two_variables :
  List.length (Variables tuple_a_b) = 2%nat
  /\ HasErrors (snd (Value tuple_a_b)) = true
  /\ readBlockAttribute variable_default_a_b "default" = Return (Some (StringVal "a")).
Proof. repeat split. Qed.


(** Resolution on a locator without [ref] and on one with [ref=v0.9]. *)
Example resolve_no_ref :
  Run_resolve_ref split_root "" latest_v1_2_3 locator_no_ref
  = ([("org", "repo")],
     Return (mkURL "https" "github.com" "/org/repo" "depth=1&ref=v1.2.3")).
Proof. vm_compute. reflexivity. Qed.

Example resolve_with_ref :
  Run_resolve_ref split_root "" latest_v1_2_3 locator_with_ref
  = ([], Return locator_with_ref).
Proof. vm_compute. reflexivity. Qed.

(** C10 at [variable X { description = 5 }]. *)
Lemma C10_witness : exists msg, listInputs_block variable_description_5 = Panic msg.
Proof.
  refine (proj1 (C10_non_string_description_or_type_panics variable_description_5 "X" []
                   (NumberIntVal 5) _ _ _ _ _)); try reflexivity.
  - discriminate.
  - discriminate.
  - left. reflexivity.
Defined.

End OnSamples.


(** * Further properties *)

(** ** Strings *)

Section StringFacts.
Import Notions.

Lemma length_append (a b : string) :
  String.length (a ++ b) = (String.length a + String.length b)%nat.
Proof.
  induction a as [|x a IH]; [reflexivity|]. rewrite append_cons. simpl. by rewrite IH.
Qed.

Lemma take_append (a b : string) : take (String.length a) (a ++ b) = a.
Proof.
  induction a as [|x a IH]; [by destruct b|]. rewrite append_cons. simpl. by rewrite IH.
Qed.

Lemma drop_append (a b : string) : drop (String.length a) (a ++ b) = b.
Proof. induction a as [|x a IH]; [reflexivity|]. rewrite append_cons. simpl. exact IH. Qed.

Lemma take_all (a : string) : take (String.length a) a = a.
Proof. induction a as [|x a IH]; [reflexivity|]. simpl. by rewrite IH. Qed.

Lemma prefix_append (a b : string) : String.prefix a (a ++ b) = true.
Proof.
  induction a as [|x a IH]; [by destruct b|]. rewrite append_cons. simpl.
  destruct (ascii_dec x x); [exact IH | congruence].
Qed.

Lemma prefix_split (a s : string) :
  String.prefix a s = true -> exists b, s = (a ++ b)%string.
Proof.
  revert s. induction a as [|x a IH]; intros s H; [by exists s|].
  destruct s as [|y s]; [discriminate|]. simpl in H.
  destruct (ascii_dec x y) as [->|]; [|discriminate].
  destruct (IH s H) as [b ->]. by exists b.
Qed.

Lemma without_cons (c x : ascii) (s : string) :
  without c (String x s) <-> x <> c /\ without c s.
Proof.
  unfold without. simpl. rewrite orb_false_iff. split.
  - intros [H1 H2]. split; [|assumption]. intros ->. by rewrite Ascii.eqb_refl in H1.
  - intros [H1 H2]. split; [|assumption]. apply Ascii.eqb_neq. congruence.
Qed.

End StringFacts.

(** ** The matcher *)

Section MatcherFacts.
Import Notions.
Context {R : Type}.
Implicit Types (k : string -> list string -> option R).

Lemma m_lits (t : string) (r : regex) (s : string) caps k :
  m (lits t r) (t ++ s) caps k = m r s caps k.
Proof.
  induction t as [|c t IH]; [reflexivity|]. rewrite append_cons. simpl.
  by rewrite Ascii.eqb_refl.
Qed.

Lemma m_lits_Some (t : string) (r : regex) (s : string) caps k x :
  m (lits t r) s caps k = Some x ->
  exists s', s = (t ++ s')%string /\ m r s' caps k = Some x.
Proof.
  revert s. induction t as [|c t IH]; intros s H; [by exists s|].
  simpl in H. destruct s as [|c' s]; [discriminate|].
  destruct (Ascii.eqb c c') eqn:E; [|discriminate]. apply Ascii.eqb_eq in E as <-.
  destruct (IH s H) as (s' & -> & H'). by exists s'.
Qed.

Lemma m_Concat (r1 r2 : regex) (s : string) caps k :
  m (Concat r1 r2) s caps k = m r1 s caps (fun s' caps' => m r2 s' caps' k).
Proof. reflexivity. Qed.

Lemma m_Capture (i : nat) (r : regex) (s : string) caps k :
  m (Capture i r) s caps k
  = m r s caps (fun s' caps' =>
                  k s' (<[i := take (String.length s - String.length s') s]> caps')).
Proof. reflexivity. Qed.

Lemma m_Lit (c : ascii) (s : string) caps k :
  m (Lit c) (String c s) caps k = k s caps.
Proof. simpl. by rewrite Ascii.eqb_refl. Qed.

Lemma class_step_NotLit (c : ascii) :
  class_step (R := R) (fun y => negb (Ascii.eqb c y)) (m (NotLit c)).
Proof. intros [|y s] caps k; simpl; [reflexivity|]. by destruct (Ascii.eqb c y). Qed.

Lemma class_step_AnyCharNotNL :
  class_step (R := R) (fun y => negb (Ascii.eqb newline y)) (m AnyCharNotNL).
Proof.
  intros [|y s] caps k; [reflexivity|]. cbn [m]. by destruct (Ascii.eqb newline y).
Qed.

(** The greedy loop takes a whole run of the class when what follows
    the run is accepted. *)
Lemma star_loop_run ok step (w rest : string) caps k (fuel : nat) x :
  class_step ok step ->
  all_bytes ok w = true -> stops ok rest ->
  (String.length w <= fuel)%nat ->
  k rest caps = Some x ->
  star_loop step k fuel (w ++ rest) caps = Some x.
Proof.
  intros Hstep. revert fuel. induction w as [|y w IH]; intros fuel Hw Hrest Hfuel Hk.
  - change ("" ++ rest)%string with rest. destruct fuel as [|fuel]; [exact Hk|].
    simpl. rewrite Hstep. destruct rest as [|c rest]; [exact Hk|].
    simpl in Hrest. by rewrite Hrest.
  - simpl in Hw. apply andb_true_iff in Hw as [Hy Hw]. rewrite append_cons.
    destruct fuel as [|fuel]; [simpl in Hfuel; lia|]. simpl in Hfuel.
    simpl. rewrite Hstep, Hy.
    assert (E : (String.length (w ++ rest) <? S (String.length (w ++ rest)))%nat = true)
      by (apply Nat.ltb_lt; lia).
    simpl in E. rewrite E. rewrite (IH fuel); [reflexivity|assumption|assumption|lia|assumption].
Qed.

Lemma plus_run ok (r : regex) (w rest : string) caps k x :
  class_step (R := R) ok (m r) ->
  w <> "" -> all_bytes ok w = true -> stops ok rest ->
  k rest caps = Some x ->
  m (Plus r) (w ++ rest) caps k = Some x.
Proof.
  intros Hstep Hne Hw Hrest Hk. destruct w as [|y w]; [congruence|].
  simpl in Hw. apply andb_true_iff in Hw as [Hy Hw]. rewrite append_cons.
  simpl. rewrite Hstep, Hy.
  apply star_loop_run with (ok := ok); auto. rewrite length_append. lia.
Qed.

Lemma star_run ok (r : regex) (w rest : string) caps k x :
  class_step (R := R) ok (m r) ->
  all_bytes ok w = true -> stops ok rest ->
  k rest caps = Some x ->
  m (Star r) (w ++ rest) caps k = Some x.
Proof.
  intros Hstep Hw Hrest Hk. simpl.
  apply star_loop_run with (ok := ok); auto. rewrite length_append. lia.
Qed.

End MatcherFacts.

(** ** Taking a locator apart *)

Section ParseUrlFacts.
Import Notions.

Lemma without_all_bytes (c : ascii) (w : string) :
  without c w -> all_bytes (fun y => negb (Ascii.eqb c y)) w = true.
Proof.
  unfold without. induction w as [|y w IH]; simpl; [reflexivity|].
  intros H. apply orb_false_iff in H as [H1 H2]. by rewrite H1, IH.
Qed.

Lemma take_captured (w rest : string) :
  take (String.length (w ++ rest) - String.length rest) (w ++ rest) = w.
Proof.
  rewrite length_append.
  replace (String.length w + String.length rest - String.length rest)%nat
    with (String.length w) by lia.
  apply take_append.
Qed.

Lemma match_here_git_locator (scheme host path : string) :
  scheme <> "" -> without ":" scheme ->
  host <> "" -> without "/" host ->
  String.prefix "/" path = true -> without newline path ->
  match_here 3 pattern (git_locator scheme host path)
  = Some [git_locator scheme host path; scheme; host; path].
Proof.
  intros Hs1 Hs2 Hh1 Hh2 Hp1 Hp2.
  destruct (prefix_split "/" path Hp1) as [p ->]. clear Hp1.
  change ("/" ++ p)%string with (String "/" p) in *.
  apply without_cons in Hp2 as [_ Hp2].
  unfold match_here, pattern, git_locator.
  rewrite m_Capture, m_lits, m_Concat, m_Capture.
  apply plus_run with (ok := fun y => negb (Ascii.eqb ":" y));
    [apply class_step_NotLit | assumption | by apply without_all_bytes | reflexivity |].
  cbv beta. rewrite m_lits, m_Concat, m_Capture.
  apply plus_run with (ok := fun y => negb (Ascii.eqb "/" y));
    [apply class_step_NotLit | assumption | by apply without_all_bytes | reflexivity |].
  cbv beta. rewrite m_Capture, m_Concat, m_Lit.
  rewrite <- (append_nil_r p) at 1.
  apply star_run with (ok := fun y => negb (Ascii.eqb newline y));
    [apply class_step_AnyCharNotNL | by apply without_all_bytes | exact I |].
  rewrite !take_captured. change (String.length "") with 0%nat.
  rewrite !Nat.sub_0_r, !take_all. reflexivity.
Qed.

Lemma search_here (n : nat) (r : regex) (s : string) (caps : list string) :
  match_here n r s = Some caps -> search n r s = Some caps.
Proof. intros H. destruct s; simpl; by rewrite H. Qed.

(** X1. A locator of the form [git::<scheme>://<host><path>], with a
    scheme that is not empty and has no colon, a host that is not empty
    and has no slash, and a path that starts with a slash and has no line
    feed, is taken apart by [parseUrl] into exactly that scheme, host and
    path. *)
Theorem X1_parseUrl_of_git_locator (scheme host path : string) :
  scheme <> "" -> without ":" scheme ->
  host <> "" -> without "/" host ->
  String.prefix "/" path = true -> without newline path ->
  parseUrl (git_locator scheme host path) = (scheme, host, path).
Proof.
  intros Hs1 Hs2 Hh1 Hh2 Hp1 Hp2. unfold parseUrl, FindStringSubmatch.
  assert (E : search 3 pattern (git_locator scheme host path)
              = Some [git_locator scheme host path; scheme; host; path]).
  { by apply search_here, match_here_git_locator. }
  rewrite E. reflexivity.
Qed.

Lemma search_inv (n : nat) (r : regex) (s : string) (caps : list string) :
  search n r s = Some caps ->
  match_here n r s = Some caps
  \/ exists c s', s = String c s' /\ search n r s' = Some caps.
Proof.
  destruct s as [|c s]; cbn [search]; destruct (match_here n r _); intros H;
    try discriminate; eauto.
Qed.

Lemma match_here_marker (s : string) (caps : list string) :
  match_here 3 pattern s = Some caps -> exists s', s = ("git::" ++ s')%string.
Proof.
  unfold match_here, pattern. rewrite m_Capture. intros H.
  apply m_lits_Some in H as (s' & E & _). eauto.
Qed.

Lemma Contains_prefix (s sub : string) :
  String.prefix sub s = true -> Contains s sub = true.
Proof. intros H. destruct s; cbn [Contains]; by rewrite H. Qed.

(** A text in which the marker [git::] does not occur has no match. *)
Lemma search_needs_marker (s : string) (caps : list string) :
  search 3 pattern s = Some caps -> Contains s "git::" = true.
Proof.
  induction s as [|c s IH]; intros H; apply search_inv in H as [H|(c' & s' & E & H)].
  - apply match_here_marker in H as [s' E]. discriminate.
  - discriminate.
  - apply match_here_marker in H as [s' E].
    rewrite Contains_prefix; [reflexivity|]. rewrite E. apply prefix_append.
  - injection E as <- <-. cbn [Contains]. rewrite (IH H). apply orb_true_r.
Qed.

(** X2. [parseUrl] gives three empty texts for every locator in which
    the marker [git::] does not occur, and the step that prepares the
    source URL leaves such a locator as it is, whatever the variables. *)
Theorem X2_no_marker_no_match (vars : gmap string VarValue) (moduleUrl : string) :
  Contains moduleUrl "git::" = false ->
  parseUrl moduleUrl = ("", "", "")
  /\ Run_prepare_source_url vars moduleUrl = moduleUrl.
Proof.
  intros H.
  assert (E : parseUrl moduleUrl = ("", "", "")).
  { unfold parseUrl, FindStringSubmatch.
    destruct (search 3 pattern moduleUrl) as [caps|] eqn:E; [|reflexivity].
    apply search_needs_marker in E. congruence. }
  split; [exact E|]. unfold Run_prepare_source_url. rewrite E. reflexivity.
Qed.

(** X3. Unless the variable [SourceUrlType] is set and reads [git-ssh],
    the step that prepares the source URL leaves every locator as it
    is. *)
Theorem X3_unchanged_unless_git_ssh (vars : gmap string VarValue) (moduleUrl : string) :
  (forall value, vars !! "SourceUrlType" = Some value -> Sprintf_s value <> "git-ssh") ->
  Run_prepare_source_url vars moduleUrl = moduleUrl.
Proof.
  intros H. unfold Run_prepare_source_url.
  destruct (parseUrl moduleUrl) as [[scheme host] path].
  destruct (negb (String.eqb scheme "")); [|reflexivity].
  destruct (String.eqb scheme SourceUrlTypeHttps); [|reflexivity]. simpl.
  destruct (vars !! "SourceUrlType") as [value|] eqn:E.
  - specialize (H value eq_refl). apply String.eqb_neq in H.
    unfold SourceUrlTypeGit. by rewrite H.
  - reflexivity.
Qed.

(** X4. When [SourceUrlType] reads [git-ssh], a locator
    [git::git-https://<host><path>] (host not empty and without slash,
    path starting with a slash and without line feed) becomes
    [<user>@<host>:<path without its first slash>], where the user is the
    text of the variable [SourceGitSshUser] when it is set and [git]
    otherwise. *)
Theorem X4_git_https_locator_rewritten
  (vars : gmap string VarValue) (value : VarValue) (host path : string) :
  vars !! "SourceUrlType" = Some value ->
  Sprintf_s value = "git-ssh" ->
  host <> "" -> without "/" host ->
  String.prefix "/" path = true -> without newline path ->
  Run_prepare_source_url vars (git_locator "git-https" host path)
  = (match vars !! "SourceGitSshUser" with
     | Some user => Sprintf_s user
     | None => "git"
     end ++ "@" ++ host ++ ":" ++ drop 1 path)%string.
Proof.
  intros Hv Hs Hh1 Hh2 Hp1 Hp2. unfold Run_prepare_source_url.
  assert (E : parseUrl (git_locator "git-https" host path) = ("git-https", host, path)).
  { unfold parseUrl, FindStringSubmatch.
    rewrite (search_here _ _ _ _
               (match_here_git_locator "git-https" host path ltac:(discriminate)
                  eq_refl Hh1 Hh2 Hp1 Hp2)).
    reflexivity. }
  rewrite E, Hv, Hs. unfold HasPrefix. rewrite Hp1. reflexivity.
Qed.

End ParseUrlFacts.

(** ** Owner and repository *)

Section ReleaseFacts.
Import Notions.

Lemma rev_app_rev_app (w cur acc : string) :
  String.rev_app (String.rev_app w cur) acc = String.rev_app cur (w ++ acc).
Proof.
  revert cur. induction w as [|c w IH]; intros cur; [reflexivity|].
  rewrite append_cons. simpl. rewrite IH. reflexivity.
Qed.

Lemma rev_rev_app (w : string) : String.rev (String.rev_app w "") = w.
Proof.
  unfold String.rev. rewrite rev_app_rev_app. simpl. apply append_nil_r.
Qed.

(** The loop of [Split] at a separator of one byte [c]: a part without
    [c] that a [c] follows is cut off there. *)
Lemma split_go_part (c : ascii) (w rest cur : string) :
  without c w ->
  split_go (String c "") 0 cur (w ++ String c rest)
  = String.rev (String.rev_app w cur) :: split_go (String c "") 0 "" rest.
Proof.
  revert cur. induction w as [|y w IH]; intros cur Hw.
  - change ("" ++ String c rest)%string with (String c rest). cbn [split_go].
    assert (E : String.prefix (String c "") (String c rest) = true).
    { simpl. destruct (ascii_dec c c); [by destruct rest | congruence]. }
    rewrite E. reflexivity.
  - apply without_cons in Hw as [Hy Hw]. rewrite append_cons. cbn [split_go].
    assert (E : String.prefix (String c "") (String y (w ++ String c rest)) = false).
    { simpl. destruct (ascii_dec c y); [congruence | reflexivity]. }
    rewrite E. apply IH, Hw.
Qed.

Lemma split_go_last (c : ascii) (w cur : string) :
  without c w ->
  split_go (String c "") 0 cur w = [String.rev (String.rev_app w cur)].
Proof.
  revert cur. induction w as [|y w IH]; intros cur Hw; [reflexivity|].
  apply without_cons in Hw as [Hy Hw]. cbn [split_go].
  assert (E : String.prefix (String c "") (String y w) = false).
  { simpl. destruct (ascii_dec c y); [congruence | reflexivity]. }
  rewrite E. apply IH, Hw.
Qed.

Lemma Split_part (c : ascii) (w rest : string) :
  without c w ->
  Split (w ++ String c rest) (String c "") = w :: Split rest (String c "").
Proof. intros H. unfold Split. by rewrite split_go_part, rev_rev_app. Qed.

Lemma Split_last (c : ascii) (w : string) :
  without c w -> Split w (String c "") = [w].
Proof. intros H. unfold Split. by rewrite split_go_last, rev_rev_app. Qed.

Lemma TrimSuffix_append (name suffix : string) :
  TrimSuffix (name ++ suffix) suffix = name.
Proof.
  unfold TrimSuffix, HasSuffix. rewrite length_append.
  replace (String.length name + String.length suffix - String.length suffix)%nat
    with (String.length name) by lia.
  rewrite drop_append, String.eqb_refl, take_append.
  assert (E : (String.length suffix <=? String.length name + String.length suffix)%nat = true)
    by (apply Nat.leb_le; lia).
  by rewrite E.
Qed.

(** X5. For a root locator whose path is [<first>/<owner>/<repo>], with
    or without further segments after a slash, none of the three parts
    holding a slash, [getLatestReleaseTag] makes exactly one lookup, of
    [<owner>] and of [<repo>] without its suffix [.git], and returns what
    the lookup returns; the first part (empty for a path that starts with
    a slash) is not looked at. *)
Theorem X5_getLatestReleaseTag_owner_repo
  (token : string) (GetLatestRelease : string -> string -> string -> outcome string)
  (u : URL) (first owner repo more : string) :
  without "/" first -> without "/" owner -> without "/" repo ->
  Path u = (first ++ "/" ++ owner ++ "/" ++ repo)%string
  \/ Path u = (first ++ "/" ++ owner ++ "/" ++ repo ++ "/" ++ more)%string ->
  getLatestReleaseTag token GetLatestRelease u
  = ([(owner, TrimSuffix repo ".git")],
     GetLatestRelease token owner (TrimSuffix repo ".git")).
Proof.
  intros Hf Ho Hr HP. unfold getLatestReleaseTag.
  assert (E : exists tail, Split (Path u) "/" = first :: owner :: repo :: tail).
  { destruct HP as [-> | ->].
    - exists []. change ("/" ++ owner ++ "/" ++ repo)%string
        with (String "/" (owner ++ String "/" repo)).
      rewrite (Split_part "/" first) by assumption.
      rewrite (Split_part "/" owner) by assumption.
      by rewrite (Split_last "/" repo).
    - eexists. change ("/" ++ owner ++ "/" ++ repo ++ "/" ++ more)%string
        with (String "/" (owner ++ String "/" (repo ++ String "/" more))).
      rewrite (Split_part "/" first) by assumption.
      rewrite (Split_part "/" owner) by assumption.
      rewrite (Split_part "/" repo) by assumption. reflexivity. }
  destruct E as [tail ->]. reflexivity.
Qed.

End ReleaseFacts.

(** ** Failures of the resolution *)

Section ResolutionFailures.
Variable SplitSourceUrl : URL -> outcome URL.
Variable token : string.
Variable GetLatestRelease : string -> string -> string -> outcome string.

(** X6. With no [ref] in the locator: an error of [SplitSourceUrl] is
    returned, with its stack trace; an error of the release lookup, or a
    root path of one part, leaves the locator as it was and is no error
    of the step; a root path of exactly two parts makes the step panic,
    before any lookup. *)
Theorem X6_failures_of_the_resolution (parsedModuleUrl : URL) :
  Get (Query parsedModuleUrl) "ref" = "" ->
  let r := Run_resolve_ref SplitSourceUrl token GetLatestRelease parsedModuleUrl in
  (forall err, SplitSourceUrl parsedModuleUrl = Error err ->
               r = ([], Error (ErrWithStackTrace err)))
  /\ (forall root first owner repo rest err,
        SplitSourceUrl parsedModuleUrl = Return root ->
        Split (Path root) "/" = first :: owner :: repo :: rest ->
        GetLatestRelease token owner (TrimSuffix repo ".git") = Error err ->
        r = ([(owner, TrimSuffix repo ".git")], Return parsedModuleUrl))
  /\ (forall root,
        SplitSourceUrl parsedModuleUrl = Return root ->
        (List.length (Split (Path root) "/") < 2)%nat ->
        r = ([], Return parsedModuleUrl))
  /\ (forall root,
        SplitSourceUrl parsedModuleUrl = Return root ->
        List.length (Split (Path root) "/") = 2%nat ->
        r = ([], Panic "index out of range [2] with length 2")).
Proof.
  intros Href. cbv zeta. unfold Run_resolve_ref. rewrite Href. cbn [String.eqb].
  split; [|split; [|split]].
  - by intros err ->.
  - intros root first owner repo rest err -> HS HL. unfold getLatestReleaseTag.
    rewrite HS. simpl. by rewrite HL.
  - intros root -> HS. unfold getLatestReleaseTag.
    apply Nat.ltb_lt in HS. by rewrite HS.
  - intros root -> HS. unfold getLatestReleaseTag.
    destruct (Split (Path root) "/") as [|a [|b [|c rest]]]; try discriminate.
    reflexivity.
Qed.

End ResolutionFailures.

(** ** Panics and errors of the extraction *)

Section ValueInduction.
Variable P : Cty.Value -> Prop.
Hypothesis HString : forall s, P (StringVal s).
Hypothesis HNumber : forall n, P (NumberIntVal n).
Hypothesis HBool : forall b, P (BoolVal b).
Hypothesis HNull : P NullVal.
Hypothesis HDynamic : P DynamicVal.
Hypothesis HUnknown : P UnknownStringVal.
Hypothesis HTuple : forall vals, Forall P vals -> P (TupleVal vals).
Hypothesis HObject : forall attrs, Forall (fun kv => P (snd kv)) attrs -> P (ObjectVal attrs).

Lemma Value_nested_ind : forall v, P v.
Proof.
  fix IH 1. intros [s|n|b| | | |vals|attrs].
  - apply HString.
  - apply HNumber.
  - apply HBool.
  - apply HNull.
  - apply HDynamic.
  - apply HUnknown.
  - apply HTuple. induction vals; constructor; [apply IH | assumption].
  - apply HObject. induction attrs as [|[k v] attrs IHattrs]; constructor;
      [apply IH | assumption].
Qed.
End ValueInduction.

Section JsonInduction.
Variable P : json -> Prop.
Hypothesis HNull : P JNull.
Hypothesis HBool : forall b, P (JBool b).
Hypothesis HNumber : forall n, P (JNumber n).
Hypothesis HString : forall s, P (JString s).
Hypothesis HArray : forall items, Forall P items -> P (JArray items).
Hypothesis HObject : forall members, Forall (fun kv => P (snd kv)) members -> P (JObject members).

Lemma json_nested_ind : forall j, P j.
Proof.
  fix IH 1. intros [|b|n|s|items|members].
  - apply HNull.
  - apply HBool.
  - apply HNumber.
  - apply HString.
  - apply HArray. induction items; constructor; [apply IH | assumption].
  - apply HObject. induction members as [|[k v] members IHmembers]; constructor;
      [apply IH | assumption].
Qed.
End JsonInduction.

Lemma bind_Panic {A B} (x : outcome A) (f : A -> outcome B) (msg : string) :
  bind x f = Panic msg -> x = Panic msg \/ exists a, x = Return a /\ f a = Panic msg.
Proof. destruct x; simpl; intros H; try discriminate; [right; eauto | left; congruence]. Qed.

Lemma ctyjson_Marshal_no_panic (val : Cty.Value) (msg : string) :
  ctyjson_Marshal val <> Panic msg.
Proof.
  revert msg. induction val as [s|n|b| | | |vals IH|attrs IH] using Value_nested_ind;
    intros msg; simpl; try discriminate.
  - intros H. apply bind_Panic in H as [H|(items & _ & H)]; [|discriminate].
    revert msg H. induction IH as [|x l Hx _ IHl]; intros msg H; [discriminate|].
    apply bind_Panic in H as [H|(x' & _ & H)]; [by apply Hx in H|].
    apply bind_Panic in H as [H|(r & _ & H)]; [by apply IHl in H | discriminate].
  - intros H. apply bind_Panic in H as [H|(items & _ & H)]; [|discriminate].
    revert msg H. induction IH as [|[k x] l Hx _ IHl]; intros msg H; [discriminate|].
    apply bind_Panic in H as [H|(x' & _ & H)]; [by apply Hx in H|].
    apply bind_Panic in H as [H|(r & _ & H)]; [by apply IHl in H | discriminate].
Qed.

Lemma Unmarshal_no_panic (j : json) (msg : string) : Unmarshal j <> Panic msg.
Proof.
  revert msg. induction j as [|b|n|s|items IH|members IH] using json_nested_ind;
    intros msg; simpl; try discriminate.
  - unfold ParseFloat. destruct (_ <=? _)%Z; discriminate.
  - intros H. apply bind_Panic in H as [H|(items' & _ & H)]; [|discriminate].
    revert msg H. induction IH as [|x l Hx _ IHl]; intros msg H; [discriminate|].
    apply bind_Panic in H as [H|(x' & _ & H)]; [by apply Hx in H|].
    apply bind_Panic in H as [H|(r & _ & H)]; [by apply IHl in H | discriminate].
  - intros H. apply bind_Panic in H as [H|(items' & _ & H)]; [|discriminate].
    revert msg H. induction IH as [|[k x] l Hx _ IHl]; intros msg H; [discriminate|].
    apply bind_Panic in H as [H|(x' & _ & H)]; [by apply Hx in H|].
    apply bind_Panic in H as [H|(r & _ & H)]; [by apply IHl in H | discriminate].
Qed.

Lemma default_text_no_panic (defaultValue : option Cty.Value) (msg : string) :
  default_text defaultValue <> Panic msg.
Proof.
  destruct defaultValue as [val|]; simpl; [|discriminate].
  destruct (ctyjson_Marshal val) as [j| |m] eqn:E; try discriminate.
  - destruct (Unmarshal j) as [j'| |m] eqn:E'; try discriminate.
    by apply Unmarshal_no_panic in E'.
  - by apply ctyjson_Marshal_no_panic in E.
Qed.

Section PanicFacts.
Import Hcl.

Lemma readBlockAttribute_no_panic (block : Block) (name msg : string) :
  readBlockAttribute block name <> Panic msg.
Proof.
  unfold readBlockAttribute.
  destruct (Attributes (Body_ block) !! name) as [attr|]; [|discriminate].
  destruct (Expr attr) as [expr|]; [|discriminate].
  assert (HE : match Value expr with
               | (value, []) => Return (Some value)
               | (_, err) => Error (ErrDiags err)
               end <> Panic msg)
    by (destruct (Value expr) as [value [|d ds]]; discriminate).
  destruct (Variables expr) as [|v rest] eqn:E; [exact HE|].
  destruct (Variables_rooted expr v) as (root & steps & ->); [rewrite E; by left|].
  discriminate.
Qed.

(** X8. The attribute resolver never panics. It returns nil without an
    error exactly when the block has no such attribute or the attribute
    has no expression, and it returns an error only for an expression
    that refers to no variable and whose evaluation in the empty context
    leaves diagnostics, which are the error. *)
Theorem X8_readBlockAttribute_outcomes (block : Block) (name : string) :
  (forall msg, readBlockAttribute block name <> Panic msg)
  /\ (readBlockAttribute block name = Return None
      <-> Attributes (Body_ block) !! name = None
          \/ exists attr, Attributes (Body_ block) !! name = Some attr /\ Expr attr = None)
  /\ (forall err,
        readBlockAttribute block name = Error err ->
        exists expr, has_attribute block name expr
                     /\ Variables expr = []
                     /\ snd (Value expr) <> []
                     /\ err = ErrDiags (snd (Value expr))).
Proof.
  split; [intros msg; apply readBlockAttribute_no_panic|].
  unfold readBlockAttribute, has_attribute.
  destruct (Attributes (Body_ block) !! name) as [attr|];
    [|split; [split; [by left | reflexivity] | discriminate]].
  destruct (Expr attr) as [expr|] eqn:HE;
    [|split; [split; [right; eauto | reflexivity] | discriminate]].
  destruct (Variables expr) as [|v rest] eqn:EV.
  - destruct (Value expr) as [value [|d ds]] eqn:EVal; split.
    + split; [discriminate|]. intros [H|(a & H & H')]; congruence.
    + discriminate.
    + split; [discriminate|]. intros [H|(a & H & H')]; congruence.
    + intros err [= <-]. exists expr. simpl.
      rewrite EVal. simpl.
      split; [by exists attr|]. split; [exact EV|]. split; [discriminate | reflexivity].
  - destruct (Variables_rooted expr v) as (root & steps & ->); [rewrite EV; by left|].
    split; [|discriminate].
    split; [discriminate|]. intros [H|(a & H & H')]; congruence.
Qed.

Lemma read_or_nil_Some (block : Block) (name : string) (val : Cty.Value) :
  read_or_nil block name = Return (Some val) ->
  readBlockAttribute block name = Return (Some val).
Proof. unfold read_or_nil. destruct (readBlockAttribute block name); congruence. Qed.

Lemma read_or_nil_no_panic (block : Block) (name msg : string) :
  read_or_nil block name <> Panic msg.
Proof.
  unfold read_or_nil. destruct (readBlockAttribute block name) eqn:E; try discriminate.
  by apply readBlockAttribute_no_panic in E.
Qed.

Lemma attr_text_Panic (attr : option Cty.Value) (placeholder msg : string) :
  attr_text attr placeholder = Panic msg ->
  exists val, attr = Some val /\ forall s, val <> StringVal s.
Proof.
  destruct attr as [val|]; [|discriminate]. intros H. exists val. split; [reflexivity|].
  intros s ->. discriminate.
Qed.

(** X9. The loop body panics only in two ways: on a variable block
    without labels, and on a variable block whose [description] or [type]
    resolves to a value that is not a string. Reading the attributes and
    the text of the default never panic. *)
Theorem X9_panics_of_the_loop_body (block : Block) (msg : string) :
  listInputs_block block = Panic msg ->
  Type_ block = "variable"
  /\ (Labels block = []
      \/ exists val,
           (readBlockAttribute block "description" = Return (Some val)
            \/ readBlockAttribute block "type" = Return (Some val))
           /\ forall s, val <> StringVal s).
Proof.
  unfold listInputs_block.
  destruct (String.eqb (Type_ block) "variable") eqn:ET; [|discriminate].
  apply String.eqb_eq in ET. intros H. split; [exact ET|].
  destruct (Labels block) as [|name rest]; [by left|]. right.
  destruct (0 <? String.length name)%nat; [|discriminate].
  apply bind_Panic in H as [H|(da & Hda & H)]; [by apply read_or_nil_no_panic in H|].
  apply bind_Panic in H as [H|(dt & _ & H)].
  { apply attr_text_Panic in H as (val & -> & Hval).
    exists val. split; [left; by apply read_or_nil_Some | exact Hval]. }
  apply bind_Panic in H as [H|(ta & Hta & H)]; [by apply read_or_nil_no_panic in H|].
  apply bind_Panic in H as [H|(tt & _ & H)].
  { apply attr_text_Panic in H as (val & -> & Hval).
    exists val. split; [right; by apply read_or_nil_Some | exact Hval]. }
  apply bind_Panic in H as [H|(dv & _ & H)]; [by apply read_or_nil_no_panic in H|].
  apply bind_Panic in H as [H|(x & _ & H)]; [by apply default_text_no_panic in H|].
  discriminate.
Qed.

End PanicFacts.

(** ** Defaults *)

Section DefaultFacts.
Import Hcl.

Lemma append_nonempty_l (a b : string) : a <> "" -> (a ++ b)%string <> "".
Proof. destruct a; [congruence|]. rewrite append_cons. discriminate. Qed.

Lemma append_nonempty_r (a b : string) : b <> "" -> (a ++ b)%string <> "".
Proof. destruct a; [by intros|]. rewrite append_cons. discriminate. Qed.

Lemma decimal_nonempty (n : Z) : decimal n <> "".
Proof.
  unfold decimal.
  assert (H : forall d, d <> Decimal.Nil -> NilEmpty.string_of_uint d <> "")
    by (intros [] Hd; simpl; congruence).
  destruct n as [|p|p]; simpl; try discriminate.
  apply H, DecimalPos.Unsigned.to_uint_nonnil.
Qed.

Lemma exp_format_nonempty (c : Z) : exp_format c <> "".
Proof.
  unfold exp_format. destruct (strip_zeros (decimal c)) as [|d1 rest].
  - apply decimal_nonempty.
  - apply append_nonempty_l. discriminate.
Qed.

Lemma float_text_nonempty (v : Z) : float_text v <> "".
Proof.
  unfold float_text. destruct (v =? 0)%Z; [discriminate|].
  apply append_nonempty_r.
  destruct (Z.abs v <? 10 ^ 21)%Z; [apply decimal_nonempty | apply exp_format_nonempty].
Qed.

(** The JSON text of a value is never empty. *)
Lemma Marshal_nonempty (j : json) : Marshal j <> "".
Proof.
  destruct j as [|b|n|s|items|members]; cbn [Marshal].
  - discriminate.
  - by destruct b.
  - apply float_text_nonempty.
  - discriminate.
  - apply append_nonempty_l. discriminate.
  - apply append_nonempty_l. discriminate.
Qed.

Lemma default_text_nonempty (val : Cty.Value) (text : string) :
  default_text (Some val) = Return text -> text <> "".
Proof.
  simpl. destruct (ctyjson_Marshal val) as [j| |]; try discriminate.
  destruct (Unmarshal j) as [j'| |]; try discriminate.
  intros [= <-]. apply Marshal_nonempty.
Qed.

Lemma readBlockAttribute_nil (block : Block) (name : string) :
  readBlockAttribute block name = Return None
  <-> Attributes (Body_ block) !! name = None
      \/ exists attr, Attributes (Body_ block) !! name = Some attr /\ Expr attr = None.
Proof.
  unfold readBlockAttribute.
  destruct (Attributes (Body_ block) !! name) as [attr|]; [|split; [by left | reflexivity]].
  destruct (Expr attr) as [expr|] eqn:HE; [|split; [right; eauto | reflexivity]].
  split; [|intros [H|(a & [= <-] & H)]; congruence].
  destruct (Variables expr) as [|v rest] eqn:EV.
  - destruct (Value expr) as [value [|d ds]]; discriminate.
  - destruct (Variables_rooted expr v) as (root & steps & ->); [rewrite EV; by left|].
    discriminate.
Qed.

(** X10. An input that the loop body returns is required, that is has
    an empty default, exactly when no value of [default] was read: the
    attribute is absent or its evaluation failed. A default that was
    read is never rendered as the empty text. *)
Theorem X10_required_iff_no_default (block : Block) (input : ParsedInput) :
  listInputs_block block = Return (Some input) ->
  (IsRequired input = true <-> read_or_nil block "default" = Return None)
  /\ (IsRequired input = true
      <-> Attributes (Body_ block) !! "default" = None
          \/ (exists attr, Attributes (Body_ block) !! "default" = Some attr
                           /\ Expr attr = None)
          \/ exists err, readBlockAttribute block "default" = Error err).
Proof.
  intros H. apply listInputs_block_default in H as (dv & Hdv & Htext).
  assert (E1 : IsRequired input = true <-> read_or_nil block "default" = Return None).
  { unfold IsRequired. rewrite String.eqb_eq, Hdv. split.
    - intros HD. destruct dv as [val|]; [|reflexivity].
      rewrite HD in Htext. by apply default_text_nonempty in Htext.
    - intros [= ->]. simpl in Htext. congruence. }
  split; [exact E1|]. rewrite E1. clear E1 Hdv Htext.
  unfold read_or_nil.
  pose proof (readBlockAttribute_nil block "default") as HN.
  destruct (readBlockAttribute block "default") as [[val|]|err|msg] eqn:E.
  - split; [discriminate|]. intros [H|[H|[err H]]]; try discriminate.
    + assert (HR : Return (Some val) = Return None) by (apply HN; by left). discriminate.
    + assert (HR : Return (Some val) = Return None) by (apply HN; by right). discriminate.
  - split; [|reflexivity]. intros _. destruct (proj1 HN eq_refl) as [H|H]; auto.
  - split; [|reflexivity]. intros _. right. right. by exists err.
  - by apply readBlockAttribute_no_panic in E.
Qed.

End DefaultFacts.

(** ** Where the inputs come from *)

Section Soundness.
Import Hcl.
Variable ReadFile : string -> option string.
Variable ParseHCL : string -> string -> Body * list Diagnostic.

Lemma listInputs_blocks_sound (blocks : list Block) (acc inputs : list ParsedInput) :
  listInputs_blocks blocks acc = Return inputs ->
  forall d, In d inputs ->
    In d acc \/ exists block, In block blocks /\ listInputs_block block = Return (Some d).
Proof.
  revert acc. induction blocks as [|x rest IH]; simpl; intros acc H d Hd.
  - injection H as <-. by left.
  - apply bind_Return in H as (o & Ho & H).
    destruct (IH _ H d Hd) as [Hacc|(block & Hin & Hb)].
    + destruct o as [i|]; [|by left].
      apply in_app_or in Hacc as [Hacc|[<-|[]]]; [by left|].
      right. exists x. split; [by left | exact Ho].
    + right. exists block. split; [by right | exact Hb].
Qed.

Lemma listInputs_block_name (block : Block) (input : ParsedInput) :
  listInputs_block block = Return (Some input) ->
  Type_ block = "variable"
  /\ (exists rest, Labels block = Name input :: rest)
  /\ Name input <> "".
Proof.
  unfold listInputs_block.
  destruct (String.eqb (Type_ block) "variable") eqn:ET; [|discriminate].
  apply String.eqb_eq in ET.
  destruct (Labels block) as [|name rest]; [discriminate|].
  destruct (0 <? String.length name)%nat eqn:EL; [|discriminate].
  intros H.
  apply bind_Return in H as (da & _ & H). apply bind_Return in H as (dt & _ & H).
  apply bind_Return in H as (ta & _ & H). apply bind_Return in H as (tt & _ & H).
  apply bind_Return in H as (dv & _ & H). apply bind_Return in H as (text & _ & H).
  injection H as <-. simpl. split; [exact ET|]. split; [by exists rest|].
  intros ->. discriminate.
Qed.

(** X11. Every input that [listInputs] returns is the input of a block
    reached in the walk: a variable block, in a file that was read and
    parsed without errors, whose first label is the name of the input;
    and that name is not empty. *)
Theorem X11_inputs_come_from_variable_blocks
  (fs : Node) (directoryPath : string) (inputs : list ParsedInput) :
  listInputs ReadFile ParseHCL fs directoryPath = Return inputs ->
  forall input, In input inputs ->
    Name input <> ""
    /\ exists block,
         reached ReadFile ParseHCL fs directoryPath block
         /\ listInputs_block block = Return (Some input)
         /\ Type_ block = "variable"
         /\ exists rest, Labels block = Name input :: rest.
Proof.
  unfold listInputs.
  destruct (listTerraformFiles fs directoryPath) as [tfFiles [err|]] eqn:EL; [discriminate|].
  rewrite listInputs_files_blocks. intros H input Hin.
  destruct (listInputs_blocks_sound _ _ _ H input Hin) as [[]|(block & Hb & Hr)].
  destruct (listInputs_block_name block input Hr) as (HT & HLab & HN).
  split; [exact HN|]. exists block. split; [|auto].
  apply In_blocks_of_file_inv in Hb as (f & content & body & diags & ?).
  exists tfFiles, f, content, body, diags. tauto.
Qed.

End Soundness.

(** ** Numbers in defaults *)

Section NumberFacts.
Import Hcl.
Local Open Scope Z_scope.

Lemma round_float64_small (a : Z) : 0 <= a < 2 ^ 53 -> round_float64 a = a.
Proof.
  intros [H0 H1]. unfold round_float64.
  assert (E : (Z.log2 a + 1 <=? 53) = true).
  { apply Z.leb_le. destruct (Z.eq_dec a 0) as [->|]; [simpl; lia|].
    assert (Z.log2 a < 53) by (apply Z.log2_lt_pow2; lia). lia. }
  by rewrite E.
Qed.

Lemma round_float64_large (a : Z) : 2 ^ 53 <= a -> 2 ^ Z.log2 a <= round_float64 a.
Proof.
  intros H. assert (Ha : 0 < a) by (pose proof (Z.pow_pos_nonneg 2 53); lia).
  assert (HL : 53 <= Z.log2 a) by (apply Z.log2_le_pow2; lia).
  unfold round_float64.
  assert (E : (Z.log2 a + 1 <=? 53) = false) by (apply Z.leb_gt; lia).
  rewrite E. set (sh := Z.log2 a + 1 - 53). assert (Hsh : 0 <= sh) by (unfold sh; lia).
  rewrite Z.shiftr_div_pow2 by assumption.
  assert (Hq : 2 ^ 52 <= a / 2 ^ sh).
  { apply Z.div_le_lower_bound; [apply Z.pow_pos_nonneg; lia|].
    rewrite Z.mul_comm, <- Z.pow_add_r by lia.
    replace (52 + sh) with (Z.log2 a) by (unfold sh; lia).
    apply Z.log2_spec, Ha. }
  match goal with
  | |- _ <= Z.shiftl ?q _ =>
      assert (Hq' : 2 ^ 52 <= q) by (destruct (_ || _); lia); remember q as q'
  end.
  rewrite Z.shiftl_mul_pow2 by assumption.
  replace (Z.log2 a) with (52 + sh) by (unfold sh; lia).
  rewrite Z.pow_add_r by lia.
  apply Z.mul_le_mono_nonneg_r; [apply Z.pow_nonneg; lia | exact Hq'].
Qed.

Lemma round_float64_above (a b : Z) : 0 <= b < 2 ^ 53 -> b < a -> round_float64 a <> b.
Proof.
  intros Hb Hab. destruct (Z_lt_le_dec a (2 ^ 53)) as [Ha|Ha].
  - rewrite round_float64_small; lia.
  - pose proof (round_float64_large a Ha) as H.
    assert (2 ^ 53 <= 2 ^ Z.log2 a).
    { apply Z.pow_le_mono_r; [lia|]. apply Z.log2_le_pow2; lia. }
    lia.
Qed.

Lemma shortest_at_small (a : Z) (d k : nat) :
  0 < a < 2 ^ 53 -> shortest_at a d k = Some a \/ shortest_at a d k = None.
Proof.
  intros Ha. unfold shortest_at.
  set (scale := 10 ^ Z.of_nat (d - k)).
  assert (Hs : 0 < scale) by (apply Z.pow_pos_nonneg; lia).
  pose proof (Z.div_mod a scale ltac:(lia)) as Hdm.
  pose proof (Z.mod_pos_bound a scale Hs) as Hm.
  set (lo := a / scale * scale) in *.
  assert (Hlo : 0 <= lo <= a).
  { unfold lo. split; [apply Z.mul_nonneg_nonneg; [apply Z.div_pos|]; lia | lia]. }
  rewrite (round_float64_small lo) by lia.
  assert (Eup : (round_float64 (lo + scale) =? a) = false).
  { apply Z.eqb_neq, round_float64_above; lia. }
  rewrite Eup. destruct (lo =? a) eqn:E; [|by right].
  apply Z.eqb_eq in E. left. by rewrite E.
Qed.

Lemma shortest_small (a : Z) : 0 < a < 2 ^ 53 -> shortest a = a.
Proof.
  intros Ha. unfold shortest. generalize (String.length (decimal a)) at 2 as fuel.
  generalize 1%nat as k. generalize (String.length (decimal a)) as d.
  intros d k fuel. revert k. induction fuel as [|fuel IH]; intros k; [reflexivity|].
  simpl. destruct (shortest_at_small a d k Ha) as [-> | ->]; [reflexivity | apply IH].
Qed.

(** The text of a float64 that holds an integer below 2^53 in absolute
    value is the decimal text of the integer. *)
Lemma float_text_small (n : Z) : Z.abs n < 2 ^ 53 -> float_text n = decimal n.
Proof.
  intros H. unfold float_text. destruct (n =? 0) eqn:E0.
  - apply Z.eqb_eq in E0 as ->. reflexivity.
  - apply Z.eqb_neq in E0. rewrite shortest_small by lia.
    assert (E21 : (Z.abs n <? 10 ^ 21) = true).
    { apply Z.ltb_lt. assert (2 ^ 53 < 10 ^ 21) by reflexivity. lia. }
    rewrite E21. destruct n as [|p|p]; [congruence | reflexivity | reflexivity].
Qed.

Lemma ParseFloat_small (n : Z) : Z.abs n < 2 ^ 53 -> ParseFloat n = Return n.
Proof.
  intros H. unfold ParseFloat. rewrite round_float64_small by lia.
  assert (E : (float64_limit <=? Z.abs n) = false).
  { apply Z.leb_gt. assert (2 ^ 53 < float64_limit) by reflexivity. lia. }
  rewrite E. f_equal. lia.
Qed.

Lemma ParseFloat_large (n : Z) :
  2 ^ 1024 <= Z.abs n -> ParseFloat n = Error (ErrMsg "value out of range").
Proof.
  intros H. unfold ParseFloat.
  assert (E : (float64_limit <=? round_float64 (Z.abs n)) = true).
  { apply Z.leb_le. assert (2 ^ 53 <= 2 ^ 1024) by (apply Z.pow_le_mono_r; lia).
    pose proof (round_float64_large (Z.abs n) ltac:(lia)) as HR.
    assert (2 ^ 1024 <= 2 ^ Z.log2 (Z.abs n)).
    { apply Z.pow_le_mono_r; [lia|]. apply Z.log2_le_pow2; [|lia].
      pose proof (Z.pow_pos_nonneg 2 1024). lia. }
    change float64_limit with (2 ^ 1024). lia. }
  by rewrite E.
Qed.

(** *** The text of a number of 512 bits *)

Lemma big_round_small (p a : Z) : 0 < p -> 0 <= a < 2 ^ p -> big_round p a = a.
Proof.
  intros Hp [H0 H1]. unfold big_round.
  assert (E : (Z.log2 a + 1 <=? p) = true).
  { apply Z.leb_le. destruct (Z.eq_dec a 0) as [->|]; [simpl; lia|].
    assert (Z.log2 a < p) by (apply Z.log2_lt_pow2; lia). lia. }
  by rewrite E.
Qed.

Lemma big_round_large (p a : Z) :
  0 < p -> 2 ^ p <= a -> 2 ^ Z.log2 a <= big_round p a.
Proof.
  intros Hp H. assert (Ha : 0 < a) by (pose proof (Z.pow_pos_nonneg 2 p); lia).
  assert (HL : p <= Z.log2 a) by (apply Z.log2_le_pow2; lia).
  unfold big_round.
  assert (E : (Z.log2 a + 1 <=? p) = false) by (apply Z.leb_gt; lia).
  rewrite E. set (sh := Z.log2 a + 1 - p). assert (Hsh : 0 <= sh) by (unfold sh; lia).
  rewrite Z.shiftr_div_pow2 by assumption.
  assert (Hq : 2 ^ (p - 1) <= a / 2 ^ sh).
  { apply Z.div_le_lower_bound; [apply Z.pow_pos_nonneg; lia|].
    rewrite Z.mul_comm, <- Z.pow_add_r by lia.
    replace (p - 1 + sh) with (Z.log2 a) by (unfold sh; lia).
    apply Z.log2_spec, Ha. }
  match goal with
  | |- _ <= Z.shiftl ?q _ =>
      assert (Hq' : 2 ^ (p - 1) <= q) by (destruct (_ || _); lia); remember q as q'
  end.
  rewrite Z.shiftl_mul_pow2 by assumption.
  replace (Z.log2 a) with (p - 1 + sh) by (unfold sh; lia).
  rewrite Z.pow_add_r by lia.
  apply Z.mul_le_mono_nonneg_r; [apply Z.pow_nonneg; lia | exact Hq'].
Qed.

Lemma big_round_above (p a b : Z) :
  0 < p -> 0 <= b < 2 ^ p -> b < a -> big_round p a <> b.
Proof.
  intros Hp Hb Hab. destruct (Z_lt_le_dec a (2 ^ p)) as [Ha|Ha].
  - rewrite big_round_small; lia.
  - pose proof (big_round_large p a Hp Ha) as H.
    assert (2 ^ p <= 2 ^ Z.log2 a).
    { apply Z.pow_le_mono_r; [lia|]. apply Z.log2_le_pow2; lia. }
    lia.
Qed.

Lemma big_shortest_at_small (p a : Z) (d k : nat) :
  0 < p -> 0 < a < 2 ^ p ->
  big_shortest_at p a d k = Some a \/ big_shortest_at p a d k = None.
Proof.
  intros Hp Ha. unfold big_shortest_at.
  set (scale := 10 ^ Z.of_nat (d - k)).
  assert (Hs : 0 < scale) by (apply Z.pow_pos_nonneg; lia).
  pose proof (Z.div_mod a scale ltac:(lia)) as Hdm.
  pose proof (Z.mod_pos_bound a scale Hs) as Hm.
  set (lo := a / scale * scale) in *.
  assert (Hlo : 0 <= lo <= a).
  { unfold lo. split; [apply Z.mul_nonneg_nonneg; [apply Z.div_pos|]; lia | lia]. }
  rewrite (big_round_small p lo) by lia.
  assert (Eup : (big_round p (lo + scale) =? a) = false).
  { apply Z.eqb_neq, big_round_above; lia. }
  rewrite Eup. destruct (lo =? a) eqn:E; [|by right].
  apply Z.eqb_eq in E. left. by rewrite E.
Qed.

Lemma big_shortest_small (p a : Z) : 0 < p -> 0 < a < 2 ^ p -> big_shortest p a = a.
Proof.
  intros Hp Ha. unfold big_shortest.
  generalize (String.length (decimal a)) at 2 as fuel.
  generalize 1%nat as k. generalize (String.length (decimal a)) as d.
  intros d k fuel. revert k. induction fuel as [|fuel IH]; intros k; [reflexivity|].
  simpl. destruct (big_shortest_at_small p a d k Hp Ha) as [-> | ->];
    [reflexivity | apply IH].
Qed.

(** Below 2^512 the text of a number spells the number. *)
Lemma number_text_small (n : Z) : Z.abs n < 2 ^ 512 -> number_text n = n.
Proof.
  intros H. unfold number_text, number_prec.
  destruct (Z.eq_dec n 0) as [->|Hn]; [reflexivity|].
  rewrite big_round_small by lia. rewrite big_shortest_small by lia. lia.
Qed.

(** What [big_shortest] returns is not negative and reads back as the
    number. *)
Lemma big_shortest_at_reads_back (p v c : Z) (d k : nat) :
  0 <= v -> big_shortest_at p v d k = Some c -> 0 <= c /\ big_round p c = v.
Proof.
  intros Hv. unfold big_shortest_at.
  set (scale := 10 ^ Z.of_nat (d - k)).
  assert (Hs : 0 < scale) by (apply Z.pow_pos_nonneg; lia).
  set (lo := v / scale * scale).
  assert (Hlo : 0 <= lo)
    by (unfold lo; apply Z.mul_nonneg_nonneg; [apply Z.div_pos|]; lia).
  destruct (big_round p lo =? v) eqn:Edown, (big_round p (lo + scale) =? v) eqn:Eup;
    try discriminate.
  - apply Z.eqb_eq in Edown, Eup. intros [= <-]. destruct (_ || _); split; lia.
  - apply Z.eqb_eq in Edown. intros [= <-]. split; lia.
  - apply Z.eqb_eq in Eup. intros [= <-]. split; lia.
Qed.

Lemma big_shortest_from_reads_back (p v : Z) (d fuel k : nat) :
  0 <= v ->
  big_shortest_from p v d fuel k = v
  \/ (0 <= big_shortest_from p v d fuel k
      /\ big_round p (big_shortest_from p v d fuel k) = v).
Proof.
  intros Hv. revert k. induction fuel as [|fuel IH]; intros k; [by left|].
  simpl. destruct (big_shortest_at p v d k) as [c|] eqn:E; [|apply IH].
  right. by apply (big_shortest_at_reads_back p v c d k).
Qed.

Lemma big_shortest_reads_back (p v : Z) :
  0 <= v ->
  big_shortest p v = v \/ (0 <= big_shortest p v /\ big_round p (big_shortest p v) = v).
Proof. intros Hv. by apply big_shortest_from_reads_back. Qed.

(** A number that rounds to 2^1024 or more at 512 bits is within half a
    unit of 2^1024, or above. *)
Lemma big_round_below (c : Z) :
  0 <= c < 2 ^ 1024 - 2 ^ 511 -> big_round 512 c < 2 ^ 1024.
Proof.
  intros [H0 H1]. assert (HP : 0 < 2 ^ 511) by (by apply Z.pow_pos_nonneg).
  unfold big_round. destruct (Z.log2 c + 1 <=? 512) eqn:E; [lia|].
  apply Z.leb_gt in E.
  assert (Hc : 0 < c) by (destruct (Z.eq_dec c 0) as [->|]; [simpl in E|]; lia).
  assert (HL : Z.log2 c < 1024) by (apply Z.log2_lt_pow2; lia).
  set (sh := Z.log2 c + 1 - 512) in *.
  assert (Hsh : 1 <= sh <= 512) by (unfold sh; lia).
  rewrite Z.shiftr_div_pow2, Z.land_ones, !Z.shiftl_mul_pow2 by lia.
  assert (Hpos : 0 < 2 ^ sh) by (apply Z.pow_pos_nonneg; lia).
  pose proof (Z.div_mod c (2 ^ sh) ltac:(lia)) as Hdm.
  pose proof (Z.mod_pos_bound c (2 ^ sh) Hpos) as Hm.
  assert (Hq : c / 2 ^ sh < 2 ^ 512).
  { apply Z.div_lt_upper_bound; [exact Hpos|].
    rewrite <- Z.pow_add_r by lia. replace (sh + 512) with (Z.succ (Z.log2 c))
      by (unfold sh; lia). apply Z.log2_spec, Hc. }
  set (q := c / 2 ^ sh) in *. set (r := c mod 2 ^ sh) in *.
  destruct (Z_lt_le_dec sh 512) as [Hlt|Hge].
  - assert (Hq' : (if (1 * 2 ^ (sh - 1) <? r) || (r =? 1 * 2 ^ (sh - 1)) && Z.odd q
                   then q + 1 else q) <= 2 ^ 512) by (destruct (_ || _); lia).
    match type of Hq' with ?x <= _ => remember x as q' end.
    assert (q' * 2 ^ sh <= 2 ^ 512 * 2 ^ sh)
      by (apply Z.mul_le_mono_nonneg_r; lia).
    assert (2 ^ 512 * 2 ^ sh <= 2 ^ 1023).
    { rewrite <- Z.pow_add_r by lia. apply Z.pow_le_mono_r; lia. }
    assert (2 ^ 1023 < 2 ^ 1024) by (apply Z.pow_lt_mono_r; lia). lia.
  - assert (sh = 512) as -> by lia. replace (512 - 1) with 511 by lia.
    assert (E1 : 2 ^ 1024 = 2 ^ 512 * 2 ^ 512) by (rewrite <- Z.pow_add_r; lia || reflexivity).
    assert (E2 : 2 ^ 512 = 2 * 2 ^ 511)
      by (rewrite <- (Z.pow_succ_r 2 511); [reflexivity | lia]).
    rewrite E1 in *. set (P := 2 ^ 512) in *. set (H := 2 ^ 511) in *.
    destruct (Z_lt_le_dec q (P - 1)) as [Hq1|Hq1].
    + assert (Hq' : (if (1 * H <? r) || (r =? 1 * H) && Z.odd q then q + 1 else q) <= P - 1)
        by (destruct (_ || _); lia).
      match type of Hq' with ?x <= _ => remember x as q' end. nia.
    + assert (q = P - 1) by lia. assert (Hr : r < H) by nia.
      assert (E3 : (1 * H <? r) = false) by (apply Z.ltb_ge; lia).
      assert (E4 : (r =? 1 * H) = false) by (apply Z.eqb_neq; lia).
      rewrite E3, E4. simpl. nia.
Qed.

(** From half a unit of 512 bits below 2^1024 on, a number reads as
    2^1024 or more at the 53 bits of a float64. *)
Lemma round_float64_near_limit (c : Z) :
  2 ^ 1024 - 2 ^ 511 <= c -> 2 ^ 1024 <= round_float64 c.
Proof.
  intros H. destruct (Z_lt_le_dec c (2 ^ 1024)) as [Hlt|Hge].
  - assert (HP : 0 < 2 ^ 511) by (by apply Z.pow_pos_nonneg).
    assert (E511 : 2 ^ 1023 = 2 ^ 512 * 2 ^ 511) by (rewrite <- Z.pow_add_r; lia || reflexivity).
    assert (E1024 : 2 ^ 1024 = 2 * 2 ^ 1023)
      by (rewrite <- (Z.pow_succ_r 2 1023); [reflexivity | lia]).
    assert (HP512 : 2 <= 2 ^ 512) by (change 2 with (2 ^ 1) at 1; apply Z.pow_le_mono_r; lia).
    assert (H1023 : 2 ^ 1023 <= c) by nia.
    assert (HL : Z.log2 c = 1023)
      by (apply Z.log2_unique; [lia | split; [exact H1023 | replace (1023 + 1) with 1024 by lia; exact Hlt]]).
    unfold round_float64. rewrite HL.
    change (1023 + 1 <=? 53) with false. cbv iota.
    replace (1023 + 1 - 53) with 971 by lia. replace (971 - 1) with 970 by lia.
    rewrite Z.shiftr_div_pow2, Z.land_ones, !Z.shiftl_mul_pow2 by lia.
    assert (Hpos : 0 < 2 ^ 971) by (by apply Z.pow_pos_nonneg).
    pose proof (Z.div_mod c (2 ^ 971) ltac:(lia)) as Hdm.
    pose proof (Z.mod_pos_bound c (2 ^ 971) Hpos) as Hm.
    assert (E971 : 2 ^ 1024 = 2 ^ 53 * 2 ^ 971) by (rewrite <- Z.pow_add_r; lia || reflexivity).
    assert (E970 : 2 ^ 971 = 2 * 2 ^ 970)
      by (rewrite <- (Z.pow_succ_r 2 970); [reflexivity | lia]).
    assert (E460 : 2 ^ 970 = 2 ^ 459 * 2 ^ 511) by (rewrite <- Z.pow_add_r; lia || reflexivity).
    assert (HP459 : 2 <= 2 ^ 459) by (change 2 with (2 ^ 1) at 1; apply Z.pow_le_mono_r; lia).
    assert (Hq : c / 2 ^ 971 < 2 ^ 53).
    { apply Z.div_lt_upper_bound; [exact Hpos|]. rewrite Z.mul_comm, <- E971. exact Hlt. }
    set (q := c / 2 ^ 971) in *. set (r := c mod 2 ^ 971) in *.
    assert (Hq53 : q = 2 ^ 53 - 1) by nia.
    assert (Hr : 1 * 2 ^ 970 < r) by nia.
    apply Z.ltb_lt in Hr. rewrite Hr. cbn [orb]. rewrite Hq53. lia.
  - assert (2 ^ 53 <= 2 ^ 1024) by (apply Z.pow_le_mono_r; lia).
    pose proof (round_float64_large c ltac:(lia)) as HR.
    assert (2 ^ 1024 <= 2 ^ Z.log2 c).
    { apply Z.pow_le_mono_r; [lia|]. apply Z.log2_le_pow2; lia. }
    lia.
Qed.

(** The text of a number of absolute value 2^1024 or more is out of the
    range of a float64. *)
Lemma ParseFloat_number_text_large (n : Z) :
  2 ^ 1024 <= Z.abs n -> ParseFloat (number_text n) = Error (ErrMsg "value out of range").
Proof.
  intros H. assert (HP : 0 < 2 ^ 511) by (by apply Z.pow_pos_nonneg).
  assert (H512 : 2 ^ 512 <= 2 ^ 1024) by (apply Z.pow_le_mono_r; lia).
  pose proof (big_round_large 512 (Z.abs n) ltac:(lia) ltac:(lia)) as HR.
  assert (HL : 2 ^ 1024 <= 2 ^ Z.log2 (Z.abs n)).
  { apply Z.pow_le_mono_r; [lia|]. apply Z.log2_le_pow2; lia. }
  set (v := big_round 512 (Z.abs n)) in *.
  assert (Hc : 2 ^ 1024 - 2 ^ 511 <= big_shortest 512 v).
  { destruct (big_shortest_reads_back 512 v ltac:(lia)) as [-> | [H0 Hback]]; [lia|].
    destruct (Z_lt_le_dec (big_shortest 512 v) (2 ^ 1024 - 2 ^ 511)) as [Hlt|]; [|assumption].
    pose proof (big_round_below (big_shortest 512 v) ltac:(lia)). lia. }
  unfold ParseFloat, number_text, number_prec. fold v.
  assert (E : Z.abs (Z.sgn n * big_shortest 512 v) = big_shortest 512 v) by lia.
  rewrite E. pose proof (round_float64_near_limit _ Hc) as Hlim.
  assert (E' : (float64_limit <=? round_float64 (big_shortest 512 v)) = true)
    by (apply Z.leb_le; change float64_limit with (2 ^ 1024); exact Hlim).
  by rewrite E'.
Qed.

End NumberFacts.

Section NumberDefaults.
Import Hcl.

Lemma read_literal (block : Block) (name : string) (val : Cty.Value) :
  has_attribute block name (LiteralValueExpr val) ->
  read_or_nil block name = Return (Some val).
Proof.
  intros (attr & Hattr & Hexpr). unfold read_or_nil, readBlockAttribute.
  by rewrite Hattr, Hexpr.
Qed.

(** X12. For a block whose [default] is an integer literal below 2^53
    in absolute value, the text of the default is the decimal text of the
    integer, and every input that the loop body returns for the block
    has it as its default. *)
Theorem X12_integer_default_is_decimal (block : Block) (n : Z) :
  has_attribute block "default" (LiteralValueExpr (NumberIntVal n)) ->
  (Z.abs n < 2 ^ 53)%Z ->
  (let! defaultValue := read_or_nil block "default" in default_text defaultValue)
  = Return (decimal n)
  /\ forall input, listInputs_block block = Return (Some input) ->
                   DefaultValue input = decimal n.
Proof.
  intros Hattr Hn. pose proof (read_literal _ _ _ Hattr) as Hread.
  assert (Htext : default_text (Some (NumberIntVal n)) = Return (decimal n)).
  { assert (Hn' : (Z.abs n < 2 ^ 512)%Z).
    { assert (2 ^ 53 < 2 ^ 512)%Z by (by apply Z.pow_lt_mono_r). lia. }
    simpl. rewrite (number_text_small n Hn'), (ParseFloat_small n Hn). simpl.
    by rewrite (float_text_small n Hn). }
  split; [by rewrite Hread|].
  intros input H. apply listInputs_block_default in H as (dv & Hdv & H).
  rewrite Hread in Hdv. injection Hdv as <-. congruence.
Qed.

(** X13. For a variable block with a first label that is not empty and
    a [default] that is an integer literal of absolute value 2^1024 or
    more, reading the number back as a float64 fails: the loop body
    returns no input, it returns that error when the block has no
    [description] and no [type], and [listInputs] returns no inputs over
    a directory in which the block is reached. *)
Theorem X13_default_out_of_float64_range
  (block : Block) (name : string) (rest : list string) (n : Z) :
  Type_ block = "variable" ->
  Labels block = name :: rest ->
  name <> "" ->
  has_attribute block "default" (LiteralValueExpr (NumberIntVal n)) ->
  (2 ^ 1024 <= Z.abs n)%Z ->
  (forall o, listInputs_block block <> Return o)
  /\ (Attributes (Body_ block) !! "description" = None ->
      Attributes (Body_ block) !! "type" = None ->
      listInputs_block block = Error (ErrWithStackTrace (ErrMsg "value out of range")))
  /\ forall ReadFile ParseHCL fs directoryPath,
       reached ReadFile ParseHCL fs directoryPath block ->
       forall inputs, listInputs ReadFile ParseHCL fs directoryPath <> Return inputs.
Proof.
  intros HT HL Hname Hattr Hn. pose proof (read_literal _ _ _ Hattr) as Hread.
  assert (Htext : default_text (Some (NumberIntVal n))
                  = Error (ErrWithStackTrace (ErrMsg "value out of range"))).
  { simpl. by rewrite (ParseFloat_number_text_large n Hn). }
  assert (HN : forall o, listInputs_block block <> Return o).
  { intros o H. unfold listInputs_block in H. rewrite HT, HL in H.
    change (String.eqb "variable" "variable") with true in H. cbv beta iota in H.
    rewrite (nonempty_length name Hname) in H.
    apply bind_Return in H as (da & _ & H). apply bind_Return in H as (dt & _ & H).
    apply bind_Return in H as (ta & _ & H). apply bind_Return in H as (tt & _ & H).
    apply bind_Return in H as (dv & Hdv & H). apply bind_Return in H as (text & Ht & _).
    rewrite Hread in Hdv. injection Hdv as <-. congruence. }
  split; [exact HN|]. split.
  - intros Hdesc Htype. unfold listInputs_block. rewrite HT, HL.
    change (String.eqb "variable" "variable") with true. cbv beta iota.
    rewrite (nonempty_length name Hname).
    unfold read_or_nil at 1 2. unfold readBlockAttribute at 1 2.
    rewrite Hdesc, Htype, Hread. cbn [bind attr_text]. by rewrite Htext.
  - intros ReadFile ParseHCL fs directoryPath Hreached inputs Hret.
    destruct (reached_Return _ _ _ _ _ _ Hreached Hret) as (o & Ho & _).
    by apply HN in Ho.
Qed.

End NumberDefaults.

(** ** The walk *)

Section NodeInduction.
Variable P : Node -> Prop.
Hypothesis HFile : forall name, P (NFile name).
Hypothesis HDir : forall name entries, Forall P entries -> P (NDir name entries).
Hypothesis HUnreadable : forall name err, P (NDirUnreadable name err).
Hypothesis HLstat : forall name err, P (NLstatError name err).

Lemma Node_nested_ind : forall n, P n.
Proof.
  fix IH 1. intros [name|name entries|name err|name err].
  - apply HFile.
  - apply HDir. induction entries; constructor; [apply IH | assumption].
  - apply HUnreadable.
  - apply HLstat.
Qed.
End NodeInduction.

Section WalkFacts.
Import Notions.

Lemma walk_NDir (path name : string) (entries : list Node) (tfFiles : list string) :
  walk path (NDir name entries) tfFiles = walk_entries path entries tfFiles.
Proof.
  revert tfFiles. induction entries as [|c rest IH]; intros tfFiles; [reflexivity|].
  cbn [walk walk_entries].
  destruct (walk (Join path (node_name c)) c tfFiles) as [t [err|]]; [reflexivity|].
  rewrite <- IH. reflexivity.
Qed.

Lemma walk_acc (n : Node) :
  forall path acc,
    walk path n acc = (acc ++ fst (walk path n []), snd (walk path n [])).
Proof.
  induction n as [name|name entries IH|name err|name err] using Node_nested_ind;
    intros path acc.
  - simpl. destruct (String.eqb (Ext path) ".tf"); simpl; by rewrite ?app_nil_r.
  - rewrite !walk_NDir. revert acc.
    induction IH as [|c rest Hc _ IHrest]; intros acc; simpl; [by rewrite app_nil_r|].
    rewrite (Hc _ acc).
    destruct (walk (Join path (node_name c)) c []) as [fc [err|]]; simpl.
    + reflexivity.
    + rewrite (IHrest (acc ++ fc)), (IHrest fc). simpl. by rewrite app_assoc.
  - simpl. by rewrite app_nil_r.
  - simpl. by rewrite app_nil_r.
Qed.

Lemma walk_entries_cons (path : string) (c : Node) (rest : list Node) :
  walk_entries path (c :: rest) []
  = match snd (walk (Join path (node_name c)) c []) with
    | None =>
        (fst (walk (Join path (node_name c)) c []) ++ fst (walk_entries path rest []),
         snd (walk_entries path rest []))
    | Some err => (fst (walk (Join path (node_name c)) c []), Some err)
    end.
Proof.
  simpl. destruct (walk (Join path (node_name c)) c []) as [fc [err|]]; simpl;
    [reflexivity|].
  rewrite <- (walk_NDir path "" rest fc), walk_acc, walk_NDir. reflexivity.
Qed.

Lemma split_go_snoc (c : ascii) (p name cur : string) :
  without c name ->
  split_go (String c "") 0 cur (p ++ String c name)
  = split_go (String c "") 0 cur p ++ [name].
Proof.
  intros Hn. revert cur. induction p as [|y p IH]; intros cur.
  - rewrite (split_go_part c "" name cur) by reflexivity.
    rewrite split_go_last by exact Hn. by rewrite rev_rev_app.
  - rewrite append_cons. destruct (ascii_dec c y) as [<-|Hy].
    + change (String c (p ++ String c name)) with ("" ++ String c (p ++ String c name))%string.
      change (String c p) with ("" ++ String c p)%string.
      rewrite !(split_go_part c "") by reflexivity. rewrite IH. reflexivity.
    + cbn [split_go].
      assert (E : forall rest, String.prefix (String c "") (String y rest) = false).
      { intros rest. simpl. destruct (ascii_dec c y); [congruence | reflexivity]. }
      rewrite !E. apply IH.
Qed.

Lemma Split_snoc (c : ascii) (p name : string) :
  without c name ->
  Split (p ++ String c name) (String c "") = Split p (String c "") ++ [name].
Proof. intros H. unfold Split. by apply split_go_snoc. Qed.

Lemma HasPrefix_sep (y : ascii) (rest : string) :
  HasPrefix (String y rest) "/" = Ascii.eqb y "/".
Proof.
  unfold HasPrefix. cbn [String.prefix].
  destruct (ascii_dec "/" y) as [<-|H]; [by destruct rest|].
  symmetry. apply Ascii.eqb_neq. congruence.
Qed.

Lemma proper_name_inv (name : string) :
  proper_name name = true ->
  String.eqb name "" = false /\ String.eqb name "." = false
  /\ String.eqb name ".." = false /\ without "/" name.
Proof.
  unfold proper_name, without. rewrite !andb_true_iff, !negb_true_iff. tauto.
Qed.

(** A round of the loop of [Clean] over a name appends the name, after
    a separator unless the buffer holds nothing or only the root. *)
Lemma clean_step_proper (rooted : bool) (out name : string) (dotdot : nat) :
  proper_name name = true ->
  clean_step rooted (out, dotdot) name
  = ((if rooted && negb (String.length out =? 1)%nat
         || negb rooted && negb (String.length out =? 0)%nat
      then out ++ "/" else out) ++ name, dotdot)%string.
Proof.
  intros H. apply proper_name_inv in H as (H1 & H2 & H3 & _).
  unfold clean_step. by rewrite H1, H2, H3.
Qed.

Lemma clean_loop_snoc (p name : string) :
  p <> "" -> proper_name name = true ->
  clean_loop (p ++ "/" ++ name) = clean_step (HasPrefix p "/") (clean_loop p) name.
Proof.
  intros Hp Hn. unfold clean_loop.
  assert (E : HasPrefix (p ++ "/" ++ name) "/" = HasPrefix p "/").
  { destruct p as [|y p]; [done|]. rewrite append_cons. by rewrite !HasPrefix_sep. }
  rewrite E. change ("/" ++ name)%string with (String "/" name).
  rewrite Split_snoc by (by apply proper_name_inv). by rewrite fold_left_app.
Qed.

Lemma back_ge (out : string) (dotdot w : nat) :
  (dotdot <= w)%nat -> (dotdot <= back out dotdot w)%nat.
Proof.
  induction w as [|w IH]; intros H; [exact H|]. cbn [back].
  destruct ((dotdot <? S w)%nat && _) eqn:E; [|exact H].
  apply andb_true_iff in E as [E _]. apply Nat.ltb_lt in E. apply IH. lia.
Qed.

(** In a rooted path the buffer of [Clean] begins with the root, and
    [..] stops after it. *)
Lemma clean_loop_rooted (p : string) :
  HasPrefix p "/" = true ->
  exists out, clean_loop p = (String "/" out, 1%nat).
Proof.
  intros Hp. unfold clean_loop. rewrite Hp.
  assert (H : forall elems out,
             exists out', fold_left (clean_step true) elems (String "/" out, 1%nat)
                          = (String "/" out', 1%nat)).
  { induction elems as [|e elems IH]; intros out; [by exists out|]. cbn [fold_left].
    assert (E : exists out', clean_step true (String "/" out, 1%nat) e
                             = (String "/" out', 1%nat)).
    { unfold clean_step. destruct (String.eqb e ""); [by exists out|].
      destruct (String.eqb e "."); [by exists out|].
      destruct (String.eqb e "..").
      - destruct (1 <? String.length (String "/" out))%nat eqn:EL; [|by exists out].
        apply Nat.ltb_lt in EL.
        pose proof (back_ge (String "/" out) 1 (String.length (String "/" out) - 1)
                      ltac:(lia)) as HB.
        destruct (back (String "/" out) 1 (String.length (String "/" out) - 1))
          as [|k]; [lia|]. cbn [take]. by eexists.
      - cbn [andb negb orb]. destruct (negb _).
        + rewrite !append_cons. by eexists.
        + rewrite !append_cons. by eexists. }
    destruct E as [out' ->]. apply IH. }
  apply H.
Qed.

(** [Join] of a directory path and a name of an entry ends with the
    name, after a separator if anything stands before it. *)
Lemma Join_proper (dir name : string) :
  proper_name name = true ->
  Join dir name = name \/ exists pre, Join dir name = (pre ++ String "/" name)%string.
Proof.
  intros Hn. pose proof (proper_name_inv name Hn) as (Hne & _ & _ & Hsl).
  unfold Join. destruct (String.eqb dir "") eqn:Ed.
  - left. rewrite Hne. unfold Clean. rewrite Hne. unfold clean_loop.
    assert (E : HasPrefix name "/" = false).
    { destruct name as [|y name]; [done|]. apply without_cons in Hsl as [Hy _].
      rewrite HasPrefix_sep. by apply Ascii.eqb_neq. }
    rewrite E, Split_last by exact Hsl. cbn [fold_left].
    rewrite clean_step_proper by exact Hn.
    cbn [fst andb negb orb String.length Nat.eqb].
    change ("" ++ name)%string with name. by rewrite Hne.
  - apply String.eqb_neq in Ed. unfold Clean.
    assert (E : String.eqb (dir ++ "/" ++ name) "" = false) by (by destruct dir).
    rewrite E, clean_loop_snoc by assumption.
    destruct (clean_loop dir) as [out dotdot] eqn:EL.
    rewrite clean_step_proper by exact Hn. cbn [fst].
    assert (Hout : forall x, String.eqb (x ++ name) "" = false).
    { intros x. destruct x; [exact Hne | reflexivity]. }
    rewrite Hout. destruct (HasPrefix dir "/") eqn:Er.
    + destruct (clean_loop_rooted dir Er) as [out' E']. rewrite EL in E'.
      injection E' as -> ->. cbn [andb negb orb].
      destruct out' as [|y out']; cbn [String.length Nat.eqb negb andb orb].
      * right. by exists "".
      * right. exists (String "/" (String y out')). by rewrite append_assoc.
    + cbn [andb negb orb]. destruct out as [|y out]; cbn [String.length Nat.eqb negb andb orb].
      * by left.
      * right. exists (String y out). by rewrite append_assoc.
Qed.

(** Below a clean directory path other than [.], the path of an entry
    begins with the directory path and is clean again. *)
Lemma Join_clean (dir name : string) :
  proper_name name = true -> Clean dir = dir -> dir <> "." ->
  String.prefix dir (Join dir name) = true
  /\ Clean (Join dir name) = Join dir name /\ Join dir name <> ".".
Proof.
  intros Hn Hc Hd. pose proof (proper_name_inv name Hn) as (Hne & _ & _ & Hsl).
  assert (Ed : dir <> "") by (intros ->; discriminate Hc).
  pose proof Ed as Ed'. apply String.eqb_neq in Ed'.
  assert (HJ : Join dir name = Clean (dir ++ "/" ++ name))
    by (unfold Join; by rewrite Ed').
  assert (Hout : fst (clean_loop dir) = dir).
  { unfold Clean in Hc. rewrite Ed' in Hc.
    destruct (String.eqb (fst (clean_loop dir)) ""); [congruence | exact Hc]. }
  assert (HC : Clean (dir ++ "/" ++ name)
               = ((if HasPrefix dir "/" && negb (String.length dir =? 1)%nat
                      || negb (HasPrefix dir "/") && negb (String.length dir =? 0)%nat
                   then dir ++ "/" else dir) ++ name)%string).
  { unfold Clean.
    assert (E : String.eqb (dir ++ "/" ++ name) "" = false) by (by destruct dir).
    rewrite E, clean_loop_snoc by assumption.
    destruct (clean_loop dir) as [out dotdot]. cbn [fst] in Hout. subst out.
    rewrite clean_step_proper by exact Hn. cbn [fst].
    match goal with |- (if String.eqb (?x ++ name) "" then _ else _) = _ =>
      assert (E' : String.eqb (x ++ name) "" = false)
        by (destruct x; [exact Hne | reflexivity]); by rewrite E' end. }
  destruct dir as [|y dir]; [done|].
  destruct (HasPrefix (String y dir) "/") eqn:Er; cbn [andb negb orb] in HC.
  - destruct dir as [|z dir]; cbn [String.length Nat.eqb negb andb orb] in HC.
    + assert (y = "/"%char) as ->
        by (rewrite HasPrefix_sep in Er; by apply Ascii.eqb_eq).
      rewrite HJ, HC. change ("/" ++ name)%string with (String "/" name).
      split; [exact (prefix_append "/" name)|]. split; [|by destruct name].
      assert (EL : clean_loop (String "/" name) = (String "/" name, 1%nat)).
      { unfold clean_loop. rewrite HasPrefix_sep.
        change (Ascii.eqb "/" "/") with true. cbv iota.
        change (String "/" name) with ("" ++ String "/" name)%string at 1.
        rewrite (Split_part "/" "" name) by reflexivity.
        rewrite Split_last by exact Hsl. cbn [fold_left].
        change (clean_step true ("/", 1%nat) "") with ("/", 1%nat).
        rewrite clean_step_proper by exact Hn. reflexivity. }
      unfold Clean. by rewrite EL.
    + rewrite HJ, HC. rewrite append_assoc. split; [apply prefix_append|].
      split; [|by destruct dir]. rewrite HC. apply append_assoc.
  - cbn [String.length Nat.eqb negb andb orb] in HC.
    rewrite HJ, HC. rewrite append_assoc. split; [apply prefix_append|].
    split; [|by destruct dir]. rewrite HC. apply append_assoc.
Qed.

Lemma prefix_trans (a b c : string) :
  String.prefix a b = true -> String.prefix b c = true -> String.prefix a c = true.
Proof.
  intros Hab Hbc. apply prefix_split in Hab as [x ->]. apply prefix_split in Hbc as [z ->].
  rewrite append_assoc. apply prefix_append.
Qed.

Lemma prefix_refl (a : string) : String.prefix a a = true.
Proof. rewrite <- (append_nil_r a) at 2. apply prefix_append. Qed.

(** In a tree of entries with names that a directory can hold, walked
    from a clean path other than [.], the path of every file begins with
    the path of the walk. *)
Lemma file_at_prefix (n : Node) (path f : string) :
  file_at n path f -> well_named n = true -> Clean path = path -> path <> "." ->
  String.prefix path f = true.
Proof.
  induction 1 as [name path|name entries c path f Hin Hf IH]; intros Hw Hc Hd.
  - apply prefix_refl.
  - cbn [well_named] in Hw. rewrite forallb_forall in Hw.
    specialize (Hw c Hin). apply andb_true_iff in Hw as [Hname Hw].
    destruct (Join_clean path (node_name c) Hname Hc Hd) as (Hp & Hc' & Hd').
    eapply prefix_trans; [exact Hp|]. by apply IH.
Qed.

Lemma walk_sound (n : Node) :
  forall path f, In f (fst (walk path n [])) -> Ext f = ".tf" /\ file_at n path f.
Proof.
  induction n as [name|name entries IH|name err|name err] using Node_nested_ind;
    intros path f Hin.
  - simpl in Hin. destruct (String.eqb (Ext path) ".tf") eqn:E; [|destruct Hin].
    destruct Hin as [<-|[]]. apply String.eqb_eq in E. split; [exact E | constructor].
  - rewrite walk_NDir in Hin.
    assert (H : exists c, In c entries /\ In f (fst (walk (Join path (node_name c)) c []))).
    { clear IH. induction entries as [|c rest IHrest]; [destruct Hin|].
      rewrite walk_entries_cons in Hin.
      destruct (snd (walk (Join path (node_name c)) c [])); simpl in Hin.
      - exists c. split; [by left | exact Hin].
      - apply in_app_or in Hin as [Hin|Hin]; [exists c; split; [by left | exact Hin]|].
        destruct (IHrest Hin) as (c' & Hc' & Hf). exists c'. split; [by right | exact Hf]. }
    destruct H as (c & Hc & Hf). rewrite List.Forall_forall in IH.
    destruct (IH c Hc _ _ Hf) as [HE HA]. split; [exact HE|].
    econstructor; eassumption.
  - destruct Hin.
  - destruct Hin.
Qed.

Lemma walk_healthy (n : Node) :
  forall path, snd (walk path n []) = None <-> healthy n = true.
Proof.
  induction n as [name|name entries IH|name err|name err] using Node_nested_ind;
    intros path.
  - simpl. tauto.
  - rewrite walk_NDir. cbn [healthy].
    induction IH as [|c rest Hc _ IHrest]; [simpl; tauto|].
    rewrite walk_entries_cons. cbn [forallb]. rewrite andb_true_iff, <- IHrest, <- (Hc (Join path (node_name c))).
    destruct (snd (walk (Join path (node_name c)) c [])); simpl; [|tauto].
    split; [discriminate | intros [H _]; discriminate].
  - simpl. split; discriminate.
  - simpl. split; discriminate.
Qed.

Lemma walk_complete (n : Node) :
  forall path f, healthy n = true -> file_at n path f -> Ext f = ".tf" ->
                 In f (fst (walk path n [])).
Proof.
  induction n as [name|name entries IH|name err|name err] using Node_nested_ind;
    intros path f Hh Hat HE.
  - inversion Hat; subst. simpl. apply String.eqb_eq in HE. rewrite HE. by left.
  - inversion Hat as [|name' entries' c path' f' Hc Hf]; subst. clear Hat.
    rewrite walk_NDir. cbn [healthy] in Hh.
    induction IH as [|c' rest Hc' _ IHrest]; [destruct Hc|].
    cbn [forallb] in Hh. apply andb_true_iff in Hh as [Hh1 Hh2].
    rewrite walk_entries_cons.
    rewrite (proj2 (walk_healthy c' (Join path (node_name c'))) Hh1). simpl.
    apply in_or_app. destruct Hc as [->|Hc]; [left; by apply Hc' | right; by apply IHrest].
  - inversion Hat.
  - inversion Hat.
Qed.

End WalkFacts.

Section ListingFacts.
Import Notions.

(** X14. Every path that [listTerraformFiles] returns, also when it
    returns an error beside it, has the extension [.tf] and is the path
    of a file (not a directory) that the walk comes to; it starts with
    the directory path when that path is clean and is not [.], the
    entries having names that a directory can hold. *)
Theorem X14_listed_paths (fs : Node) (directoryPath f : string) :
  In f (fst (listTerraformFiles fs directoryPath)) ->
  Ext f = ".tf" /\ file_at fs directoryPath f
  /\ (well_named fs = true -> Clean directoryPath = directoryPath ->
      directoryPath <> "." -> String.prefix directoryPath f = true).
Proof.
  intros H. destruct (walk_sound fs directoryPath f H) as [HE HA].
  split; [exact HE|]. split; [exact HA|]. intros Hw Hc Hd.
  by apply (file_at_prefix fs).
Qed.

(** X15. The walk of [listTerraformFiles] returns no error exactly when
    every directory of the tree can be listed and every name in it can be
    examined, wherever they are. Then the paths returned are exactly the
    paths of the files of the tree with the extension [.tf]; otherwise
    [listInputs] returns the error of the walk, whatever the files
    hold. *)
Theorem X15_walk_fails_iff_unhealthy (fs : Node) (directoryPath : string) :
  (snd (listTerraformFiles fs directoryPath) = None <-> healthy fs = true)
  /\ (healthy fs = true ->
      forall f, In f (fst (listTerraformFiles fs directoryPath))
                <-> file_at fs directoryPath f /\ Ext f = ".tf")
  /\ (healthy fs = false ->
      forall ReadFile ParseHCL,
      exists err, snd (listTerraformFiles fs directoryPath) = Some err
                  /\ listInputs ReadFile ParseHCL fs directoryPath
                     = Error (ErrWithStackTrace err)).
Proof.
  unfold listInputs, listTerraformFiles.
  pose proof (walk_healthy fs directoryPath) as HH.
  split; [exact HH|]. split.
  - intros Hh f. split.
    + intros H. destruct (walk_sound fs directoryPath f H). tauto.
    + intros [HA HE]. by apply walk_complete.
  - intros Hh ReadFile ParseHCL.
    destruct (walk directoryPath fs []) as [tfFiles [err|]]; simpl in *; [eauto|].
    assert (healthy fs = true) by (by apply HH). congruence.
Qed.

Lemma ext_go_after_separator (dir name : string) (cand : option string) :
  ext_go cand (dir ++ String "/" name) = ext_go None name.
Proof.
  revert cand. induction dir as [|c dir IH]; intros cand; [reflexivity|].
  rewrite append_cons. cbn [ext_go].
  destruct (Ascii.eqb c "/"); [apply IH|]. destruct (Ascii.eqb c "."); apply IH.
Qed.

(** The extension of an entry of a directory is that of its name. *)
Lemma Ext_Join (dir name : string) :
  proper_name name = true -> Ext (Join dir name) = Ext name.
Proof.
  intros Hn. destruct (Join_proper dir name Hn) as [-> | [pre ->]]; [reflexivity|].
  apply ext_go_after_separator.
Qed.

(** X16. In a tree without failures, a file entry [name] of the
    directory that is walked is listed, as the directory path joined
    with [name], exactly when the extension of [name] itself is [.tf]:
    dots and extensions in the directory path do not count, whether the
    path is clean or not. *)
Theorem X16_entry_listed_iff_tf
  (directoryPath dirname name : string) (entries : list Node) :
  healthy (NDir dirname entries) = true ->
  In (NFile name) entries ->
  proper_name name = true ->
  (In (Join directoryPath name)
      (fst (listTerraformFiles (NDir dirname entries) directoryPath))
   <-> Ext name = ".tf").
Proof.
  intros Hh Hin Hn. unfold listTerraformFiles. split.
  - intros H. apply walk_sound in H as [HE _]. by rewrite Ext_Join in HE.
  - intros HE. apply walk_complete; [exact Hh | | by rewrite Ext_Join].
    apply (file_below dirname entries (NFile name)); [exact Hin | constructor].
Qed.

(** X17. Separating the inputs of two runs of files one after the other
    gives the required inputs of the first followed by those of the
    second, and the same for the optional ones. *)
Theorem X17_separate_inputs_app (a b : list ParsedInput) :
  Run_separate_inputs (a ++ b)
  = (fst (Run_separate_inputs a) ++ fst (Run_separate_inputs b),
     snd (Run_separate_inputs a) ++ snd (Run_separate_inputs b)).
Proof.
  unfold Run_separate_inputs. rewrite !separate_inputs_filter. simpl.
  by rewrite !List.filter_app.
Qed.

End ListingFacts.

(** ** What ends the extraction *)

Section ExtractionOutcomes.
Import Hcl Notions.
Variable ReadFile : string -> option string.
Variable ParseHCL : string -> string -> Body * list Diagnostic.





End ExtractionOutcomes.

(** ** Queries *)

Section QueryFacts.
Import Notions.

Lemma compare_refl (s : string) : String.compare s s = Eq.
Proof.
  pose proof (String.compare_antisym s s) as H.
  destruct (String.compare s s); simpl in H; congruence.
Qed.

Lemma compare_Gt_Lt (a b : string) : String.compare a b = Gt <-> String.compare b a = Lt.
Proof.
  rewrite (String.compare_antisym b a). destruct (String.compare a b); simpl; split; congruence.
Qed.

Lemma compare_Gt_trans (a b c : string) :
  String.compare a b = Gt -> String.compare b c = Gt -> String.compare a c = Gt.
Proof.
  intros Hab Hbc.
  assert (Hcb : String.le c b).
  { unfold String.le, String.leb. apply compare_Gt_Lt in Hbc. by rewrite Hbc. }
  assert (Hba : String.le b a).
  { unfold String.le, String.leb. apply compare_Gt_Lt in Hab. by rewrite Hab. }
  pose proof (transitivity Hcb Hba) as Hca. unfold String.le, String.leb in Hca.
  apply compare_Gt_Lt. destruct (String.compare c a) eqn:E; [|reflexivity|destruct Hca].
  apply String.compare_eq_iff in E. subst c.
  apply compare_Gt_Lt in Hbc. congruence.
Qed.

Lemma Add_above (m : Values) (k x : string) :
  above k m -> Add m k x = m ++ [(k, [x])].
Proof.
  induction 1 as [|[k' vs] rest Hk _ IH]; [reflexivity|].
  simpl in *. by rewrite Hk, IH.
Qed.

Lemma Add_last (m : Values) (k x : string) (vs : list string) :
  above k m -> Add (m ++ [(k, vs)]) k x = m ++ [(k, vs ++ [x])].
Proof.
  induction 1 as [|[k' vs'] rest Hk _ IH]; simpl.
  - by rewrite compare_refl.
  - simpl in Hk. by rewrite Hk, IH.
Qed.

Lemma Add_keys (P : string -> Prop) (v : Values) (k x : string) :
  Forall (fun kv => P (fst kv)) v -> P k -> Forall (fun kv => P (fst kv)) (Add v k x).
Proof.
  intros Hv Hk. induction Hv as [|[k' vs] rest Hk' Hrest IH]; simpl.
  - by constructor.
  - destruct (String.compare k k') eqn:E.
    + by constructor.
    + constructor; [exact Hk|]. by constructor.
    + by constructor.
Qed.

(** [Add] keeps the values in the form of [ParseQuery]. *)
Lemma Add_normal (v : Values) (k x : string) : normal v -> normal (Add v k x).
Proof.
  induction v as [|[k' vs] rest IH]; simpl.
  - intros _. split; [discriminate|]. split; [constructor | exact I].
  - intros (Hvs & Hrest & Hn). destruct (String.compare k k') eqn:E.
    + simpl. split; [by destruct vs|]. split; assumption.
    + simpl. split; [discriminate|]. split; [|by split].
      apply compare_Gt_Lt in E. constructor; [exact E|].
      eapply Forall_impl; [exact Hrest|]. intros kv Hkv. simpl in *.
      eapply compare_Gt_trans; eassumption.
    + simpl. split; [exact Hvs|]. split; [|by apply IH].
      by apply (Add_keys (fun key => String.compare key k' = Gt)).
Qed.

Lemma parse_pairs_normal (pieces : list string) (m : Values) :
  normal m -> normal (fold_left parse_pair pieces m).
Proof.
  revert m. induction pieces as [|p pieces IH]; intros m Hm; [exact Hm|].
  simpl. apply IH. unfold parse_pair.
  destruct (contains_byte p ";"); [exact Hm|].
  destruct (String.eqb p ""); [exact Hm|].
  destruct (Cut p "=") as [key value].
  destruct (QueryUnescape key); [|exact Hm].
  destruct (QueryUnescape value); [|exact Hm]. by apply Add_normal.
Qed.

Lemma ParseQuery_normal (query : string) : normal (ParseQuery query).
Proof. apply parse_pairs_normal. exact I. Qed.

Lemma escape1_unescape (c : ascii) (r : string) :
  QueryUnescape (escape1 c ++ r)
  = match QueryUnescape r with Some r' => Some (String c r') | None => None end.
Proof. destruct c as [[] [] [] [] [] [] [] []]; reflexivity. Qed.

Lemma escape1_without (c : ascii) :
  without "&" (escape1 c) /\ without "=" (escape1 c) /\ without ";" (escape1 c).
Proof. destruct c as [[] [] [] [] [] [] [] []]; repeat split; reflexivity. Qed.

Lemma QueryEscape_cons (c : ascii) (s : string) :
  QueryEscape (String c s) = (escape1 c ++ QueryEscape s)%string.
Proof. unfold escape1. cbn [QueryEscape]. by rewrite append_nil_r. Qed.

(** What [QueryEscape] writes, [QueryUnescape] reads back. *)
Lemma QueryUnescape_QueryEscape (s : string) : QueryUnescape (QueryEscape s) = Some s.
Proof.
  induction s as [|c s IH]; [reflexivity|].
  by rewrite QueryEscape_cons, escape1_unescape, IH.
Qed.

Lemma without_append (c : ascii) (a b : string) :
  without c (a ++ b) <-> without c a /\ without c b.
Proof.
  induction a as [|x a IH].
  - change ("" ++ b)%string with b. unfold without at 2. simpl. tauto.
  - rewrite append_cons, !without_cons, IH. tauto.
Qed.

Lemma QueryEscape_without (s : string) :
  without "&" (QueryEscape s) /\ without "=" (QueryEscape s) /\ without ";" (QueryEscape s).
Proof.
  induction s as [|c s (IH1 & IH2 & IH3)]; [repeat split; reflexivity|].
  rewrite QueryEscape_cons. destruct (escape1_without c) as (H1 & H2 & H3).
  repeat split; by apply without_append.
Qed.

Lemma Cut_append (sep : ascii) (a b : string) :
  without sep a -> Cut (a ++ String sep b) sep = (a, b).
Proof.
  induction a as [|x a IH]; intros Ha.
  - change ("" ++ String sep b)%string with (String sep b). simpl.
    by rewrite Ascii.eqb_refl.
  - apply without_cons in Ha as [Hx Ha]. rewrite append_cons. cbn [Cut].
    apply Ascii.eqb_neq in Hx. by rewrite Hx, IH.
Qed.

(** [strings.Split] takes apart what [strings.Join] puts together,
    when no part holds the separator. *)
Lemma Split_join (c : ascii) (pieces : list string) :
  pieces <> [] -> Forall (without c) pieces ->
  Split (join (String c "") pieces) (String c "") = pieces.
Proof.
  intros Hne Hall. induction Hall as [|x l Hx Hl IH]; [done|].
  destruct l as [|y l].
  - simpl. by apply Split_last.
  - change (join (String c "") (x :: y :: l))
      with (x ++ String c (join (String c "") (y :: l)))%string.
    rewrite Split_part by exact Hx. f_equal. by apply IH.
Qed.

Lemma piece_of_without (c : ascii) (kx : string * string) :
  c = "&"%char \/ c = ";"%char -> without c (piece_of kx).
Proof.
  intros Hc. unfold piece_of.
  destruct (QueryEscape_without (fst kx)) as (H1 & _ & H3).
  destruct (QueryEscape_without (snd kx)) as (H1' & _ & H3').
  change ("=" ++ QueryEscape (snd kx))%string with (String "=" (QueryEscape (snd kx))).
  apply without_append. destruct Hc as [-> | ->]; (split; [assumption|]);
    apply without_cons; by split.
Qed.

(** A round of [parseQuery] over the text of a pair adds the pair. *)
Lemma parse_pair_piece (m : Values) (kx : string * string) :
  parse_pair m (piece_of kx) = Add m (fst kx) (snd kx).
Proof.
  unfold parse_pair.
  pose proof (piece_of_without ";" kx (or_intror eq_refl)) as Hsemi.
  unfold without in Hsemi. rewrite Hsemi.
  assert (Hne : String.eqb (piece_of kx) "" = false).
  { unfold piece_of. destruct (QueryEscape (fst kx)); reflexivity. }
  rewrite Hne. unfold piece_of.
  change ("=" ++ QueryEscape (snd kx))%string with (String "=" (QueryEscape (snd kx))).
  rewrite Cut_append by apply QueryEscape_without.
  by rewrite !QueryUnescape_QueryEscape.
Qed.

Lemma parse_pairs_pieces (pairs : list (string * string)) (m : Values) :
  fold_left parse_pair (map piece_of pairs) m
  = fold_left (fun m kx => Add m (fst kx) (snd kx)) pairs m.
Proof.
  revert m. induction pairs as [|kx pairs IH]; intros m; [reflexivity|].
  simpl. by rewrite parse_pair_piece, IH.
Qed.

Lemma Add_values (m : Values) (k : string) (vs xs : list string) :
  above k m ->
  fold_left (fun m kx => Add m (fst kx) (snd kx)) (map (fun x => (k, x)) xs) (m ++ [(k, vs)])
  = m ++ [(k, vs ++ xs)].
Proof.
  intros Hk. revert vs. induction xs as [|x xs IH]; intros vs.
  - simpl. by rewrite app_nil_r.
  - simpl. rewrite Add_last by exact Hk. rewrite IH. by rewrite <- app_assoc.
Qed.

Lemma Add_pairs (v m : Values) :
  normal v -> Forall (fun kv => above (fst kv) m) v ->
  fold_left (fun m kx => Add m (fst kx) (snd kx)) (pairs_of v) m = m ++ v.
Proof.
  revert m. induction v as [|[k vs] rest IH]; intros m Hn Hab.
  - simpl. by rewrite app_nil_r.
  - destruct Hn as (Hvs & Hrest & Hn). inversion Hab as [|? ? Hk Hab']; subst.
    simpl in Hk. destruct vs as [|x xs]; [done|].
    unfold pairs_of. cbn [flat_map fst snd map]. rewrite <- app_comm_cons.
    cbn [fold_left fst snd]. rewrite fold_left_app.
    rewrite Add_above by exact Hk. rewrite Add_values by exact Hk.
    change (flat_map _ rest) with (pairs_of rest).
    rewrite IH; [by rewrite <- app_assoc|exact Hn|].
    apply Forall_forall. intros kv Hin. unfold above. apply Forall_app. split.
    + by apply (proj1 (Forall_forall _ _) Hab').
    + constructor; [|constructor]. by apply (proj1 (Forall_forall _ _) Hrest).
Qed.

Lemma pairs_of_nil (v : Values) : normal v -> pairs_of v = [] -> v = [].
Proof.
  destruct v as [|[k [|x xs]] rest]; [done| |]; simpl.
  - by intros [H _].
  - intros _ H. discriminate H.
Qed.

Lemma Encode_pieces (v : Values) : Encode v = join "&" (map piece_of (pairs_of v)).
Proof.
  unfold Encode, pairs_of. f_equal.
  induction v as [|[k vs] rest IH]; [reflexivity|].
  cbn [flat_map]. rewrite map_app, <- IH. f_equal.
  rewrite map_map. reflexivity.
Qed.

(** [ParseQuery] reads back the values that [Encode] wrote. *)
Lemma ParseQuery_Encode (v : Values) : normal v -> ParseQuery (Encode v) = v.
Proof.
  intros Hn. unfold ParseQuery. rewrite Encode_pieces.
  destruct (pairs_of v) as [|kx pairs] eqn:E.
  - apply pairs_of_nil in E; [|exact Hn]. by subst v.
  - rewrite Split_join.
    + rewrite parse_pairs_pieces, <- E.
      rewrite Add_pairs; [reflexivity|exact Hn|].
      apply Forall_forall. intros kv _. constructor.
    + discriminate.
    + apply List.Forall_forall. intros piece Hin.
      apply in_map_iff in Hin as (kx' & <- & _).
      apply piece_of_without. by left.
Qed.

Lemma Get_Add_new (v : Values) (k x : string) :
  Has v k = false -> Get (Add v k x) k = x.
Proof.
  induction v as [|[k' vs] rest IH]; simpl.
  - intros _. by rewrite String.eqb_refl.
  - intros H. apply orb_false_iff in H as [Hk Hrest].
    destruct (String.compare k k') eqn:E; simpl.
    + apply String.compare_eq_iff in E. subst k'. by rewrite String.eqb_refl in Hk.
    + by rewrite String.eqb_refl.
    + rewrite Hk. by apply IH.
Qed.

Lemma Get_Add_other (v : Values) (k x k' : string) :
  k' <> k -> Get (Add v k x) k' = Get v k'.
Proof.
  intros Hne. apply not_eq_sym in Hne. apply String.eqb_neq in Hne.
  induction v as [|[k0 vs] rest IH]; simpl.
  - by rewrite Hne.
  - destruct (String.compare k k0) eqn:E; simpl.
    + apply String.compare_eq_iff in E. subst k0. by rewrite Hne.
    + by rewrite Hne.
    + by rewrite IH.
Qed.

End QueryFacts.

Section ResolvedRef.
Variable SplitSourceUrl : URL -> outcome URL.
Variable token : string.
Variable GetLatestRelease : string -> string -> string -> outcome string.

(** X7. When the first [ref] of the locator is empty and the lookup
    returns a tag, the step returns the locator with a new query and
    with its scheme, host and path as they were; the query of the result
    reads back as the values of the old one with the tag added under
    [ref], so every other key keeps its first value; when the old query
    has no [ref] at all, the [ref] of the result is the tag, and for a
    tag that is not empty the step run again on the result makes no
    lookup and returns it as it is. *)
Theorem X7_resolved_ref_is_read_back
  (u root : URL) (lookups : list Lookup) (tag : string) :
  Get (Query u) "ref" = "" ->
  SplitSourceUrl u = Return root ->
  getLatestReleaseTag token GetLatestRelease root = (lookups, Return tag) ->
  exists u' : URL,
    Run_resolve_ref SplitSourceUrl token GetLatestRelease u = (lookups, Return u')
    /\ (Scheme u' = Scheme u /\ Host u' = Host u /\ Path u' = Path u)
    /\ Query u' = Add (Query u) "ref" tag
    /\ (forall k, k <> "ref" -> Get (Query u') k = Get (Query u) k)
    /\ (Has (Query u) "ref" = false ->
        Get (Query u') "ref" = tag
        /\ (tag <> "" ->
            Run_resolve_ref SplitSourceUrl token GetLatestRelease u' = ([], Return u'))).
Proof.
  intros Href HS HL.
  exists (mkURL (Scheme u) (Host u) (Path u) (Encode (Add (Query u) "ref" tag))).
  assert (HQ : Query (mkURL (Scheme u) (Host u) (Path u) (Encode (Add (Query u) "ref" tag)))
               = Add (Query u) "ref" tag).
  { unfold Query at 1. cbn [RawQuery]. apply ParseQuery_Encode, Add_normal.
    apply ParseQuery_normal. }
  split; [|split; [|split; [|split]]].
  - unfold Run_resolve_ref. rewrite Href. cbn [String.eqb]. by rewrite HS, HL.
  - by repeat split.
  - exact HQ.
  - intros k Hk. rewrite HQ. by apply Get_Add_other.
  - intros Hhas. rewrite HQ. rewrite Get_Add_new by exact Hhas. split; [reflexivity|].
    intros Htag. unfold Run_resolve_ref at 1. rewrite HQ, Get_Add_new by exact Hhas.
    apply String.eqb_neq in Htag. by rewrite Htag.
Qed.

End ResolvedRef.

(** ** The further properties on sample inputs *)

Section FurtherOnSamples.
Import Hcl Samples Notions FurtherSamples.

(** X1 at [git::https://github.com/org/repo//modules/x]. *)
Lemma X1_witness :
  parseUrl https_locator = ("https", "github.com", "/org/repo//modules/x").
Proof.
  apply (X1_parseUrl_of_git_locator "https" "github.com" "/org/repo//modules/x");
    first [reflexivity | discriminate].
Defined.

(** X2 at a locator without the marker. *)
Lemma X2_witness :
  parseUrl "github.com/org/repo" = ("", "", "")
  /\ Run_prepare_source_url ssh_vars "github.com/org/repo" = "github.com/org/repo".
Proof. apply (X2_no_marker_no_match ssh_vars "github.com/org/repo"). reflexivity. Defined.

(** X3 at a run that asks for [git-https]. *)
Lemma X3_witness : Run_prepare_source_url https_vars git_https_locator = git_https_locator.
Proof.
  apply (X3_unchanged_unless_git_ssh https_vars git_https_locator).
  intros value H. vm_compute in H. injection H as <-. discriminate.
Defined.

(** X4 at [git::git-https://github.com/org/repo//modules/x]. *)
Lemma X4_witness :
  Run_prepare_source_url ssh_vars git_https_locator = "git@github.com:org/repo//modules/x".
Proof.
  apply (X4_git_https_locator_rewritten ssh_vars (VarString "git-ssh") "github.com"
           "/org/repo//modules/x"); first [reflexivity | discriminate].
Defined.

(** X5 at the path [/org/repo.git]. *)
Lemma X5_witness :
  getLatestReleaseTag "" latest_v1_2_3 root_dot_git = ([("org", "repo")], Return "v1.2.3").
Proof.
  apply (X5_getLatestReleaseTag_owner_repo "" latest_v1_2_3 root_dot_git "" "org" "repo.git" "");
    try reflexivity.
  left. reflexivity.
Defined.

(** X6 at a locator without [ref] whose repository has no release. *)
Lemma X6_witness :
  Run_resolve_ref split_root "" latest_missing locator_no_ref
  = ([("org", "repo")], Return locator_no_ref).
Proof.
  pose proof (X6_failures_of_the_resolution split_root "" latest_missing locator_no_ref
                eq_refl) as H.
  cbv zeta in H. destruct H as (_ & H & _).
  apply (H locator_no_ref "" "org" "repo" [] (ErrMsg "404 Not Found")); reflexivity.
Defined.

(** X7 at a locator with the query [depth=1]. *)
Lemma X7_witness :
  exists u' : URL,
    Run_resolve_ref split_root "" latest_v1_2_3 locator_no_ref
    = ([("org", "repo")], Return u')
    /\ Query u' = [("depth", ["1"]); ("ref", ["v1.2.3"])]
    /\ Get (Query u') "ref" = "v1.2.3"
    /\ Run_resolve_ref split_root "" latest_v1_2_3 u' = ([], Return u').
Proof.
  destruct (X7_resolved_ref_is_read_back split_root "" latest_v1_2_3
              locator_no_ref locator_no_ref [("org", "repo")] "v1.2.3"
              eq_refl eq_refl eq_refl) as (u' & H1 & _ & H3 & _ & H5).
  destruct (H5 eq_refl) as [H6 H7].
  exists u'. split; [exact H1|]. split; [exact H3|]. split; [exact H6|].
  apply H7. discriminate.
Defined.

(** X9 at [variable X { description = 5 }]. *)
Lemma X9_witness :
  Type_ variable_description_5 = "variable"
  /\ (Labels variable_description_5 = []
      \/ exists val,
           (readBlockAttribute variable_description_5 "description" = Return (Some val)
            \/ readBlockAttribute variable_description_5 "type" = Return (Some val))
           /\ forall s, val <> Cty.StringVal s).
Proof. eapply (X9_panics_of_the_loop_body variable_description_5). reflexivity. Defined.

(** X10 at [variable X {}]. *)
Lemma X10_witness :
  IsRequired input_X = true <-> read_or_nil variable_X "default" = Return None.
Proof. exact (proj1 (X10_required_iff_no_default variable_X input_X eq_refl)). Defined.

(** X11 at a directory whose one file holds [variable X {}]. *)
Lemma X11_witness :
  Name input_X <> ""
  /\ exists block,
       reached read_any (parse_as [variable_X]) single_dir "/tmp/scaffold" block
       /\ listInputs_block block = Return (Some input_X)
       /\ Type_ block = "variable"
       /\ exists rest, Labels block = Name input_X :: rest.
Proof.
  apply (X11_inputs_come_from_variable_blocks read_any (parse_as [variable_X]) single_dir
           "/tmp/scaffold" [input_X] eq_refl input_X).
  left. reflexivity.
Defined.

(** X12 at [variable X { default = 5 }]. *)
Lemma X12_witness :
  (let! defaultValue := read_or_nil variable_default_5 "default" in default_text defaultValue)
  = Return "5".
Proof.
  refine (proj1 (X12_integer_default_is_decimal variable_default_5 5 _ _)).
  - eexists. split; reflexivity.
  - reflexivity.
Defined.

(** X13 at [variable big { default = 1e400 }]. *)
Lemma X13_witness :
  listInputs_block variable_default_huge
  = Error (ErrWithStackTrace (ErrMsg "value out of range")).
Proof.
  refine (proj1 (proj2 (X13_default_out_of_float64_range variable_default_huge "big" []
                          (10 ^ 400) eq_refl eq_refl _ _ _)) eq_refl eq_refl).
  - discriminate.
  - eexists. split; reflexivity.
  - vm_compute. discriminate.
Defined.

(** X14 at the file of a subdirectory. *)
Lemma X14_witness :
  Ext "/tmp/scaffold/modules/extra.tf" = ".tf"
  /\ file_at module_dir "/tmp/scaffold" "/tmp/scaffold/modules/extra.tf"
  /\ String.prefix "/tmp/scaffold" "/tmp/scaffold/modules/extra.tf" = true.
Proof.
  destruct (X14_listed_paths module_dir "/tmp/scaffold" "/tmp/scaffold/modules/extra.tf")
    as (H1 & H2 & H3).
  - vm_compute. tauto.
  - split; [exact H1|]. split; [exact H2|].
    apply H3; [reflexivity | reflexivity | discriminate].
Defined.

(** X16 at the file [main.tf] of a directory given with a trailing
    separator. *)
Lemma X16_witness :
  In "/tmp/scaffold/main.tf" (fst (listTerraformFiles single_dir "/tmp/scaffold/"))
  <-> Ext "main.tf" = ".tf".
Proof.
  apply (X16_entry_listed_iff_tf "/tmp/scaffold/" "scaffold" "main.tf" [NFile "main.tf"]).
  - reflexivity.
  - left. reflexivity.
  - reflexivity.
Defined.

(** The text of a number is the shortest that reads back at 512 bits:
    for a default half way between the largest float64 and 2^1024 it is
    below the number, and the default reads as the largest float64. *)
Example default_at_the_float64_limit :
  (Cty.number_text (2 ^ 1024 - 2 ^ 970) <? 2 ^ 1024 - 2 ^ 970)%Z = true
  /\ listInputs_block variable_default_max
     = Return (Some (mkParsedInput "max" "No description for max" "No type for max"
                       "1.7976931348623157e+308")).
Proof. split; vm_compute; reflexivity. Qed.

(** The paths of the walk are those of [filepath.Join]: from [.] they
    carry no directory, and a trailing separator of the directory path
    is not doubled. *)
Example listTerraformFiles_unclean :
  listTerraformFiles single_dir "." = (["main.tf"], None)
  /\ listTerraformFiles single_dir "/tmp/scaffold/" = (["/tmp/scaffold/main.tf"], None)
  /\ listTerraformFiles module_dir "./scaffold//"
     = (["scaffold/broken.tf"; "scaffold/main.tf"; "scaffold/modules/extra.tf";
         "scaffold/secret.tf"], None).
Proof. repeat split. Qed.


End FurtherOnSamples.
